(** * connections-test: a model of [main.go] and its properties

    The benchmark opens [numLoops] database connections, warms them up and
    then, for every ramp step, replaces one connection, starts one goroutine
    per participating connection, waits for all of them and prints the
    percentiles of the measured transaction times.

    The program is embedded as a tree of calls into its collaborators
    (database/sql, the clock, the random source, fmt, sync, tachymeter):
    every call is a node, its result selects the continuation.  Sequential
    code is run against an oracle that answers the calls; goroutines are run
    by an interleaving machine that owns the shared variables of a ramp step. *)

From Stdlib Require Import ZArith String List Lia Permutation.
From stdpp Require Import base list strings sorting relations.

Local Open Scope string_scope.
Local Open Scope list_scope.
Local Open Scope Z_scope.

(** ** Values of the program *)

(** A Go [error], identified with the text [%v] prints for it. *)
Abbreviation error := string.

(** The identity of a [*sql.Conn] returned by [db.Conn]. *)
Abbreviation handle := nat.

(** A [*sql.Conn] variable: [None] is the nil pointer. *)
Abbreviation conn := (option handle).

(** [time.Duration]: a signed 64-bit count of nanoseconds. *)
Abbreviation duration := Z.

(** A reading of the monotonic clock, in nanoseconds. *)
Abbreviation instant := Z.

Definition maxDuration : Z := 2 ^ 63 - 1.
Definition minDuration : Z := - 2 ^ 63.

(** [t.Sub(u)]: the difference, saturated to the range of [time.Duration]. *)
Definition time_sub (t u : instant) : duration :=
  Z.max minDuration (Z.min maxDuration (t - u)).

(** [float64] values are kept as the expression that computes them; the
    program never branches on one. *)
Inductive float64 : Type :=
| F64zero                                (* the zero value of [var sleepTime float64] *)
| F64bits (b : Z)                        (* a value handed over by the runtime *)
| F64add (x y : float64)                 (* [x + y] *)
| F64mul (x y : float64)                 (* [x * y] *)
| F64pow (x y : Z)                       (* [math.Pow(x, y)] on integer literals *)
| F64seconds (d : duration).             (* [d.Seconds()] *)

(** The fields of [tachymeter.Metrics] the program reads. *)
Record metrics : Type := Metrics { P50 : duration; P75 : duration; P95 : duration }.

(** Arguments handed to the [fmt] functions. *)
Inductive value : Type :=
| VInt (n : Z)
| VFloat (f : float64)
| VErr (e : error)
| VMetricsString (m : metrics).          (* [metrics.String()] *)

Inductive stream : Type := Stdout | Stderr.

(** The function literal of the [go] statement together with the variables
    it captures: the connection copied into [conn] and the loop variable [i],
    which also names the iteration whose [wg], [numErrors] and [t] it uses. *)
Inductive closure : Type := WorkLoop (c : conn) (i : Z).

Definition newline : string := String (Ascii.ascii_of_nat 10) EmptyString.

(** [fmt.Errorf(prefix + "%v", err)]. *)
Definition Errorf (prefix : string) (err : error) : error := prefix +:+ err.

(** ** Calls into the collaborators

    [event X] is a call whose result has type [X].  SQL statements are kept
    by their kind and the number of the [users_<n>] table they name.  The
    variables declared inside the benchmark loop ([wg], [numErrors], [t])
    are fresh in every iteration; a call on one of them carries the index
    [i] of the iteration it belongs to. *)
Inductive event : Type -> Type :=
(* database/sql *)
| SqlOpen (driverName dataSourceName : string) : event (option error)
| SetConnMaxLifetime (d : duration) : event unit
| SetMaxOpenConns (n : Z) : event unit
| SetMaxIdleConns (n : Z) : event unit
| DbConn : event (error + handle)
| DbClose : event (option error)
| ConnClose (c : handle) : event (option error)
| CreateTable (c : handle) (table : Z) : event (option error)
| DropTable (c : handle) (table : Z) : event (option error)
| BeginTx (c : handle) : event (option error)
| InsertReturningId (c : handle) (table : Z) (name : string) : event (error + Z)
| SelectById (c : handle) (table : Z) (id : Z) : event (option error)
| DeleteById (c : handle) (table : Z) (id : Z) : event (option error)
| Commit (c : handle) : event (option error)
(* uuid, time, math/rand, fmt *)
| UuidNewString : event string
| Now : event instant
| RandFloat64 : event float64
| Sleep (nanoseconds : float64) : event unit      (* [time.Sleep(time.Duration(x))] *)
| Fprintf (w : stream) (format : string) (args : list value) : event unit
| Println (args : list value) : event unit
(* goroutines and the variables they share *)
| Go (f : closure) : event unit
| WgAdd (i : Z) (delta : Z) : event unit
| WgDone (i : Z) : event unit
| WgWait (i : Z) : event unit
| AtomicAddInt32 (i : Z) (delta : Z) : event Z
| LoadNumErrors (i : Z) : event Z
| TachNew (i : Z) (size : Z) : event unit
| TachAddTime (i : Z) (d : duration) : event unit
| TachCalc (i : Z) : event metrics.

(** ** Programs *)

Inductive prog (R : Type) : Type :=
| Ret (r : R)
| Panic (v : string)
| Vis {X : Type} (e : event X) (k : X -> prog R).

Arguments Ret {R} r.
Arguments Panic {R} v.
Arguments Vis {R X} e k.

Fixpoint bind {A B : Type} (p : prog A) (f : A -> prog B) : prog B :=
  match p with
  | Ret a => f a
  | Panic v => Panic v
  | Vis e k => Vis e (fun x => bind (k x) f)
  end.

Definition call {X : Type} (e : event X) : prog X := Vis e Ret.

Declare Scope prog_scope.
Delimit Scope prog_scope with prog.
Notation "x <- p ;; q" := (bind p (fun x => q))
  (at level 100, p at next level, right associativity) : prog_scope.
Notation "p ;; q" := (bind p (fun _ => q))
  (at level 100, q at level 200, right associativity) : prog_scope.
Local Open Scope prog_scope.

(** [defer d] around [p]: [d] runs when [p] returns and when it panics. *)
Fixpoint finally {A : Type} (p : prog A) (d : prog unit) : prog A :=
  match p with
  | Ret a => d ;; Ret a
  | Panic v => d ;; Panic v
  | Vis e k => Vis e (fun x => finally (k x) d)
  end.

(** [for i := lo; ...; i++ { body }] with [n] iterations left.  The body
    gets the loop variable and the variables it updates; it yields [inl s]
    to go on with the next iteration and [inr r] when it executes
    [return r].  The loop yields [inl s] when it falls through. *)
Fixpoint for_loop {S R : Type} (n : nat) (i : Z)
    (body : Z -> S -> prog (S + R)) (s : S) : prog (S + R) :=
  match n with
  | O => Ret (inl s)
  | Datatypes.S n' =>
      r <- body i s ;;
      match r with
      | inl s' => for_loop n' (i + 1) body s'
      | inr v => Ret (inr v)
      end
  end.

(** [for i := lo; i < hi; i++ { body }]. *)
Definition for_range {S R : Type} (lo hi : Z)
    (body : Z -> S -> prog (S + R)) (s : S) : prog (S + R) :=
  for_loop (Z.to_nat (hi - lo)) lo body s.

Definition nil_dereference : string :=
  "runtime error: invalid memory address or nil pointer dereference".
(* The text of the Go runtime goes on with the index and the length. *)
Definition index_out_of_range : string := "runtime error: index out of range".
Definition divide_by_zero : string := "runtime error: integer divide by zero".

(** A method call on a [*sql.Conn]: it panics on the nil pointer. *)
Definition on_conn {R : Type} (c : conn) (f : handle -> prog R) : prog R :=
  match c with
  | Some h => f h
  | None => Panic nil_dereference
  end.

(** [l[i]] for a slice [l]. *)
Definition index {A : Type} (l : list A) (i : Z) : prog A :=
  if (i <? 0) then Panic index_out_of_range
  else match l !! Z.to_nat i with
       | Some a => Ret a
       | None => Panic index_out_of_range
       end.

(** ** Running a program against an oracle *)

(** A call together with its result. *)
Inductive entry : Type :=
| Entry (X : Type) (e : event X) (x : X).
Arguments Entry {X} e x.
Abbreviation trace := (list entry).

(** The collaborators: the result of a call, given the calls made so far. *)
Definition oracle := forall X : Type, trace -> event X -> X.

(** How a function ends: it returns [r], or a panic with value [v] leaves
    it. *)
Inductive exit (R : Type) : Type :=
| Done (r : R)
| Panicked (v : string).
Arguments Done {R} r.
Arguments Panicked {R} v.

(** [interp o p tr] runs [p] after the calls [tr], every call returning
    what the oracle answers: it yields all calls made and how [p] ended.
    A call of [Close] that waits for a transaction is the matter of [exec]
    below. *)
Fixpoint interp {R : Type} (o : oracle) (p : prog R) (tr : trace) : trace * exit R :=
  match p with
  | Ret r => (tr, Done r)
  | Panic v => (tr, Panicked v)
  | Vis e k => let x := o _ tr e in interp o (k x) (tr ++ [Entry e x])
  end.

(** ** [establishConnection] *)

Definition connRetries : Z := 5.

(** Lines 168 to 193.  The database handle [db] is the only one of the
    program and is not named. *)
Definition establishConnection : prog (conn * option error) :=
  r <- for_range 0 connRetries
         (fun i (_ : unit) =>
            r <- call DbConn ;;
            match r with
            | inr c => Ret (inr (Some c, None))
            | inl err =>
                if i =? connRetries - 1
                then Ret (inr (None, Some (Errorf "Error opening connection: " err)))
                else
                  s <- for_range (R := Empty_set) 0 (i + 1)
                         (fun _ (sleepTime : float64) =>
                            x <- call RandFloat64 ;;
                            Ret (inl (F64add sleepTime x)))
                         F64zero ;;
                  match s with
                  | inl sleepTime =>
                      call (Sleep (F64mul sleepTime (F64pow 10 9))) ;;
                      Ret (inl tt)
                  | inr v => match v with end
                  end
            end)
         tt ;;
  match r with
  | inr v => Ret v
  | inl _ => Panic "Unreachable"
  end.

(** The results of the [db.Conn] calls of a trace, in order. *)
Definition attempt (en : entry) : list (error + handle) :=
  match en with
  | Entry e x =>
      match e in event X return X -> list (error + handle) with
      | DbConn => fun r => [r]
      | _ => fun _ => []
      end x
  end.

Definition attempts (tr : trace) : list (error + handle) := flat_map attempt tr.

(** ** The package-level variables

    Go's [int] has 64 bits.  The loop variables of the program stay below
    [numLoops], [connRetries] and 10, so none of its additions wraps
    around and [Z] stands for [int] as it is; [%] is [Z.rem]. *)

Record config : Type := Config { numLoops : Z; numTables : Z }.

(** [var numLoops = 1000] and [var numTables = 50]. *)
Definition shipped : config := {| numLoops := 1000; numTables := 50 |}.

Definition connStr : string := "postgres://localhost/connections-test?sslmode=disable".

(** ** The state of [main]: the slice [conns]

    [main] carries its slice of connections through every statement, also
    while a panic unwinds, because the deferred functions read it. *)
Abbreviation slots := (list conn).

(** A part of [main]: from the slice it returns how it ended, normally or
    in a panic, and the slice as it left it. *)
Definition mainM (R : Type) : Type := slots -> prog (exit R * slots).

(** A panic of [p] becomes a value. *)
Fixpoint try {A : Type} (p : prog A) : prog (exit A) :=
  match p with
  | Ret a => Ret (Done a)
  | Panic v => Ret (Panicked v)
  | Vis e k => Vis e (fun x => try (k x))
  end.

Definition mret {A : Type} (a : A) : mainM A := fun s => Ret (Done a, s).

Definition mbind {A B : Type} (m : mainM A) (f : A -> mainM B) : mainM B :=
  fun s =>
    r <- m s ;;
    match r with
    | (Done a, s') => f a s'
    | (Panicked v, s') => Ret (Panicked v, s')
    end.

(** A call of a function that does not touch the slice. *)
Definition lift {A : Type} (p : prog A) : mainM A :=
  fun s => r <- try p ;; Ret (r, s).

(** [panic(v)]. *)
Definition panic {A : Type} (v : string) : mainM A := fun s => Ret (Panicked v, s).

(** [conns[i]]. *)
Definition get_conn (i : Z) : mainM conn := fun s => lift (index s i) s.

(** [conns[i] = c]. *)
Definition set_conn (i : Z) (c : conn) : mainM unit :=
  fun s =>
    if (0 <=? i) && (i <? Z.of_nat (length s))
    then Ret (Done tt, <[Z.to_nat i := c]> s)
    else Ret (Panicked index_out_of_range, s).

(** [defer d] followed by [body]: [d] runs on the slice [body] leaves
    behind, whether [body] returned or panicked; a panic of [d] replaces
    the one that is unwinding. *)
Definition defer {A : Type} (d : mainM unit) (body : mainM A) : mainM A :=
  fun s =>
    r <- body s ;;
    rd <- d (snd r) ;;
    match rd with
    | (Done _, s') => Ret (fst r, s')
    | (Panicked v, s') => Ret (Panicked v, s')
    end.

Declare Scope main_scope.
Delimit Scope main_scope with main.
Notation "x <- p ;; q" := (mbind p (fun x => q))
  (at level 100, p at next level, right associativity) : main_scope.
Notation "p ;; q" := (mbind p (fun _ => q))
  (at level 100, q at level 200, right associativity) : main_scope.

(** [for i := lo; ...; i++ { body }] in [main], with [n] iterations left. *)
Fixpoint main_loop (n : nat) (i : Z) (body : Z -> mainM unit) : mainM unit :=
  match n with
  | O => mret tt
  | Datatypes.S n' => (body i ;; main_loop n' (i + 1) body)%main
  end.

Definition main_range (lo hi : Z) (body : Z -> mainM unit) : mainM unit :=
  main_loop (Z.to_nat (hi - lo)) lo body.

(** [fmt.Printf] and [fmt.Fprintf(os.Stderr, ...)]. *)
Definition Printf (format : string) (args : list value) : mainM unit :=
  lift (call (Fprintf Stdout format args)).

Definition Eprintf (format : string) (args : list value) : mainM unit :=
  lift (call (Fprintf Stderr format args)).

Definition csv_header : string := "# connections,p50,p75,p95" +:+ newline.
Definition csv_row : string := "%v,%v,%v,%v" +:+ newline.
Definition work_loop_error : string := "Error during work loop: %v" +:+ newline.
Definition close_error : string := "Error closing connection: %v" +:+ newline.
Definition drop_error : string := "Error dropping table: %v" +:+ newline.

Section Program.

Variable cfg : config.

(** *** [run] *)

(** Lines 195 to 251.  The transaction [tx] is named by the connection it
    runs on; [ids] is the slice the inserts fill. *)
Definition run (c : conn) (workerNum : Z) : prog (duration * option error) :=
  if numTables cfg =? 0 then Panic divide_by_zero
  else
    let tableNum := Z.rem workerNum (numTables cfg) in
    start <- call Now ;;
    on_conn c (fun tx =>
      err <- call (BeginTx tx) ;;
      match err with
      | Some err => Ret (0, Some (Errorf "Error beginning transaction: " err))
      | None =>
          r <- for_range 0 10
                 (fun i (ids : list Z) =>
                    name <- call UuidNewString ;;
                    r <- call (InsertReturningId tx tableNum name) ;;
                    match r with
                    | inl err => Ret (inr (0, Some (Errorf "Error inserting row: " err)))
                    | inr id => Ret (inl (<[Z.to_nat i := id]> ids))
                    end)
                 (replicate 10 0) ;;
          match r with
          | inr v => Ret v
          | inl ids =>
              r <- for_range 0 10
                     (fun i (_ : unit) =>
                        id <- index ids i ;;
                        err <- call (SelectById tx tableNum id) ;;
                        match err with
                        | Some err => Ret (inr (0, Some (Errorf "Error selecting row: " err)))
                        | None => Ret (inl tt)
                        end)
                     tt ;;
              match r with
              | inr v => Ret v
              | inl _ =>
                  r <- for_range 0 10
                         (fun i (_ : unit) =>
                            id <- index ids i ;;
                            err <- call (DeleteById tx tableNum id) ;;
                            match err with
                            | Some err => Ret (inr (0, Some (Errorf "Error deleting row: " err)))
                            | None => Ret (inl tt)
                            end)
                         tt ;;
                  match r with
                  | inr v => Ret v
                  | inl _ =>
                      err <- call (Commit tx) ;;
                      match err with
                      | Some err =>
                          Ret (0, Some (Errorf "Error committing transaction: " err))
                      | None =>
                          finish <- call Now ;;
                          Ret (time_sub finish start, None)
                      end
                  end
              end
          end
      end).

(** *** The goroutine of the benchmark loop *)

(** What the function literal does with the result of [run]. *)
Definition record (i : Z) (r : duration * option error) : prog unit :=
  match r with
  | (_, Some err) =>
      call (AtomicAddInt32 i 1) ;;
      call (Fprintf Stderr work_loop_error [VErr err])
  | (elapsed, None) => call (TachAddTime i elapsed)
  end.

(** Lines 128 to 138: the function literal, with [defer wg.Done()]. *)
Definition work_loop (c : conn) (i : Z) : prog unit :=
  finally (r <- run c i ;; record i r) (call (WgDone i)).

Definition go_body (f : closure) : prog unit :=
  match f with
  | WorkLoop c i => work_loop c i
  end.

(** *** The parts of [main] *)

(** Lines 24 to 30. *)
Definition open_database : mainM unit :=
  (err <- lift (call (SqlOpen "postgres" connStr)) ;;
   match err with
   | Some err => panic (Errorf "Error opening database: " err)
   | None =>
       lift (call (SetConnMaxLifetime (-1))) ;;
       lift (call (SetMaxOpenConns (numLoops cfg))) ;;
       lift (call (SetMaxIdleConns (numLoops cfg)))
   end)%main.

(** [conns := make([]*sql.Conn, numLoops)]. *)
Definition make_conns : mainM unit :=
  fun _ =>
    if numLoops cfg <? 0
    then Ret (Panicked "runtime error: makeslice: len out of range", [])
    else Ret (Done tt, replicate (Z.to_nat (numLoops cfg)) None).

(** Lines 32 to 42. *)
Definition establish_connections : mainM unit :=
  (Printf newline [] ;;
   Printf ("Establishing connections" +:+ newline) [] ;;
   Printf ("------------------------" +:+ newline) [] ;;
   make_conns ;;
   main_range 0 (numLoops cfg)
     (fun i =>
        r <- lift establishConnection ;;
        set_conn i (fst r) ;;
        match snd r with
        | Some err => panic (Errorf "Error establishing connections: " err)
        | None => mret tt
        end))%main.

(** Lines 44 to 55: the first deferred function.  Whether a call of
    [Close] returns is not for the program to say: [exec] runs it with
    [Close] waiting for the transactions open on the connection. *)
Definition close_connections : mainM unit :=
  (Printf newline [] ;;
   Printf ("Closing connections" +:+ newline) [] ;;
   Printf ("-------------------" +:+ newline) [] ;;
   main_range 0 (numLoops cfg)
     (fun i =>
        c <- get_conn i ;;
        err <- lift (on_conn c (fun h => call (ConnClose h))) ;;
        match err with
        | Some err => Eprintf close_error [VErr err]
        | None => mret tt
        end))%main.

(** Lines 57 to 71. *)
Definition create_tables : mainM unit :=
  (Printf newline [] ;;
   Printf ("Creating tables" +:+ newline) [] ;;
   Printf ("---------------" +:+ newline) [] ;;
   main_range 0 (numTables cfg)
     (fun i =>
        c <- get_conn i ;;
        err <- lift (on_conn c (fun h => call (CreateTable h i))) ;;
        match err with
        | Some err => panic (Errorf "Error creating table: " err)
        | None => mret tt
        end))%main.

(** Lines 73 to 87: the second deferred function. *)
Definition drop_tables : mainM unit :=
  (Printf newline [] ;;
   Printf ("Dropping tables" +:+ newline) [] ;;
   Printf ("---------------" +:+ newline) [] ;;
   main_range 0 (numTables cfg)
     (fun i =>
        c <- get_conn i ;;
        err <- lift (on_conn c (fun h => call (DropTable h i))) ;;
        match err with
        | Some err => Eprintf drop_error [VErr err]
        | None => mret tt
        end))%main.

(** Lines 89 to 99. *)
Definition warmup : mainM unit :=
  (Printf newline [] ;;
   Printf ("Running warmup" +:+ newline) [] ;;
   Printf ("--------------" +:+ newline) [] ;;
   main_range 0 (numLoops cfg)
     (fun i =>
        c <- get_conn i ;;
        r <- lift (run c i) ;;
        match snd r with
        | Some err => panic err
        | None => mret tt
        end))%main.

(** Lines 109 to 116: the connection of slot [i] is replaced. *)
Definition establishing (i : Z) : mainM unit :=
  (c <- get_conn i ;;
   err <- lift (on_conn c (fun h => call (ConnClose h))) ;;
   match err with
   | Some err => panic err
   | None =>
       r <- lift establishConnection ;;
       set_conn i (fst r) ;;
       match snd r with
       | Some err => panic err
       | None => mret tt
       end
   end)%main.

(** Lines 127 to 138: [conn := conns[j]] and the [go] statement. *)
Definition launch (i j : Z) : mainM unit :=
  (c <- get_conn j ;;
   lift (call (Go (WorkLoop c i))))%main.

(** Lines 118 to 141: the goroutines are started and awaited. *)
Definition running (i : Z) : mainM unit :=
  (lift (call (TachNew i (i + 1))) ;;
   lift (call (WgAdd i (i + 1))) ;;
   main_range 0 (i + 1) (launch i) ;;
   lift (call (WgWait i)))%main.

(** Lines 145 to 157: the step is printed. *)
Definition print_report (i : Z) (m : metrics) : mainM unit :=
  (Printf ("loop %v" +:+ newline) [VInt (i + 1)] ;;
   Printf ("-------" +:+ newline) [] ;;
   n <- lift (call (LoadNumErrors i)) ;;
   Printf ("num errors = %v" +:+ newline) [VInt n] ;;
   Printf newline [] ;;
   lift (call (Println [VMetricsString m])) ;;
   Printf newline [] ;;
   Printf newline [] ;;
   Eprintf csv_row
     [VInt (i + 1); VFloat (F64seconds (P50 m));
      VFloat (F64seconds (P75 m)); VFloat (F64seconds (P95 m))])%main.

(** Lines 143 to 157: the percentiles are computed and printed. *)
Definition reporting (i : Z) : mainM unit :=
  (m <- lift (call (TachCalc i)) ;;
   print_report i m)%main.

(** One iteration of the benchmark loop. *)
Definition ramp_step (i : Z) : mainM unit :=
  (establishing i ;; running i ;; reporting i)%main.

(** Lines 101 to 158. *)
Definition benchmark : mainM unit :=
  (Printf newline [] ;;
   Printf ("Running warmup" +:+ newline) [] ;;
   Printf ("Running benchmark" +:+ newline) [] ;;
   Printf ("-----------------" +:+ newline) [] ;;
   Eprintf csv_header [] ;;
   main_range 0 (numLoops cfg) ramp_step)%main.

(** Lines 160 to 163. *)
Definition close_database : mainM unit :=
  (err <- lift (call DbClose) ;;
   match err with
   | Some err => panic (Errorf "Error closing database: " err)
   | None => mret tt
   end)%main.

(** [main]: the deferred functions run last, the second before the first. *)
Definition main : prog (exit unit * slots) :=
  (open_database ;;
   establish_connections ;;
   defer close_connections
     (create_tables ;;
      defer drop_tables
        (warmup ;; benchmark ;; close_database)))%main [].

End Program.

(** ** All behaviours of a program

    [wp allowed Q p tr] holds when [p], started after the calls [tr], makes
    only calls accepted by [allowed], never panics, and satisfies [Q] with
    the calls made and the value returned, whatever the calls answer. *)
Fixpoint wp {R : Type} (allowed : forall X, event X -> bool)
    (Q : trace -> R -> Prop) (p : prog R) (tr : trace) : Prop :=
  match p with
  | Ret r => Q tr r
  | Panic _ => False
  | Vis e k => allowed _ e = true /\ forall x, wp allowed Q (k x) (tr ++ [Entry e x])
  end.

(** [wpx] is [wp] for a program that may panic: [Q] also judges the panic. *)
Fixpoint wpx {R : Type} (allowed : forall X, event X -> bool)
    (Q : trace -> exit R -> Prop) (p : prog R) (tr : trace) : Prop :=
  match p with
  | Ret r => Q tr (Done r)
  | Panic v => Q tr (Panicked v)
  | Vis e k => allowed _ e = true /\ forall x, wpx allowed Q (k x) (tr ++ [Entry e x])
  end.

(** A program that makes only calls accepted by [allowed]. *)
Definition harmless (allowed : forall X, event X -> bool) {R : Type} (p : prog R) : Prop :=
  forall tr, wpx allowed (fun _ _ => True) p tr.

(** A part of [main] that makes only calls accepted by [allowed]. *)
Definition quiet (allowed : forall X, event X -> bool) {R : Type} (m : mainM R) : Prop :=
  forall s tr, wp allowed (fun _ _ => True) (m s) tr.

(** The calls of a trace are accepted by [allowed]. *)
Definition accepted (allowed : forall X, event X -> bool) (en : entry) : Prop :=
  match en with
  | Entry e _ => allowed _ e = true
  end.

Definition any_event : forall X, event X -> bool := fun _ _ => true.

(** The calls that leave the process: everything but goroutines and the
    variables they share. *)
Definition external : forall X, event X -> bool :=
  fun _ e =>
    match e with
    | Go _ | WgAdd _ _ | WgDone _ | WgWait _ | AtomicAddInt32 _ _
    | LoadNumErrors _ | TachNew _ _ | TachAddTime _ _ | TachCalc _ => false
    | _ => true
    end.

(** The calls [establishConnection] makes. *)
Definition acquiring : forall X, event X -> bool :=
  fun _ e =>
    match e with
    | DbConn | RandFloat64 | Sleep _ => true
    | _ => false
    end.

(** What [establishConnection] has done when it returns [r] after the
    calls [tr]: it stopped at the first [db.Conn] that succeeded, at the
    latest the fifth, or it saw five failures and reports the last. *)
Definition established (tr : trace) (r : conn * option error) : Prop :=
  exists fails : list error,
    (exists h, attempts tr = (inl <$> fails) ++ [inr h] /\
               (length fails <= 4)%nat /\ r = (Some h, None))
    \/
    (exists err, attempts tr = (inl <$> fails) ++ [inl err] /\
                 length fails = 4%nat /\
                 r = (None, Some ("Error opening connection: " +:+ err))).

(** ** What [run] does *)

(** The calls [run] makes. *)
Definition working : forall X, event X -> bool :=
  fun _ e =>
    match e with
    | Now | BeginTx _ | UuidNewString | InsertReturningId _ _ _
    | SelectById _ _ _ | DeleteById _ _ _ | Commit _ => true
    | _ => false
    end.

(** The clock is read and the transaction begins. *)
Definition begun (tx : handle) (start : instant) : trace :=
  [Entry Now start; Entry (BeginTx tx) None].

(** One successful insert per row: a fresh name, then the statement that
    returns the identifier of the new row. *)
Definition insert_calls (tx : handle) (table : Z) (rows : list (string * Z)) : trace :=
  flat_map (fun row => [Entry UuidNewString (fst row);
                        Entry (InsertReturningId tx table (fst row)) (inr (snd row))])
           rows.

Definition select_calls (tx : handle) (table : Z) (ids : list Z) : trace :=
  (fun id => Entry (SelectById tx table id) None) <$> ids.

Definition delete_calls (tx : handle) (table : Z) (ids : list Z) : trace :=
  (fun id => Entry (DeleteById tx table id) None) <$> ids.

(** The calls of a complete [run] on transaction [tx] and table [table],
    and the value it returns: either all thirty statements and the commit
    succeed, or the first failing call ends the function with its error. *)
Inductive run_outcome (tx : handle) (table : Z) : trace -> duration * option error -> Prop :=
| run_committed start rows finish :
    length rows = 10%nat ->
    run_outcome tx table
      (begun tx start ++ insert_calls tx table rows ++
       select_calls tx table rows.*2 ++ delete_calls tx table rows.*2 ++
       [Entry (Commit tx) None; Entry Now finish])
      (time_sub finish start, None)
| run_begin_failed start err :
    run_outcome tx table
      [Entry Now start; Entry (BeginTx tx) (Some err)]
      (0, Some ("Error beginning transaction: " +:+ err))
| run_insert_failed start rows name err :
    (length rows < 10)%nat ->
    run_outcome tx table
      (begun tx start ++ insert_calls tx table rows ++
       [Entry UuidNewString name; Entry (InsertReturningId tx table name) (inl err)])
      (0, Some ("Error inserting row: " +:+ err))
| run_select_failed start rows k id err :
    length rows = 10%nat ->
    rows.*2 !! k = Some id ->
    run_outcome tx table
      (begun tx start ++ insert_calls tx table rows ++
       select_calls tx table (take k rows.*2) ++
       [Entry (SelectById tx table id) (Some err)])
      (0, Some ("Error selecting row: " +:+ err))
| run_delete_failed start rows k id err :
    length rows = 10%nat ->
    rows.*2 !! k = Some id ->
    run_outcome tx table
      (begun tx start ++ insert_calls tx table rows ++
       select_calls tx table rows.*2 ++ delete_calls tx table (take k rows.*2) ++
       [Entry (DeleteById tx table id) (Some err)])
      (0, Some ("Error deleting row: " +:+ err))
| run_commit_failed start rows err :
    length rows = 10%nat ->
    run_outcome tx table
      (begun tx start ++ insert_calls tx table rows ++
       select_calls tx table rows.*2 ++ delete_calls tx table rows.*2 ++
       [Entry (Commit tx) (Some err)])
      (0, Some ("Error committing transaction: " +:+ err)).

(** ** The percentile estimator *)

(** Modelled from the spec: the percentile estimator of package
    [tachymeter], which [main.go] imports and the sources do not contain.
    It is created for a number of observations and keeps the samples it has
    ingested. *)
Record estimator : Type := Estimator { capacity : Z; samples : list duration }.

(** Modelled from the spec: [new(capacity)] creates an estimator without
    samples ([tachymeter.New] with [Size]). *)
Definition tach_new (size : Z) : estimator := Estimator size [].

(** Modelled from the spec: [add(sample)] ingests one duration
    ([AddTime]). *)
Definition tach_add (t : estimator) (d : duration) : estimator :=
  Estimator (capacity t) (samples t ++ [d]).

(** Modelled from the spec: the 1-indexed ordinal position
    [ceil(pctl/100 * count)], clamped to [[1, count]]. *)
Definition ordinal (pctl count : Z) : Z :=
  Z.max 1 (Z.min count ((pctl * count + 99) / 100)).

(** Modelled from the spec: the samples are sorted ascending and the value
    at the ordinal position is picked; without samples the value is zero. *)
Definition percentile (pctl : Z) (l : list duration) : duration :=
  default 0 (merge_sort Z.le l !! Z.to_nat (ordinal pctl (Z.of_nat (length l)) - 1)).

(** Modelled from the spec: [compute()] returns the 50th, 75th and 95th
    percentiles ([Calc]). *)
Definition tach_calc (t : estimator) : metrics :=
  {| P50 := percentile 50 (samples t);
     P75 := percentile 75 (samples t);
     P95 := percentile 95 (samples t) |}.

(** Modelled from the spec: an estimator that has ingested the samples [l]
    one after the other. *)
Definition ingest (size : Z) (l : list duration) : estimator :=
  foldl tach_add (tach_new size) l.

(** ** Goroutines

    The machine runs the main goroutine and the goroutines it has started.
    A step lets one of them make its next call.  The calls on [wg],
    [numErrors], [t] and the monotonic clock act on the state below; every
    other call is answered by the collaborators. *)

Record shared : Type := Shared {
  wg : Z -> Z;                  (* the counter of the [sync.WaitGroup] of iteration [i] *)
  numErrors : Z -> Z;           (* [var numErrors int32] of iteration [i] *)
  tach : Z -> estimator;        (* the estimator [t] of iteration [i] *)
  clock : instant               (* the last reading of the monotonic clock *)
}.

Definition upd {A : Type} (f : Z -> A) (i : Z) (a : A) : Z -> A :=
  fun j => if j =? i then a else f j.

(** Two's complement wrap-around of [int32]. *)
Definition wrap32 (z : Z) : Z := (z + 2 ^ 31) mod 2 ^ 32 - 2 ^ 31.

Inductive effect (X : Type) : Type :=
| Stuck                              (* the call cannot complete now *)
| Throws (v : string)                (* the call panics *)
| Yields (x : X) (s : shared).       (* the call returns [x] *)
Arguments Stuck {X}.
Arguments Throws {X} v.
Arguments Yields {X} x s.

(** [wg.Add(delta)]. *)
Definition wg_add (s : shared) (i delta : Z) : effect unit :=
  if wg s i + delta <? 0
  then Throws "sync: negative WaitGroup counter"
  else Yields tt {| wg := upd (wg s) i (wg s i + delta); numErrors := numErrors s;
                    tach := tach s; clock := clock s |}.

(** The effect of a call in state [s]; [x] is the answer of the
    collaborators, used by the calls that are theirs to answer.  The clock
    never runs backwards, and [wg.Wait] returns once the counter is zero. *)
Definition perform {X : Type} (e : event X) (s : shared) : X -> effect X :=
  match e in event X return X -> effect X with
  | Now =>
      fun x =>
        if clock s <=? x
        then Yields x {| wg := wg s; numErrors := numErrors s; tach := tach s; clock := x |}
        else Stuck
  | WgAdd i delta => fun _ => wg_add s i delta
  | WgDone i => fun _ => wg_add s i (-1)
  | WgWait i => fun _ => if wg s i =? 0 then Yields tt s else Stuck
  | AtomicAddInt32 i delta =>
      fun _ =>
        let n := wrap32 (numErrors s i + delta) in
        Yields n {| wg := wg s; numErrors := upd (numErrors s) i n;
                    tach := tach s; clock := clock s |}
  | LoadNumErrors i => fun _ => Yields (numErrors s i) s
  | TachNew i size =>
      fun _ =>
        Yields tt {| wg := wg s; numErrors := numErrors s;
                     tach := upd (tach s) i (tach_new size); clock := clock s |}
  | TachAddTime i d =>
      fun _ =>
        Yields tt {| wg := wg s; numErrors := numErrors s;
                     tach := upd (tach s) i (tach_add (tach s i) d); clock := clock s |}
  | TachCalc i => fun _ => Yields (tach_calc (tach s i)) s
  | _ => fun x => Yields x s
  end.

(** The goroutines a call starts. *)
Definition spawned {X : Type} (e : event X) : list closure :=
  match e with
  | Go f => [f]
  | _ => []
  end.

(** The answers of the collaborators in one step. *)
Definition answers := forall X : Type, event X -> X.

(** The result of letting a goroutine make its next call. *)
Record advanced (R : Type) : Type := Advanced {
  a_code : prog R;
  a_log : trace;
  a_shared : shared;
  a_spawned : list closure;
  a_crashed : bool
}.
Arguments Advanced {R}.
Arguments a_code {R}.
Arguments a_log {R}.
Arguments a_shared {R}.
Arguments a_spawned {R}.
Arguments a_crashed {R}.

(** A goroutine that has returned makes no step; one whose panic has
    reached the top of its stack takes the process down. *)
Definition advance {R : Type} (a : answers) (s : shared) (p : prog R) : option (advanced R) :=
  match p with
  | Ret _ => None
  | Panic v => Some (Advanced (Panic v) [] s [] true)
  | Vis e k =>
      match perform e s (a _ e) with
      | Stuck => None
      | Throws v => Some (Advanced (Panic v) [] s [] false)
      | Yields x s' => Some (Advanced (k x) [Entry e x] s' (spawned e) false)
      end
  end.

Record goroutine : Type := Goroutine {
  g_fn : closure;               (* the function it was started with *)
  g_code : prog unit;           (* what it still has to do *)
  g_log : trace                 (* the calls it has made *)
}.

Record machine (R : Type) : Type := Machine {
  m_main : prog R;              (* what the main goroutine still has to do *)
  m_log : trace;                (* the calls the main goroutine has made *)
  m_pool : list goroutine;      (* the goroutines started so far *)
  m_shared : shared;
  m_crashed : bool
}.
Arguments Machine {R}.
Arguments m_main {R}.
Arguments m_log {R}.
Arguments m_pool {R}.
Arguments m_shared {R}.
Arguments m_crashed {R}.

Inductive tid : Type :=
| MainThread
| Spawned (k : nat).

Section Machine.

Variable cfg : config.

Definition start (f : closure) : goroutine :=
  {| g_fn := f; g_code := go_body cfg f; g_log := [] |}.

(** One step of goroutine [t] with the answers [a]. *)
Definition mstep_fun {R : Type} (t : tid) (a : answers) (m : machine R) : option (machine R) :=
  if m_crashed m then None
  else
    match t with
    | MainThread =>
        match advance a (m_shared m) (m_main m) with
        | Some r =>
            Some {| m_main := a_code r;
                    m_log := m_log m ++ a_log r;
                    m_pool := m_pool m ++ (start <$> a_spawned r);
                    m_shared := a_shared r;
                    m_crashed := a_crashed r |}
        | None => None
        end
    | Spawned k =>
        match m_pool m !! k with
        | Some g =>
            match advance a (m_shared m) (g_code g) with
            | Some r =>
                Some {| m_main := m_main m;
                        m_log := m_log m;
                        m_pool := <[k := {| g_fn := g_fn g; g_code := a_code r;
                                            g_log := g_log g ++ a_log r |}]> (m_pool m)
                                  ++ (start <$> a_spawned r);
                        m_shared := a_shared r;
                        m_crashed := a_crashed r |}
            | None => None
            end
        | None => None
        end
    end.

Definition mstep {R : Type} (m m' : machine R) : Prop :=
  exists t a, mstep_fun t a m = Some m'.

(** The states the machine can get to from [m]. *)
Definition reachable {R : Type} (m m' : machine R) : Prop := rtc mstep m m'.

(** The machine driven by a schedule: who steps, with which answers. *)
Fixpoint run_schedule {R : Type} (sch : list (tid * answers)) (m : machine R)
    : option (machine R) :=
  match sch with
  | [] => Some m
  | (t, a) :: sch' =>
      match mstep_fun t a m with
      | Some m' => run_schedule sch' m'
      | None => None
      end
  end.

End Machine.

(** ** Projections of a trace *)

(** The readings of the clock. *)
Definition now_of (en : entry) : list instant :=
  match en with
  | Entry e x =>
      match e in event X return X -> list instant with
      | Now => fun t => [t]
      | _ => fun _ => []
      end x
  end.
Definition nows (tr : trace) : list instant := flat_map now_of tr.

(** The percentiles computed, with the iteration they belong to. *)
Definition calc_of (en : entry) : list (Z * metrics) :=
  match en with
  | Entry e x =>
      match e in event X return X -> list (Z * metrics) with
      | TachCalc i => fun m => [(i, m)]
      | _ => fun _ => []
      end x
  end.
Definition calcs (tr : trace) : list (Z * metrics) := flat_map calc_of tr.

(** The goroutines started. *)
Definition go_of (en : entry) : list closure :=
  match en with
  | Entry e _ => spawned e
  end.
Definition gos (tr : trace) : list closure := flat_map go_of tr.

(** What has been written to standard error: format and arguments. *)
Definition stderr_of (en : entry) : list (string * list value) :=
  match en with
  | Entry e _ =>
      match e with
      | Fprintf Stderr format args => [(format, args)]
      | _ => []
      end
  end.
Definition stderr (tr : trace) : list (string * list value) := flat_map stderr_of tr.

(** The calls of the reporting part of a ramp step: computing the
    percentiles and writing to standard error. *)
Definition reports (en : entry) : bool :=
  match en with
  | Entry e _ =>
      match e with
      | TachCalc _ => true
      | Fprintf Stderr _ _ => true
      | _ => false
      end
  end.

(** The calls of [main] after [wg.Wait]. *)
Definition reading : forall X, event X -> bool :=
  fun _ e =>
    match e with
    | Fprintf _ _ _ | Println _ | LoadNumErrors _ => true
    | _ => false
    end.

(** ** A ramp step on the machine *)

(** What the goroutine of iteration [i] does after [run] has returned [r];
    [v] is the value [atomic.AddInt32] returned. *)
Definition record_log (i : Z) (r : duration * option error) (v : Z) : trace :=
  match r with
  | (_, Some err) =>
      [Entry (AtomicAddInt32 i 1) v; Entry (Fprintf Stderr work_loop_error [VErr err]) tt]
  | (elapsed, None) => [Entry (TachAddTime i elapsed) tt]
  end.

(** How far a goroutine of the step has got. *)
Inductive gstate : Type :=
| Working                                                     (* inside [run] *)
| Counted (tr : trace) (d : duration) (err : error)           (* the error is counted *)
| Recorded (tr : trace) (r : duration * option error)         (* about to call [wg.Done] *)
| Finished (tr : trace) (r : duration * option error).        (* returned *)

Definition errors_of (st : gstate) : Z :=
  match st with
  | Counted _ _ _ | Recorded _ (_, Some _) | Finished _ (_, Some _) => 1
  | _ => 0
  end.

Definition sample_of (st : gstate) : list duration :=
  match st with
  | Recorded _ (d, None) | Finished _ (d, None) => [d]
  | _ => []
  end.

Definition done_of (st : gstate) : Z :=
  match st with
  | Finished _ _ => 1
  | _ => 0
  end.

Definition tally (f : gstate -> Z) (sts : list gstate) : Z :=
  foldr (fun st acc => f st + acc) 0 sts.

Definition gathered (sts : list gstate) : list duration := flat_map sample_of sts.

(** How far the main goroutine has got in the step. *)
Inductive phase : Type :=
| Fresh                       (* before [tachymeter.New] *)
| Sized                       (* before [wg.Add] *)
| Launching (c : nat)         (* [c] goroutines still to start, then [wg.Wait] *)
| Reporting                   (* [wg.Wait] has returned *)
| Reported.                   (* [t.Calc] has returned *)

Section RampStep.

Variable cfg : config.
Variable i : Z.               (* the loop variable of the benchmark loop *)
Variable s : slots.           (* the slice [conns] *)
Variable hs : list handle.    (* the connections in the slots [0 .. i] *)

(** The step after [tachymeter.New]. *)
Definition sized : mainM unit :=
  ((lift (call (WgAdd i (i + 1))) ;;
    main_range 0 (i + 1) (launch i) ;;
    lift (call (WgWait i))) ;;
   reporting i)%main.

(** The step with [c] goroutines still to start, the next for slot [j]. *)
Definition launching (c : nat) (j : Z) : mainM unit :=
  ((main_loop c j (launch i) ;; lift (call (WgWait i))) ;; reporting i)%main.

(** The machine at the start of the measured part of iteration [i]. *)
Definition step_machine (sh : shared) : machine (exit unit * slots) :=
  {| m_main := (running i ;; reporting i)%main s; m_log := []; m_pool := [];
     m_shared := sh; m_crashed := false |}.

Definition g_inv (clk : instant) (st : gstate) (g : goroutine) : Prop :=
  exists h,
    g_fn g = WorkLoop (Some h) i /\
    match st with
    | Working =>
        StronglySorted Z.le (nows (g_log g)) /\
        Forall (fun t => t <= clk) (nows (g_log g)) /\
        exists p,
          g_code g = finally (r <- p ;; record i r) (call (WgDone i)) /\
          wp working (run_outcome h (Z.rem i (numTables cfg))) p (g_log g)
    | Counted tr d err =>
        run_outcome h (Z.rem i (numTables cfg)) tr (d, Some err) /\ 0 <= d /\
        g_code g = finally (call (Fprintf Stderr work_loop_error [VErr err]))
                           (call (WgDone i)) /\
        exists v, g_log g = tr ++ [Entry (AtomicAddInt32 i 1) v]
    | Recorded tr r =>
        run_outcome h (Z.rem i (numTables cfg)) tr r /\ 0 <= fst r /\
        g_code g = finally (Ret tt) (call (WgDone i)) /\
        exists v, g_log g = tr ++ record_log i r v
    | Finished tr r =>
        run_outcome h (Z.rem i (numTables cfg)) tr r /\ 0 <= fst r /\
        g_code g = Ret tt /\
        exists v, g_log g = tr ++ record_log i r v ++ [Entry (WgDone i) tt]
    end.

Definition is_finished (st : gstate) : Prop :=
  match st with
  | Finished _ _ => True
  | _ => False
  end.

Definition main_inv (ph : phase) (sts : list gstate) (m : machine (exit unit * slots)) : Prop :=
  match ph with
  | Fresh =>
      m_main m = (running i ;; reporting i)%main s /\ m_pool m = [] /\
      existsb reports (m_log m) = false /\
      wg (m_shared m) i = 0
  | Sized =>
      m_main m = sized s /\ m_pool m = [] /\
      existsb reports (m_log m) = false /\
      wg (m_shared m) i = 0
  | Launching c =>
      m_main m = launching c (Z.of_nat (length (m_pool m))) s /\
      (length (m_pool m) + c)%nat = Z.to_nat (i + 1) /\
      existsb reports (m_log m) = false /\
      wg (m_shared m) i = i + 1 - tally done_of sts
  | Reporting =>
      m_main m = reporting i s /\
      length (m_pool m) = Z.to_nat (i + 1) /\
      existsb reports (m_log m) = false /\
      Forall is_finished sts
  | Reported =>
      wp reading (fun _ _ => True) (m_main m) (m_log m) /\
      length (m_pool m) = Z.to_nat (i + 1) /\
      calcs (m_log m) = [(i, tach_calc (tach (m_shared m) i))] /\
      Forall is_finished sts
  end.

(** The invariant of the step. *)
Definition step_inv (m : machine (exit unit * slots)) : Prop :=
  m_crashed m = false /\
  exists ph sts,
    main_inv ph sts m /\
    Forall2 (g_inv (clock (m_shared m))) sts (m_pool m) /\
    g_fn <$> m_pool m = (fun h => WorkLoop (Some h) i) <$> take (length (m_pool m)) hs /\
    numErrors (m_shared m) i = wrap32 (tally errors_of sts) /\
    (ph = Fresh \/
     capacity (tach (m_shared m) i) = i + 1 /\
     samples (tach (m_shared m) i) ≡ₚ gathered sts).

End RampStep.

(** ** The invocations of a ramp step *)

(** An invocation of [run] that has returned: its calls and its result. *)
Record invocation : Type := Invocation {
  inv_calls : trace;
  inv_result : duration * option error
}.

Definition failed (o : invocation) : bool :=
  match snd (inv_result o) with
  | Some _ => true
  | None => false
  end.

(** The sample a successful invocation yields. *)
Definition elapsed_of (o : invocation) : list duration :=
  match inv_result o with
  | (d, None) => [d]
  | (_, Some _) => []
  end.

(** Goroutine [g] of iteration [i] has returned: it has called [run] on its
    connection, which behaved as [o] says, has then counted and logged the
    error or added the time, and has called [wg.Done] last. *)
Definition completed (cfg : config) (i : Z) (g : goroutine) (o : invocation) : Prop :=
  exists h v,
    g_fn g = WorkLoop (Some h) i /\
    run_outcome h (Z.rem i (numTables cfg)) (inv_calls o) (inv_result o) /\
    g_log g = inv_calls o ++ record_log i (inv_result o) v ++ [Entry (WgDone i) tt] /\
    g_code g = Ret tt.

Definition invocation_of (st : gstate) : invocation :=
  match st with
  | Finished tr r => Invocation tr r
  | _ => Invocation [] (0, None)
  end.

(** ** Collaborators to run the program with *)

(** Every call succeeds; the database hands out connection 0 and row 1,
    the clock stands still. *)
Definition fine : answers :=
  fun X e =>
    match e in event X return X with
    | SqlOpen _ _ => None
    | SetConnMaxLifetime _ => tt
    | SetMaxOpenConns _ => tt
    | SetMaxIdleConns _ => tt
    | DbConn => inr 0%nat
    | DbClose => None
    | ConnClose _ => None
    | CreateTable _ _ => None
    | DropTable _ _ => None
    | BeginTx _ => None
    | InsertReturningId _ _ _ => inr 1
    | SelectById _ _ _ => None
    | DeleteById _ _ _ => None
    | Commit _ => None
    | UuidNewString => "8c5e8b5a-1e0f-4c55-9a51-3d1c4c0e6a10"
    | Now => 0
    | RandFloat64 => F64bits 0
    | Sleep _ => tt
    | Fprintf _ _ _ => tt
    | Println _ => tt
    | Go _ => tt
    | WgAdd _ _ => tt
    | WgDone _ => tt
    | WgWait _ => tt
    | AtomicAddInt32 _ _ => 0
    | LoadNumErrors _ => 0
    | TachNew _ _ => tt
    | TachAddTime _ _ => tt
    | TachCalc _ => {| P50 := 0; P75 := 0; P95 := 0 |}
    end.

(** The answer [x] with the failure [msg] put in its place, for the calls
    that can fail. *)
Definition fail_with (msg : error) {X : Type} (e : event X) : X -> X :=
  match e in event X return X -> X with
  | SqlOpen _ _ | DbClose | ConnClose _ | CreateTable _ _ | DropTable _ _
  | BeginTx _ | SelectById _ _ _ | DeleteById _ _ _ | Commit _ => fun _ => Some msg
  | DbConn => fun _ => inl msg
  | InsertReturningId _ _ _ => fun _ => inl msg
  | _ => fun x => x
  end.

(** A healthy database: every call succeeds, each connection and each row
    is new, and the clock advances by a millisecond with every call. *)
Definition healthy : oracle :=
  fun X tr e =>
    match e in event X return X -> X with
    | DbConn => fun _ => inr (100 + length (attempts tr))%nat
    | InsertReturningId _ _ _ => fun _ => inr (Z.of_nat (length tr))
    | Now => fun _ => 1000000 * Z.of_nat (length tr)
    | _ => fun x => x
    end (fine X e).

(** The oracle [o], except that the calls numbered in [ns] fail. *)
Definition failing_at (ns : list nat) (o : oracle) : oracle :=
  fun X tr e =>
    if existsb (Nat.eqb (length tr)) ns
    then fail_with "connection reset by peer" e (o X tr e)
    else o X tr e.

(** The end-to-end scenario of the spec: three ramp steps on one table. *)
Definition small : config := {| numLoops := 3; numTables := 1 |}.

(** The variables shared by the goroutines before the first ramp step. *)
Definition fresh : shared :=
  {| wg := fun _ => 0; numErrors := fun _ => 0;
     tach := fun _ => tach_new 0; clock := 0 |}.

(** The answers [fine], except that transactions on connection [c] cannot
    begin. *)
Definition broken (c : handle) : answers :=
  fun X e =>
    match e in event X return X -> X with
    | BeginTx c' => fun x => if Nat.eqb c c' then Some "connection reset by peer" else x
    | _ => fun x => x
    end (fine X e).

(** The answers [fine] at time [t]. *)
Definition later (t : instant) : answers :=
  fun X e =>
    match e in event X return X -> X with
    | Now => fun _ => t
    | _ => fun x => x
    end (fine X e).

(** The slice [conns] of the scenario. *)
Definition three_conns : slots := [Some 10%nat; Some 11%nat; Some 12%nat].

(** A schedule of the second ramp step: the main goroutine starts both
    goroutines, these take turns, the second failing to begin its
    transaction, the first commits after seven milliseconds, and the main
    goroutine reports. *)
Definition two_goroutines : list (tid * answers) :=
  replicate 4 (MainThread, fine) ++
  flat_map (fun _ => [(Spawned 0, fine); (Spawned 1, broken 11)]) (seq 0 5) ++
  replicate 38 (Spawned 0, fine) ++
  replicate 3 (Spawned 0, later 7000000) ++
  replicate 11 (MainThread, fine).

(** The machine after that schedule. *)
Definition after_two_goroutines : machine (exit unit * slots) :=
  default (step_machine 1 three_conns fresh)
          (run_schedule small two_goroutines (step_machine 1 three_conns fresh)).

(** ** The output of [main] *)

(** The formats of the diagnostics written to standard error. *)
Definition is_diagnostic (format : string) : bool :=
  String.eqb format work_loop_error || String.eqb format close_error ||
  String.eqb format drop_error.

(** What standard error carries besides diagnostics. *)
Definition csv_lines (tr : trace) : list (string * list value) :=
  List.filter (fun line => negb (is_diagnostic (fst line))) (stderr tr).

(** The line of a ramp step: its connections and percentiles in seconds. *)
Definition row_of (c : Z * metrics) : string * list value :=
  (csv_row, [VInt (fst c + 1); VFloat (F64seconds (P50 (snd c)));
             VFloat (F64seconds (P75 (snd c))); VFloat (F64seconds (P95 (snd c)))]).

(** The connections closed. *)
Definition close_of (en : entry) : list handle :=
  match en with
  | Entry e _ =>
      match e with
      | ConnClose c => [c]
      | _ => []
      end
  end.
Definition closes (tr : trace) : list handle := flat_map close_of tr.

(** The tables the statements of [run] have named. *)
Definition table_of (en : entry) : list Z :=
  match en with
  | Entry e _ =>
      match e with
      | InsertReturningId _ t _ | SelectById _ t _ | DeleteById _ t _ => [t]
      | _ => []
      end
  end.
Definition tables_used (tr : trace) : list Z := flat_map table_of tr.

(** The errors of the calls of [run]. *)
Definition workload_error_of (en : entry) : list error :=
  match en with
  | Entry e x =>
      match e in event X return X -> list error with
      | BeginTx _ | SelectById _ _ _ | DeleteById _ _ _ | Commit _ =>
          fun r => match r with Some err => [err] | None => [] end
      | InsertReturningId _ _ _ =>
          fun r => match r with inl err => [err] | inr _ => [] end
      | _ => fun _ => []
      end x
  end.
Definition workload_errors (tr : trace) : list error := flat_map workload_error_of tr.



(** Calls that neither close nor acquire a connection. *)
Definition keeping : forall X, event X -> bool :=
  fun _ e =>
    match e with
    | ConnClose _ | DbConn => false
    | _ => true
    end.

(** A part of [main] that leaves the slice [conns] as it is. *)
Definition preserving {R : Type} (m : mainM R) : Prop :=
  forall s tr, wp any_event (fun _ r => snd r = s) (m s) tr.



(** The claim of the spec on the second stream, in its words: standard
    error carries the header once and after it one line for each ramp
    step, in the order of the steps, and nothing else. *)
Definition csv_only (cfg : config) (o : oracle) : Prop :=
  stderr (fst (interp o (main cfg) [])) =
    (csv_header, []) :: (row_of <$> calcs (fst (interp o (main cfg) []))) /\
  fst <$> calcs (fst (interp o (main cfg) [])) = seqZ 0 (numLoops cfg).

(** A database that refuses the first [k] calls of [db.Conn] and is
    healthy otherwise. *)
Definition refusing (k : nat) : oracle :=
  fun X tr e =>
    match e in event X return X -> X with
    | DbConn =>
        fun x => if (length (attempts tr) <? k)%nat
                 then inl "too many clients already"
                 else x
    | _ => fun x => x
    end (healthy X tr e).

(** The claim of the spec on the connections of a ramp step, in its words:
    at the start of the step every slot's connection is closed and
    reacquired, so that the handle of every slot changes from one step to
    the next. *)
Definition replaces_every_slot (o : oracle) (i : Z) (s : slots) : Prop :=
  forall (j : nat) (h : handle),
    s !! j = Some (Some h) ->
    In h (closes (fst (interp o (ramp_step i s) []))) /\
    exists s', snd (interp o (ramp_step i s) []) = Done (Done tt, s') /\
               s' !! j <> Some (Some h).

(** ** The calls of a trace, by kind *)

(** The connections [db.Conn] has handed out. *)
Definition acquire_of (en : entry) : list handle :=
  match en with
  | Entry e x =>
      match e in event X return X -> list handle with
      | DbConn => fun r => match r with inr h => [h] | inl _ => [] end
      | _ => fun _ => []
      end x
  end.
Definition acquired (tr : trace) : list handle := flat_map acquire_of tr.

(** The [CREATE TABLE] statements: the connection and the table. *)
Definition create_of (en : entry) : list (handle * Z) :=
  match en with
  | Entry e _ =>
      match e with
      | CreateTable c t => [(c, t)]
      | _ => []
      end
  end.
Definition creates (tr : trace) : list (handle * Z) := flat_map create_of tr.

(** The [DROP TABLE] statements: the connection and the table. *)
Definition drop_of (en : entry) : list (handle * Z) :=
  match en with
  | Entry e _ =>
      match e with
      | DropTable c t => [(c, t)]
      | _ => []
      end
  end.
Definition drops (tr : trace) : list (handle * Z) := flat_map drop_of tr.

(** The errors of the calls of one kind: [pick] selects the kind. *)
Definition failure_of (pick : forall X, event X -> bool) (en : entry) : list error :=
  match en with
  | Entry e x =>
      if pick _ e
      then match e in event X return X -> list error with
           | SqlOpen _ _ | DbClose | ConnClose _ | CreateTable _ _ | DropTable _ _
           | BeginTx _ | SelectById _ _ _ | DeleteById _ _ _ | Commit _ =>
               fun r => match r with Some err => [err] | None => [] end
           | DbConn => fun r => match r with inl err => [err] | inr _ => [] end
           | InsertReturningId _ _ _ =>
               fun r => match r with inl err => [err] | inr _ => [] end
           | _ => fun _ => []
           end x
      else []
  end.

Definition is_create : forall X, event X -> bool :=
  fun _ e => match e with CreateTable _ _ => true | _ => false end.
Definition is_drop : forall X, event X -> bool :=
  fun _ e => match e with DropTable _ _ => true | _ => false end.
Definition is_close : forall X, event X -> bool :=
  fun _ e => match e with ConnClose _ => true | _ => false end.

(** The errors of the [CREATE TABLE] statements, of the [DROP TABLE]
    statements and of the calls of [conn.Close]. *)
Definition create_failures (tr : trace) : list error := flat_map (failure_of is_create) tr.
Definition drop_failures (tr : trace) : list error := flat_map (failure_of is_drop) tr.
Definition close_failures (tr : trace) : list error := flat_map (failure_of is_close) tr.

(** The connections on which a transaction was begun. *)
Definition begin_of (en : entry) : list handle :=
  match en with
  | Entry e _ =>
      match e with
      | BeginTx c => [c]
      | _ => []
      end
  end.
Definition begins (tr : trace) : list handle := flat_map begin_of tr.

(** The results of [db.Close]. *)
Definition db_close_of (en : entry) : list (option error) :=
  match en with
  | Entry e x =>
      match e in event X return X -> list (option error) with
      | DbClose => fun r => [r]
      | _ => fun _ => []
      end x
  end.
Definition db_closes (tr : trace) : list (option error) := flat_map db_close_of tr.

(** The calls of [wg.Done], by iteration. *)
Definition done_call_of (en : entry) : list Z :=
  match en with
  | Entry e _ =>
      match e with
      | WgDone i => [i]
      | _ => []
      end
  end.
Definition dones (tr : trace) : list Z := flat_map done_call_of tr.

Definition is_statement : forall X, event X -> bool :=
  fun _ e =>
    match e with
    | InsertReturningId _ _ _ | SelectById _ _ _ | DeleteById _ _ _ => true
    | _ => false
    end.
Definition is_bracket : forall X, event X -> bool :=
  fun _ e => match e with BeginTx _ | Commit _ => true | _ => false end.

(** The errors of the statements of [run], and those of [BeginTx] and
    [Commit]. *)
Definition statement_failures (tr : trace) : list error :=
  flat_map (failure_of is_statement) tr.
Definition bracket_failures (tr : trace) : list error :=
  flat_map (failure_of is_bracket) tr.

(** ** Calls that do not return

    The method [Close] of a connection waits for the transactions begun
    on the connection: [BeginTx] takes the lock of the connection for reading
    and holds it until the transaction ends, and [Close] takes it for
    writing.  A transaction ends with [Commit], whatever [Commit] returns;
    the program has no other call that ends one, and [run] returns on a
    failed statement with the transaction open. *)

(** The transactions open on connection [h] after one more call, when [n]
    were open before it. *)
Definition tx_step (h : handle) (n : nat) (en : entry) : nat :=
  match en with
  | Entry e x =>
      match e in event X return X -> nat with
      | BeginTx c =>
          fun r => match r with
                   | None => if (c =? h)%nat then S n else n
                   | Some _ => n
                   end
      | Commit c => fun _ => if (c =? h)%nat then Nat.pred n else n
      | _ => fun _ => n
      end x
  end.

Definition open_after (h : handle) (n : nat) (tr : trace) : nat := foldl (tx_step h) n tr.

(** The transactions open on [h] after the calls [tr]. *)
Definition open_txs (h : handle) (tr : trace) : nat := open_after h 0 tr.

(** Every transaction begun in [ext] has ended in it. *)
Definition settled (ext : trace) : Prop := forall h n, open_after h n ext = n.

(** The calls [ext] leave one transaction open, on connection [a]. *)
Definition leaves_open (a : handle) (ext : trace) : Prop :=
  forall h n, open_after h n ext = if (a =? h)%nat then S n else n.

(** Every call but [BeginTx] and [Commit]. *)
Definition unbracketed : forall X, event X -> bool :=
  fun X e => negb (is_bracket X e).

(** The calls of a goroutine are not among those of the function that
    started it.  Whether a goroutine has left a transaction open on a
    connection is for the collaborators to say, given the calls made so
    far. *)
Definition holding := trace -> handle -> bool.

Definition goroutine_on (h : handle) (f : closure) : bool :=
  match f with
  | WorkLoop (Some c) _ => (c =? h)%nat
  | WorkLoop None _ => false
  end.

(** [Close] on [h] does not return after the calls [tr]: a transaction
    begun in [tr] is open on [h], or a goroutine started in [tr] on [h]
    holds one. *)
Definition waits (w : holding) (tr : trace) (h : handle) : bool :=
  (0 <? open_txs h tr)%nat || (existsb (goroutine_on h) (gos tr) && w tr h).

(** The connection the call [e] waits for, if it does not return. *)
Definition blocked (w : holding) (tr : trace) {X : Type} (e : event X) : option handle :=
  match e with
  | ConnClose h => if waits w tr h then Some h else None
  | _ => None
  end.

(** How a run ends: the program returns or panics, or it hangs in [Close]
    on the connection [h]. *)
Inductive ending (R : Type) : Type :=
| Ended (x : exit R)
| Hung (h : handle).
Arguments Ended {R} x.
Arguments Hung {R} h.

(** [exec o w p tr] runs [p] after the calls [tr] like [interp], except
    that it stops at a call that does not return: it yields the calls
    that have returned and how the run ends. *)
Fixpoint exec {R : Type} (o : oracle) (w : holding) (p : prog R) (tr : trace)
    : trace * ending R :=
  match p with
  | Ret r => (tr, Ended (Done r))
  | Panic v => (tr, Ended (Panicked v))
  | Vis e k =>
      match blocked w tr e with
      | Some h => (tr, Hung h)
      | None => let x := o _ tr e in exec o w (k x) (tr ++ [Entry e x])
      end
  end.

(** What becomes of a run that makes the calls [ext] after [tr] and ends
    with [r] when every call returns. *)
Fixpoint settle {R : Type} (w : holding) (tr ext : trace) (r : exit R)
    : trace * ending R :=
  match ext with
  | [] => (tr, Ended r)
  | Entry e x :: ext' =>
      match blocked w tr e with
      | Some h => (tr, Hung h)
      | None => settle w (tr ++ [Entry e x]) ext' r
      end
  end.

(** No goroutine holds a transaction. *)
Definition nothing_held : holding := fun _ _ => false.

(** Every goroutine has left its transaction open. *)
Definition all_held : holding := fun _ _ => true.

(** ** The rounds of [establishConnection] *)

(** A failed attempt followed by its backoff: the error of [db.Conn], the
    random numbers drawn, and the sleep for their sum, in seconds. *)
Definition backoff_round (r : error * list float64) : trace :=
  Entry DbConn (inl (fst r)) ::
  ((fun x => Entry RandFloat64 x) <$> snd r) ++
  [Entry (Sleep (F64mul (foldl F64add F64zero (snd r)) (F64pow 10 9))) tt].

(** ** The parts of a run of [main] *)

(** The calls of lines 24 to 42: opening the database and establishing
    the connections. *)
Definition connecting : forall X, event X -> bool :=
  fun _ e =>
    match e with
    | SqlOpen _ _ | SetConnMaxLifetime _ | SetMaxOpenConns _ | SetMaxIdleConns _
    | DbConn | RandFloat64 | Sleep _ | Fprintf Stdout _ _ => true
    | _ => false
    end.

(** The calls of lines 57 to 71. *)
Definition creating : forall X, event X -> bool :=
  fun _ e =>
    match e with
    | CreateTable _ _ | Fprintf Stdout _ _ => true
    | _ => false
    end.

(** The calls of lines 89 to 99. *)
Definition warming : forall X, event X -> bool :=
  fun _ e =>
    match e with
    | Now | BeginTx _ | UuidNewString | InsertReturningId _ _ _
    | SelectById _ _ _ | DeleteById _ _ _ | Commit _ | Fprintf Stdout _ _ => true
    | _ => false
    end.

(** The calls of lines 118 to 157: starting the goroutines, waiting and
    printing. *)
Definition measuring : forall X, event X -> bool :=
  fun _ e =>
    match e with
    | Go _ | WgAdd _ _ | WgWait _ | TachNew _ _ | TachCalc _ | LoadNumErrors _
    | Fprintf _ _ _ | Println _ => true
    | _ => false
    end.

(** The calls of lines 143 to 157: computing and printing. *)
Definition printing : forall X, event X -> bool :=
  fun _ e =>
    match e with
    | TachCalc _ | LoadNumErrors _ | Fprintf _ _ _ | Println _ => true
    | _ => false
    end.

(** The calls of lines 101 to 158, the benchmark loop. *)
Definition ramping : forall X, event X -> bool :=
  fun _ e =>
    match e with
    | ConnClose _ | DbConn | RandFloat64 | Sleep _ => true
    | _ => measuring _ e
    end.

(** The calls of the deferred functions, lines 73 to 87 and 44 to 55. *)
Definition dropping : forall X, event X -> bool :=
  fun _ e =>
    match e with
    | DropTable _ _ | Fprintf _ _ _ => true
    | _ => false
    end.

Definition closing : forall X, event X -> bool :=
  fun _ e =>
    match e with
    | ConnClose _ | Fprintf _ _ _ => true
    | _ => false
    end.

(** ** The connections open at a time *)

(** The change a call makes to the number of open connections: one more
    when [db.Conn] hands out a connection, one less when [Close] returns
    no error. *)
Definition pool_change (en : entry) : Z :=
  match en with
  | Entry e x =>
      match e in event X return X -> Z with
      | DbConn => fun r => match r with inr _ => 1 | inl _ => 0 end
      | ConnClose _ => fun r => match r with None => -1 | Some _ => 0 end
      | _ => fun _ => 0
      end x
  end.

(** The number of open connections after the calls [tr], when [lvl] were
    open before them. *)
Definition pool_level (lvl : Z) (tr : trace) : Z :=
  foldl (fun l en => l + pool_change en) lvl tr.

(** The largest number of connections open at a time during [tr]. *)
Fixpoint pool_peak (lvl : Z) (tr : trace) : Z :=
  match tr with
  | [] => lvl
  | en :: tr' => Z.max lvl (pool_peak (lvl + pool_change en) tr')
  end.

(** Calls during which never more connections are open than before them. *)
Definition steady (ext : trace) : Prop := forall lvl, pool_peak lvl ext <= lvl.

(** Every call but [db.Conn]. *)
Definition releasing : forall X, event X -> bool :=
  fun _ e =>
    match e with
    | DbConn => false
    | _ => true
    end.

(** The goroutines started by the first [k] ramp steps when [B] are the
    connections acquired in the benchmark loop: step [j] starts one for
    each of the first [j + 1]. *)
Definition started (B : list handle) (k : nat) : list closure :=
  flat_map (fun j => (fun h => WorkLoop (Some h) (Z.of_nat j)) <$> take (S j) B) (seq 0 k).

(** The texts [run] puts before the error of the call that failed. *)
Definition run_prefixes : list string :=
  ["Error beginning transaction: "; "Error inserting row: "; "Error selecting row: ";
   "Error deleting row: "; "Error committing transaction: "].

Definition bracket_prefixes : list string :=
  ["Error beginning transaction: "; "Error committing transaction: "].
Definition statement_prefixes : list string :=
  ["Error inserting row: "; "Error selecting row: "; "Error deleting row: "].

Definition makeslice_out_of_range : string := "runtime error: makeslice: len out of range".

(** The last call of [db.Conn], if there is one, has handed out a
    connection. *)
Definition last_acquired (ext : trace) : Prop :=
  forall err, last (attempts ext) <> Some (inl err).

Section Outcome.

Variable cfg : config.

(** The connections [A] are established: lines 24 to 42 have returned. *)
Definition connected (A : list handle) (pre : trace) : Prop :=
  Forall (accepted connecting) pre /\ acquired pre = A /\
  Z.of_nat (length A) = numLoops cfg /\ last_acquired pre.

(** Table [i] is created on the connection of slot [i], for every table. *)
Definition created (A : list handle) (cr : trace) : Prop :=
  Forall (accepted creating) cr /\
  creates cr = zip A (seqZ 0 (numTables cfg)) /\ create_failures cr = [] /\
  numTables cfg <= numLoops cfg.

(** Every slot has run one transaction, slot [i] as worker [i]. *)
Definition warmed (A : list handle) (wu : trace) : Prop :=
  Forall (accepted warming) wu /\
  begins wu = A /\ workload_errors wu = [] /\
  tables_used wu =
    flat_map (fun i => replicate 30 (Z.rem i (numTables cfg))) (seqZ 0 (numLoops cfg)) /\
  (numTables cfg = 0 -> numLoops cfg = 0) /\ settled wu.

(** The warm-up has stopped at a call of [run] that returned an error made
    of [prefix] and [err]: [BeginTx] or [Commit] failed and no transaction
    is open, or a statement failed and the transaction of that call is
    open on its connection. *)
Definition warmup_stopped (A : list handle) (wu : trace) (prefix : string) (err : error)
    : Prop :=
  (In prefix bracket_prefixes /\ bracket_failures wu = [err] /\
   statement_failures wu = [] /\ settled wu) \/
  (In prefix statement_prefixes /\ statement_failures wu = [err] /\
   bracket_failures wu = [] /\
   exists a, In a A /\ last (begins wu) = Some a /\ leaves_open a wu).

(** The benchmark loop has closed the connections [A], one per step, and
    put the connections [B] in their place. *)
Definition ramped (A B : list handle) (bm : trace) : Prop :=
  Forall (accepted ramping) bm /\ length B = length A /\
  acquired bm = B /\ closes bm = A /\ close_failures bm = [] /\
  gos bm = started B (length B) /\ last_acquired bm.

(** The benchmark loop has put the connections [B] in the place of the
    first of [A], and closed the next of [A] in the step that failed. *)
Definition ramp_failed (A B : list handle) (bm : trace) : Prop :=
  Forall (accepted ramping) bm /\ steady bm /\ (length B < length A)%nat /\
  acquired bm = B /\ closes bm = take (S (length B)) A.

(** The second deferred function has run on the connections [hs]. *)
Definition dropped (hs : list handle) (dr : trace) : Prop :=
  Forall (accepted dropping) dr /\ drops dr = zip hs (seqZ 0 (numTables cfg)).

(** The first deferred function has run on the connections [hs]. *)
Definition closed (hs : list handle) (cl : trace) : Prop :=
  Forall (accepted closing) cl /\ closes cl = hs.

(** The runs of [main]: its calls, how it ends and the slice it leaves. *)
Inductive main_outcome : trace -> exit unit * slots -> Prop :=
| main_open_failed err :
    main_outcome [Entry (SqlOpen "postgres" connStr) (Some err)]
      (Panicked ("Error opening database: " +:+ err), [])
| main_unconnected pre v s :
    Forall (accepted connecting) pre ->
    (numLoops cfg < 0 /\ v = makeslice_out_of_range /\ acquired pre = []) \/
    (exists err, Z.of_nat (length (acquired pre)) < numLoops cfg /\
                 v = "Error establishing connections: " +:+
                     ("Error opening connection: " +:+ err)) ->
    main_outcome pre (Panicked v, s)
| main_create_failed A pre cr cl v :
    connected A pre ->
    Forall (accepted creating) cr ->
    (create_failures cr = [] /\ v = index_out_of_range /\
     numLoops cfg < numTables cfg) \/
    (exists err, create_failures cr = [err] /\ v = "Error creating table: " +:+ err) ->
    closed A cl ->
    main_outcome (pre ++ cr ++ cl) (Panicked v, Some <$> A)
| main_warmup_failed A pre cr wu dr cl v :
    connected A pre -> created A cr ->
    Forall (accepted warming) wu ->
    (workload_errors wu = [] /\ v = divide_by_zero /\ numTables cfg = 0 /\ settled wu) \/
    (exists prefix err, workload_errors wu = [err] /\ v = prefix +:+ err /\
                        In prefix run_prefixes /\ warmup_stopped A wu prefix err) ->
    dropped A dr -> closed A cl ->
    main_outcome (pre ++ cr ++ wu ++ dr ++ cl) (Panicked v, Some <$> A)
| main_close_failed A B pre cr wu bm dr cl err :
    connected A pre -> created A cr -> warmed A wu ->
    ramp_failed A B bm ->
    close_failures bm = [err] -> last_acquired bm ->
    dropped (B ++ drop (length B) A) dr -> closed (B ++ drop (length B) A) cl ->
    main_outcome (pre ++ cr ++ wu ++ bm ++ dr ++ cl)
      (Panicked err, Some <$> (B ++ drop (length B) A))
| main_reestablish_failed A B pre cr wu bm dr cl cause :
    connected A pre -> created A cr -> warmed A wu ->
    ramp_failed A B bm ->
    close_failures bm = [] -> last (attempts bm) = Some (inl cause) ->
    dropped B dr -> closed B cl ->
    main_outcome (pre ++ cr ++ wu ++ bm ++ dr ++ cl)
      (Panicked nil_dereference,
       (Some <$> B) ++ None :: (Some <$> drop (S (length B)) A))
| main_finished A B pre cr wu bm x dr cl :
    connected A pre -> created A cr -> warmed A wu ->
    ramped A B bm -> steady bm ->
    dropped B dr -> closed B cl ->
    main_outcome (pre ++ cr ++ wu ++ bm ++ [Entry DbClose x] ++ dr ++ cl)
      (match x with
       | None => Done tt
       | Some err => Panicked ("Error closing database: " +:+ err)
       end, Some <$> B).

End Outcome.

(** Whatever its calls answer, [p] returns and the function it is the
    body of does not end in a panic. *)
Fixpoint returns {R : Type} (p : prog (exit R * slots)) : Prop :=
  match p with
  | Ret (Done _, _) => True
  | Ret (Panicked _, _) => False
  | Panic _ => False
  | Vis e k => forall x, returns (k x)
  end.

(** ** The work of a ramp step *)

(** [p] makes at most [n] calls, where a [go] statement counts for the
    [G] calls of the goroutine it starts as well. *)
Fixpoint bounded {R : Type} (G : nat) (p : prog R) (n : nat) : Prop :=
  match p with
  | Ret _ | Panic _ => True
  | Vis e k =>
      match n with
      | O => False
      | S n' =>
          (length (spawned e) * G <= n')%nat /\
          forall x, bounded G (k x) (n' - length (spawned e) * G)
      end
  end.

(** The machine has at most [B] steps left: one to crash, and the calls
    of its goroutines. *)
Definition budget {R : Type} (G : nat) (m : machine R) (B : nat) : Prop :=
  m_crashed m = true \/
  exists (bm : nat) (bs : list nat),
    bounded G (m_main m) bm /\
    Forall2 (fun g b => bounded G (g_code g) b) (m_pool m) bs /\
    (1 + bm + sum_list bs <= B)%nat.

(** The calls of a goroutine of the benchmark loop: 44 of [run], two to
    count and log an error, and [wg.Done]. *)
Definition goroutine_calls : nat := 47.

(** The slice of the scenario after the connection of slot 1 could not be
    established again. *)
Definition one_nil : slots := [Some 10%nat; None; Some 12%nat].

(** The connections of the scenario. *)
Definition three_handles : list handle := [10%nat; 11%nat; 12%nat].

(** A database that hands out [k] connections and refuses every later
    call of [db.Conn]. *)
Definition exhausted (k : nat) : oracle :=
  fun X tr e =>
    match e in event X return X -> X with
    | DbConn =>
        fun x => if (k <=? length (acquired tr))%nat
                 then inl "too many clients already"
                 else x
    | _ => fun x => x
    end (healthy X tr e).

(** A pool that hands out again the connection closed last. *)
Definition recycling : oracle :=
  fun X tr e =>
    match e in event X return X -> X with
    | DbConn => fun x => match last (closes tr) with
                         | Some h => inr h
                         | None => x
                         end
    | _ => fun x => x
    end (healthy X tr e).

(** * Properties *)

(** ** The rules of [wp] *)

Lemma wp_mono {R : Type} allowed (Q Q' : trace -> R -> Prop) (p : prog R) :
  (forall tr r, Q tr r -> Q' tr r) ->
  forall tr, wp allowed Q p tr -> wp allowed Q' p tr.
Proof.
  intros HQ. induction p as [r | v | X e k IH]; simpl; intros tr H.
  - auto.
  - exact H.
  - destruct H as [Ha Hk]. split; [exact Ha | intros x; apply IH, Hk].
Qed.

Lemma wp_bind {A B : Type} allowed (Q : trace -> B -> Prop) (p : prog A) (f : A -> prog B) :
  forall tr, wp allowed (fun tr' a => wp allowed Q (f a) tr') p tr ->
             wp allowed Q (bind p f) tr.
Proof.
  induction p as [r | v | X e k IH]; simpl; intros tr H.
  - exact H.
  - exact H.
  - destruct H as [Ha Hk]. split; [exact Ha | intros x; apply IH, Hk].
Qed.

Lemma wp_call {X : Type} allowed (Q : trace -> X -> Prop) (e : event X) tr :
  allowed _ e = true ->
  (forall x, Q (tr ++ [Entry e x]) x) ->
  wp allowed Q (call e) tr.
Proof. intros Ha HQ. simpl. split; [exact Ha | exact HQ]. Qed.

Lemma wp_any {R : Type} allowed (Q : trace -> R -> Prop) (p : prog R) tr :
  wp allowed Q p tr -> wp any_event Q p tr.
Proof.
  revert tr. induction p as [r | v | X e k IH]; simpl; intros tr H; auto.
  destruct H as [_ Hk]. split; [reflexivity | intros x; apply IH, Hk].
Qed.

Lemma wp_for_loop {S R : Type} allowed
    (I : nat -> Z -> S -> trace -> Prop) (Q : trace -> S + R -> Prop)
    (body : Z -> S -> prog (S + R)) :
  (forall n i s tr, I (Datatypes.S n) i s tr ->
     wp allowed (fun tr' r => match r with
                              | inl s' => I n (i + 1) s' tr'
                              | inr v => Q tr' (inr v)
                              end) (body i s) tr) ->
  (forall i s tr, I O i s tr -> Q tr (inl s)) ->
  forall n i s tr, I n i s tr -> wp allowed Q (for_loop n i body s) tr.
Proof.
  intros Hbody Hend. induction n as [| n IH]; intros i s tr HI; simpl.
  - apply Hend with i. exact HI.
  - apply wp_bind. eapply wp_mono; [| apply Hbody, HI].
    intros tr' [s' | v] H; simpl; [apply IH, H | exact H].
Qed.

(** A program that satisfies [wp] returns under every oracle. *)
Lemma wp_interp {R : Type} allowed (Q : trace -> R -> Prop) (o : oracle) (p : prog R) :
  forall tr, wp allowed Q p tr ->
    exists r, snd (interp o p tr) = Done r /\ Q (fst (interp o p tr)) r.
Proof.
  induction p as [r | v | X e k IH]; simpl; intros tr H.
  - exists r. auto.
  - destruct H.
  - destruct H as [_ Hk]. apply IH, Hk.
Qed.

Lemma for_loop_O {S R : Type} (i : Z) (body : Z -> S -> prog (S + R)) (s : S) :
  for_loop O i body s = Ret (inl s).
Proof. reflexivity. Qed.

Lemma for_loop_S {S R : Type} (n : nat) (i : Z) (body : Z -> S -> prog (S + R)) (s : S) :
  for_loop (Datatypes.S n) i body s =
  (r <- body i s ;;
   match r with
   | inl s' => for_loop n (i + 1) body s'
   | inr v => Ret (inr v)
   end)%prog.
Proof. reflexivity. Qed.

(** From here on a loop is unrolled by its rules only. *)
#[local] Opaque for_loop.

Lemma attempts_app (tr tr' : trace) : attempts (tr ++ tr') = attempts tr ++ attempts tr'.
Proof. unfold attempts. apply flat_map_app. Qed.

(** ** [establishConnection] *)

Lemma backoff_wp (n : nat) (j : Z) (x : float64) (tr0 : trace) :
  wp acquiring
     (fun tr r => exists ext, tr = tr0 ++ ext /\ attempts ext = [] /\
                              exists s, r = inl s)
     (for_loop (R := Empty_set) n j
        (fun _ sleepTime => y <- call RandFloat64 ;; Ret (inl (F64add sleepTime y))) x)
     tr0.
Proof.
  apply wp_for_loop
    with (I := fun _ _ _ tr => exists ext, tr = tr0 ++ ext /\ attempts ext = []).
  - intros m k s tr (ext & -> & Hext). simpl. split; [reflexivity |].
    intros y. exists (ext ++ [Entry RandFloat64 y]).
    rewrite app_assoc, attempts_app, Hext. auto.
  - intros k s tr (ext & -> & Hext). exists ext. eauto.
  - exists []. rewrite app_nil_r. auto.
Qed.

Lemma establishConnection_wp (tr0 : trace) :
  wp acquiring (fun tr r => exists ext, tr = tr0 ++ ext /\ established ext r)
     establishConnection tr0.
Proof.
  unfold establishConnection, for_range. apply wp_bind.
  apply wp_for_loop
    with (I := fun n i (_ : unit) tr =>
                 (0 < n)%nat /\ i = connRetries - Z.of_nat n /\
                 exists ext fails, tr = tr0 ++ ext /\
                   attempts ext = inl <$> fails /\ Z.of_nat (length fails) = i).
  - intros n i [] tr (_ & Hi & ext & fails & -> & Hatt & Hlen).
    simpl. split; [reflexivity |]. intros [err | h]; simpl.
    + destruct (i =? connRetries - 1) eqn:Hlast; simpl.
      * exists (ext ++ [Entry DbConn (inl err)]). split; [by rewrite app_assoc |].
        exists fails. right. exists err.
        rewrite attempts_app, Hatt. simpl.
        apply Z.eqb_eq in Hlast. unfold connRetries in *. repeat split; [lia].
      * apply Z.eqb_neq in Hlast. apply wp_bind. unfold for_range.
        eapply wp_mono; [| apply backoff_wp].
        intros tr' r (ext' & -> & Hext' & s & ->). simpl.
        split; [reflexivity |]. intros [].
        split; [unfold connRetries in *; lia |]. split; [lia |].
        exists (ext ++ [Entry DbConn (inl err)] ++ ext' ++
                [Entry (Sleep (F64mul s (F64pow 10 9))) ()]), (fails ++ [err]).
        repeat split.
        -- by rewrite !app_assoc.
        -- rewrite !attempts_app, Hatt, Hext', fmap_app. reflexivity.
        -- rewrite length_app. simpl. lia.
    + exists (ext ++ [Entry DbConn (inr h)]). split; [by rewrite app_assoc |].
      exists fails. left. exists h.
      rewrite attempts_app, Hatt. simpl.
      unfold connRetries in *. repeat split; [lia].
  - intros i [] tr (Hn & _). lia.
  - split; [unfold connRetries; lia |]. split; [unfold connRetries; lia |].
    exists [], []. rewrite app_nil_r. auto.
Qed.

(** C7: connection acquisition makes at most five attempts, returns the
    connection of the first attempt that succeeds, and after five failed
    attempts returns an error that names the cause of the last one. *)
Theorem establishConnection_bounded_retry (o : oracle) (tr0 : trace) :
  exists ext r,
    interp o establishConnection tr0 = (tr0 ++ ext, Done r) /\ established ext r.
Proof.
  destruct (wp_interp _ _ o _ _ (establishConnection_wp tr0)) as (r & Hr & ext & Hext & H).
  exists ext, r. split; [| exact H].
  rewrite (surjective_pairing (interp o establishConnection tr0)). by rewrite Hr, Hext.
Qed.

(** C9: every iteration of the retry loop of [establishConnection] returns
    a connection or, in the fifth, an error; the function returns after one
    to five calls of [db.Conn] and never reaches [panic("Unreachable")]. *)
Theorem establishConnection_never_panics (o : oracle) (tr0 : trace) :
  (exists r, snd (interp o establishConnection tr0) = Done r) /\
  (1 <= length (attempts (drop (length tr0) (fst (interp o establishConnection tr0)))) <= 5)%nat.
Proof.
  destruct (wp_interp _ _ o _ _ (establishConnection_wp tr0)) as (r & Hr & ext & Hext & H).
  split; [eauto |]. rewrite Hext, drop_app_length.
  destruct H as (fails & [(h & -> & Hlen & _) | (err & -> & Hlen & _)]);
    rewrite length_app, length_fmap; simpl; lia.
Qed.

(** ** [run] *)

Lemma wp_frame {R : Type} allowed (Q : trace -> R -> Prop) (p : prog R) (tr0 : trace) :
  forall tr, wp allowed Q p tr ->
    wp allowed (fun tr' r => exists ext, tr' = tr0 ++ ext /\ Q ext r) p (tr0 ++ tr).
Proof.
  induction p as [r | v | X e k IH]; simpl; intros tr H.
  - eauto.
  - exact H.
  - destruct H as [Ha Hk]. split; [exact Ha |].
    intros x. rewrite <- app_assoc. apply IH, Hk.
Qed.

Lemma index_lookup {A : Type} (l : list A) (i : nat) (a : A) :
  l !! i = Some a -> index l (Z.of_nat i) = Ret a.
Proof.
  intros Hl. unfold index.
  destruct (Z.of_nat i <? 0) eqn:Hneg; [apply Z.ltb_lt in Hneg; lia |].
  by rewrite Nat2Z.id, Hl.
Qed.

Lemma wp_index {A : Type} allowed (Q : trace -> A -> Prop) (l : list A) (i : nat) (a : A) tr :
  l !! i = Some a -> Q tr a -> wp allowed Q (index l (Z.of_nat i)) tr.
Proof.
  intros Hl HQ. unfold index.
  destruct (Z.of_nat i <? 0) eqn:Hneg; [apply Z.ltb_lt in Hneg; lia |].
  rewrite Nat2Z.id, Hl. exact HQ.
Qed.

Lemma insert_calls_snoc tx table rows name id :
  insert_calls tx table (rows ++ [(name, id)]) =
  insert_calls tx table rows ++
  [Entry UuidNewString name; Entry (InsertReturningId tx table name) (inr id)].
Proof. unfold insert_calls. rewrite flat_map_app. reflexivity. Qed.

Section RunFacts.

Variable cfg : config.
Hypothesis tables : numTables cfg <> 0.

Lemma run_wp (tx : handle) (workerNum : Z) :
  wp working (run_outcome tx (Z.rem workerNum (numTables cfg)))
     (run cfg (Some tx) workerNum) [].
Proof.
  unfold run. destruct (numTables cfg =? 0) eqn:E; [by apply Z.eqb_eq in E |].
  set (t := Z.rem workerNum (numTables cfg)).
  simpl. split; [done |]. intros start. split; [done |]. intros [err |].
  { apply run_begin_failed. }
  apply wp_bind. unfold for_range. change (Z.to_nat (10 - 0)) with 10%nat.
  apply wp_for_loop
    with (I := fun n i ids tr =>
                 i = 10 - Z.of_nat n /\
                 exists rows, Z.of_nat (length rows) = i /\
                   tr = begun tx start ++ insert_calls tx t rows /\
                   ids = rows.*2 ++ replicate n 0).
  - intros n i ids tr (Hi & rows & Hlen & -> & ->).
    simpl. split; [done |]. intros name. split; [done |]. intros [err | id]; simpl.
    + rewrite <- !app_assoc. apply (run_insert_failed tx t start rows name err). lia.
    + split; [lia |]. exists (rows ++ [(name, id)]). split; [rewrite length_app; simpl; lia |].
      split.
      * rewrite insert_calls_snoc, <- !app_assoc. reflexivity.
      * rewrite fmap_app, <- app_assoc. simpl.
        rewrite insert_app_r_alt by (rewrite length_fmap; lia).
        replace (Z.to_nat i - length rows.*2)%nat with 0%nat
          by (rewrite length_fmap; lia).
        reflexivity.
  - intros i ids tr (Hi & rows & Hlen & -> & ->). simpl. rewrite app_nil_r.
    assert (Hrows : length rows = 10%nat) by lia. clear Hi Hlen i.
    apply wp_bind.
    apply wp_for_loop
      with (I := fun n i (_ : unit) tr =>
                   exists k, i = Z.of_nat k /\ (k + n = 10)%nat /\
                     tr = begun tx start ++ insert_calls tx t rows ++
                          select_calls tx t (take k rows.*2)).
    + intros n i [] tr (k & -> & Hk & ->).
      destruct (lookup_lt_is_Some_2 rows.*2 k) as [id Hid];
        [rewrite length_fmap; lia |].
      apply wp_bind. apply wp_index with id; [exact Hid |].
      simpl. split; [done |]. intros [err |]; simpl.
      * rewrite <- !app_assoc. by apply (run_select_failed tx t start rows k id err).
      * exists (S k). split; [lia |]. split; [lia |].
        rewrite (take_S_r _ _ _ Hid). unfold select_calls.
        rewrite fmap_app, <- !app_assoc. reflexivity.
    + intros i [] tr (k & -> & Hk & ->). simpl.
      rewrite take_ge by (rewrite length_fmap; lia).
      apply wp_bind.
      apply wp_for_loop
        with (I := fun n i (_ : unit) tr =>
                     exists k, i = Z.of_nat k /\ (k + n = 10)%nat /\
                       tr = begun tx start ++ insert_calls tx t rows ++
                            select_calls tx t rows.*2 ++
                            delete_calls tx t (take k rows.*2)).
      * intros n i [] tr (j & -> & Hj & ->).
        destruct (lookup_lt_is_Some_2 rows.*2 j) as [id Hid];
          [rewrite length_fmap; lia |].
        apply wp_bind. apply wp_index with id; [exact Hid |].
        simpl. split; [done |]. intros [err |]; simpl.
        -- rewrite <- !app_assoc. by apply (run_delete_failed tx t start rows j id err).
        -- exists (S j). split; [lia |]. split; [lia |].
           rewrite (take_S_r _ _ _ Hid). unfold delete_calls.
           rewrite fmap_app, <- !app_assoc. reflexivity.
      * intros i [] tr (j & -> & Hj & ->). simpl.
        rewrite take_ge by (rewrite length_fmap; lia).
        split; [done |]. intros [err |]; simpl.
        -- rewrite <- !app_assoc. by apply (run_commit_failed tx t start rows err).
        -- split; [done |]. intros finish. rewrite <- !app_assoc.
           by apply (run_committed tx t start rows finish).
      * exists 0%nat. split; [done |]. split; [done |].
        by rewrite take_0, app_nil_r.
    + exists 0%nat. split; [done |]. split; [done |].
      by rewrite take_0, !app_nil_r.
  - split; [done |]. exists []. by split.
Qed.

(** C6: on a live connection [run] begins a transaction, inserts ten
    rows with generated names and keeps their identifiers, looks each of
    them up, deletes each of them and commits; it then returns the time
    elapsed and no error.  The first call that fails ends it with zero and
    an error whose text names the phase: beginning or committing the
    transaction, inserting, selecting or deleting a row. *)
Theorem run_transaction (o : oracle) (tx : handle) (workerNum : Z) (tr0 : trace) :
  exists ext r,
    interp o (run cfg (Some tx) workerNum) tr0 = (tr0 ++ ext, Done r) /\
    run_outcome tx (Z.rem workerNum (numTables cfg)) ext r.
Proof.
  pose proof (wp_frame _ _ _ tr0 _ (run_wp tx workerNum)) as H.
  rewrite app_nil_r in H.
  destruct (wp_interp _ _ o _ _ H) as (r & Hr & ext & Hext & Hout).
  exists ext, r. split; [| exact Hout].
  rewrite (surjective_pairing (interp o (run cfg (Some tx) workerNum) tr0)).
  by rewrite Hr, Hext.
Qed.

End RunFacts.

(** ** The percentile estimator *)

Lemma StronglySorted_lookup_le (l : list Z) (i j : nat) (a b : Z) :
  StronglySorted Z.le l -> l !! i = Some a -> l !! j = Some b -> (i <= j)%nat -> a <= b.
Proof.
  intros Hs. revert i j. induction Hs as [| x l Hs IH Hx]; intros i j Hi Hj Hij.
  - by rewrite lookup_nil in Hi.
  - destruct i as [| i], j as [| j]; simpl in *.
    + assert (a = b) by congruence. lia.
    + injection Hi as <-. rewrite Forall_forall in Hx. apply Hx.
      apply list_elem_of_lookup. eauto.
    + lia.
    + apply (IH i j); auto with lia.
Qed.

Lemma samples_ingest (size : Z) (l : list duration) : samples (ingest size l) = l.
Proof.
  unfold ingest. change l with (samples (tach_new size) ++ l) at 2.
  generalize (tach_new size). induction l as [| d l IH]; intros t; simpl.
  - by rewrite app_nil_r.
  - rewrite IH. simpl. by rewrite <- app_assoc.
Qed.

Lemma ordinal_range (pctl count : Z) : 0 < count -> 1 <= ordinal pctl count <= count.
Proof. unfold ordinal. lia. Qed.

Lemma ordinal_mono (p q count : Z) : p <= q -> 0 <= count -> ordinal p count <= ordinal q count.
Proof.
  intros Hpq Hc. unfold ordinal.
  assert ((p * count + 99) / 100 <= (q * count + 99) / 100)
    by (apply Z.div_le_mono; nia).
  lia.
Qed.

Lemma percentile_mono (p q : Z) (l : list duration) :
  p <= q -> percentile p l <= percentile q l.
Proof.
  intros Hpq. unfold percentile.
  set (n := Z.of_nat (length l)). set (sorted := merge_sort Z.le l).
  assert (Hlen : length sorted = length l)
    by (apply Permutation_length, merge_sort_Permutation).
  destruct l as [| d l'] eqn:Hl.
  - subst sorted. reflexivity.
  - assert (Hn : 0 < n) by (subst n; simpl; lia).
    pose proof (ordinal_range p n Hn). pose proof (ordinal_range q n Hn).
    pose proof (ordinal_mono p q n Hpq ltac:(lia)).
    destruct (lookup_lt_is_Some_2 sorted (Z.to_nat (ordinal p n - 1))) as [a Ha]; [lia |].
    destruct (lookup_lt_is_Some_2 sorted (Z.to_nat (ordinal q n - 1))) as [b Hb]; [lia |].
    rewrite Ha, Hb. simpl.
    eapply StronglySorted_lookup_le; [| exact Ha | exact Hb | lia].
    apply StronglySorted_merge_sort; apply _.
Qed.

(** The percentiles depend on the samples only, not on their order. *)
Lemma percentile_perm (p : Z) (l l' : list duration) :
  l ≡ₚ l' -> percentile p l = percentile p l'.
Proof.
  intros Hperm. unfold percentile.
  rewrite (Permutation_length Hperm).
  replace (merge_sort Z.le l') with (merge_sort Z.le l); [reflexivity |].
  apply (StronglySorted_unique Z.le).
  - apply StronglySorted_merge_sort; apply _.
  - apply StronglySorted_merge_sort; apply _.
  - by rewrite !merge_sort_Permutation.
Qed.

(** C4: whatever samples the estimator has ingested, the percentiles it
    computes satisfy p50 <= p75 <= p95; after exactly one sample [v] all
    three are [v]. *)
Theorem percentiles_ordered (size : Z) (l : list duration) (v : duration) :
  P50 (tach_calc (ingest size l)) <= P75 (tach_calc (ingest size l)) /\
  P75 (tach_calc (ingest size l)) <= P95 (tach_calc (ingest size l)) /\
  tach_calc (ingest size [v]) = {| P50 := v; P75 := v; P95 := v |}.
Proof.
  unfold tach_calc. rewrite samples_ingest. simpl.
  split; [by apply percentile_mono |]. split; [by apply percentile_mono |].
  reflexivity.
Qed.

(** ** A ramp step on the machine *)

Lemma tally_app f sts sts' : tally f (sts ++ sts') = tally f sts + tally f sts'.
Proof. induction sts as [| st sts IH]; simpl; [reflexivity | rewrite IH; lia]. Qed.

Lemma tally_insert f sts k st st' :
  sts !! k = Some st ->
  tally f (<[k := st']> sts) = tally f sts - f st + f st'.
Proof.
  revert k. induction sts as [| x sts IH]; intros [| k] H; simpl in *; try done.
  - injection H as ->. lia.
  - rewrite (IH k H). lia.
Qed.

Lemma done_of_range st : 0 <= done_of st <= 1.
Proof. destruct st; simpl; lia. Qed.

Lemma errors_of_range st : 0 <= errors_of st <= 1.
Proof. destruct st as [| | ? [? [?|]] | ? [? [?|]]]; simpl; lia. Qed.

Lemma tally_range f sts :
  (forall st, 0 <= f st <= 1) -> 0 <= tally f sts <= Z.of_nat (length sts).
Proof.
  intros Hf. induction sts as [| st sts IH]; simpl; [lia |].
  specialize (Hf st). lia.
Qed.

Lemma tally_done_full sts :
  tally done_of sts = Z.of_nat (length sts) -> Forall is_finished sts.
Proof.
  induction sts as [| st sts IH]; intros H; [constructor |].
  simpl in H. pose proof (tally_range done_of sts done_of_range).
  pose proof (done_of_range st).
  constructor; [destruct st; simpl in *; try lia; exact I | apply IH; lia].
Qed.

Lemma tally_done_unfinished sts k st :
  sts !! k = Some st -> ~ is_finished st ->
  tally done_of sts <= Z.of_nat (length sts) - 1.
Proof.
  revert k. induction sts as [| x sts IH]; intros [| k] H Hst; simpl in *; try done.
  - injection H as ->. pose proof (tally_range done_of sts done_of_range).
    destruct st; simpl in *; try lia; by destruct Hst.
  - specialize (IH k H Hst). pose proof (done_of_range x). lia.
Qed.

Lemma gathered_insert sts k st st' d :
  sts !! k = Some st -> sample_of st = [] -> sample_of st' = [d] ->
  gathered (<[k := st']> sts) ≡ₚ gathered sts ++ [d].
Proof.
  revert k. induction sts as [| x sts IH]; intros [| k] H Hst Hst'; simpl in *; try done.
  - injection H as ->. unfold gathered. simpl. rewrite Hst, Hst'. simpl.
    by rewrite Permutation_cons_append.
  - unfold gathered in *. simpl. rewrite (IH k H Hst Hst'). by rewrite app_assoc.
Qed.

Lemma gathered_insert_same sts k st st' :
  sts !! k = Some st -> sample_of st' = sample_of st ->
  gathered (<[k := st']> sts) = gathered sts.
Proof.
  revert k. induction sts as [| x sts IH]; intros [| k] H Hst; simpl in *; try done.
  - injection H as ->. unfold gathered. simpl. by rewrite Hst.
  - unfold gathered in *. simpl. by rewrite (IH k H Hst).
Qed.

Lemma wrap32_succ z : wrap32 (wrap32 z + 1) = wrap32 (z + 1).
Proof.
  unfold wrap32.
  replace ((z + 2 ^ 31) mod 2 ^ 32 - 2 ^ 31 + 1 + 2 ^ 31)
    with ((z + 2 ^ 31) mod 2 ^ 32 + 1) by lia.
  replace (z + 1 + 2 ^ 31) with ((z + 2 ^ 31) + 1) by lia.
  by rewrite Zplus_mod_idemp_l.
Qed.

Lemma wrap32_small z : - 2 ^ 31 <= z < 2 ^ 31 -> wrap32 z = z.
Proof. intros H. unfold wrap32. rewrite Z.mod_small; lia. Qed.

Lemma nows_app tr tr' : nows (tr ++ tr') = nows tr ++ nows tr'.
Proof. apply flat_map_app. Qed.

Lemma calcs_app tr tr' : calcs (tr ++ tr') = calcs tr ++ calcs tr'.
Proof. apply flat_map_app. Qed.

Lemma gos_app tr tr' : gos (tr ++ tr') = gos tr ++ gos tr'.
Proof. apply flat_map_app. Qed.

Lemma stderr_app tr tr' : stderr (tr ++ tr') = stderr tr ++ stderr tr'.
Proof. apply flat_map_app. Qed.

Lemma nows_insert_calls tx t rows : nows (insert_calls tx t rows) = [].
Proof. induction rows as [| row rows IH]; simpl; auto. Qed.

Lemma nows_select_calls tx t ids : nows (select_calls tx t ids) = [].
Proof. induction ids as [| id ids IH]; simpl; auto. Qed.

Lemma nows_delete_calls tx t ids : nows (delete_calls tx t ids) = [].
Proof. induction ids as [| id ids IH]; simpl; auto. Qed.

(** With a clock that never runs backwards, [run] returns no negative
    duration. *)
Lemma run_outcome_nonneg tx t tr r :
  run_outcome tx t tr r -> StronglySorted Z.le (nows tr) -> 0 <= fst r.
Proof.
  intros H Hs. destruct H; simpl; try lia.
  rewrite !nows_app, nows_insert_calls, nows_select_calls, nows_delete_calls in Hs.
  simpl in Hs. apply StronglySorted_inv in Hs as [_ Hle].
  apply Forall_inv in Hle.
  unfold time_sub, minDuration, maxDuration. lia.
Qed.

Lemma calcs_unreported (tr : trace) : existsb reports tr = false -> calcs tr = [].
Proof.
  induction tr as [| [X e x] tr IH]; simpl; [reflexivity |].
  intros H. apply orb_false_iff in H as [He Htr].
  rewrite (IH Htr), app_nil_r. by destruct e.
Qed.

Section RampStepFacts.

Variable cfg : config.
Variable i : Z.
Variable s : slots.
Variable hs : list handle.

Hypothesis tables : numTables cfg <> 0.
Hypothesis step_index : 0 <= i.
Hypothesis live : take (Z.to_nat (i + 1)) s = Some <$> hs.
Hypothesis enough : length hs = Z.to_nat (i + 1).

Lemma conns_lookup (j : nat) (h : handle) : hs !! j = Some h -> s !! j = Some (Some h).
Proof.
  intros H. pose proof (lookup_lt_Some _ _ _ H) as Hlt.
  rewrite <- (lookup_take_lt s (Z.to_nat (i + 1)) j) by lia.
  by rewrite live, list_lookup_fmap, H.
Qed.

Lemma launching_wait (j : Z) :
  launching i 0 j s = Vis (WgWait i) (fun _ => reporting i s).
Proof. reflexivity. Qed.

Lemma launching_go (c j : nat) (h : handle) :
  hs !! j = Some h ->
  launching i (S c) (Z.of_nat j) s =
  Vis (Go (WorkLoop (Some h) i)) (fun _ => launching i c (Z.of_nat j + 1) s).
Proof.
  intros H. apply conns_lookup in H.
  unfold launching. cbn [main_loop]. unfold launch, get_conn, lift, mbind.
  cbv beta. rewrite (index_lookup _ _ _ H). reflexivity.
Qed.

Lemma g_inv_clock (clk clk' : instant) (st : gstate) (g : goroutine) :
  clk <= clk' -> g_inv cfg i clk st g -> g_inv cfg i clk' st g.
Proof.
  intros Hle (h & Hfn & H). exists h. split; [exact Hfn |].
  destruct st; auto.
  destruct H as (Hs & Hb & Hp). repeat split; auto.
  eapply Forall_impl; [exact Hb |]. simpl. intros. lia.
Qed.

Lemma perform_clock {X : Type} (e : event X) (sh sh' : shared) (x y : X) :
  perform e sh x = Yields y sh' -> clock sh <= clock sh'.
Proof.
  destruct e; simpl; unfold wg_add;
    repeat match goal with
           | |- context [if ?b then _ else _] => destruct b eqn:?
           end;
    intros H; inversion H; subst; simpl; lia.
Qed.

Lemma main_step_inv (a : answers) (m m' : machine (exit unit * slots)) :
  step_inv cfg i s hs m -> mstep_fun cfg MainThread a m = Some m' ->
  step_inv cfg i s hs m'.
Proof.
  intros (Hcr & ph & sts & Hmain & Hpool & Hfns & Herr & Htach) Hstep.
  destruct m as [code log pool sh crashed]. simpl in *. subst crashed.
  unfold mstep_fun in Hstep. simpl in Hstep.
  destruct ph as [| | c | |]; simpl in Hmain.
  - destruct Hmain as (-> & -> & Hlog & Hwg). simpl in Hstep.
    injection Hstep as <-. split; [reflexivity |]. simpl.
    apply Forall2_nil_inv_r in Hpool as ->.
    exists Sized, []. simpl. repeat split; auto.
    + rewrite existsb_app, Hlog. reflexivity.
    + right. unfold upd. rewrite Z.eqb_refl. simpl. auto.
  - destruct Hmain as (-> & -> & Hlog & Hwg). simpl in Hstep.
    unfold wg_add in Hstep. rewrite Hwg in Hstep.
    destruct (0 + (i + 1) <? 0) eqn:Hneg; [lia |].
    injection Hstep as <-. split; [reflexivity |]. simpl.
    apply Forall2_nil_inv_r in Hpool as ->.
    exists (Launching (Z.to_nat (i + 1))), []. simpl. repeat split; auto.
    + unfold launching, main_range. rewrite Z.sub_0_r. reflexivity.
    + rewrite existsb_app, Hlog. reflexivity.
    + unfold upd. rewrite Z.eqb_refl. lia.
    + destruct Htach as [Hph | Htach]; [discriminate | auto].
  - destruct Hmain as (Hcode & Hlen & Hlog & Hwg). subst code.
    pose proof (Forall2_length _ _ _ Hpool) as Hsts.
    destruct c as [| c].
    + rewrite launching_wait in Hstep. simpl in Hstep.
      destruct (wg sh i =? 0) eqn:Hzero; [| discriminate].
      injection Hstep as <-. split; [reflexivity |]. simpl.
      exists Reporting, sts. simpl. rewrite !app_nil_r.
      repeat split; auto.
      * lia.
      * rewrite existsb_app, Hlog. reflexivity.
      * apply tally_done_full. lia.
      * destruct Htach as [Hph | Htach]; [discriminate | auto].
    + destruct (lookup_lt_is_Some_2 hs (length pool)) as [h Hh]; [lia |].
      rewrite (launching_go c _ h Hh) in Hstep. simpl in Hstep.
      injection Hstep as <-. split; [reflexivity |]. simpl.
      exists (Launching c), (sts ++ [Working]). simpl.
      rewrite length_app, !tally_app. simpl.
      repeat split.
      * f_equal. lia.
      * lia.
      * rewrite existsb_app, Hlog. reflexivity.
      * lia.
      * apply Forall2_app; [exact Hpool |]. constructor; [| constructor].
        exists h. simpl. split; [reflexivity |].
        split; [constructor |]. split; [constructor |].
        exists (run cfg (Some h) i). split; [reflexivity |].
        by apply run_wp.
      * rewrite fmap_app, Hfns. simpl.
        replace (length pool + 1)%nat with (S (length pool)) by lia.
        rewrite (take_S_r _ _ _ Hh), fmap_app. reflexivity.
      * rewrite Herr. f_equal. lia.
      * destruct Htach as [Hph | [Hcap Hsam]]; [discriminate |]. right.
        split; [exact Hcap |]. unfold gathered in *.
        rewrite flat_map_app. simpl. by rewrite app_nil_r.
  - destruct Hmain as (Hcode & Hlen & Hlog & Hfin). subst code. simpl in Hstep.
    injection Hstep as <-. split; [reflexivity |]. simpl.
    exists Reported, sts. simpl. rewrite !app_nil_r.
    repeat split; auto.
    + rewrite calcs_app, (calcs_unreported _ Hlog). reflexivity.
    + destruct Htach as [Hph | Htach]; [discriminate | auto].
  - destruct Hmain as (Hwp & Hlen & Hcalc & Hfin).
    destruct code as [r | v | X e k]; simpl in Hstep, Hwp; [discriminate | done |].
    destruct Hwp as [He Hk].
    destruct e; try discriminate; simpl in Hstep;
      injection Hstep as <-; (split; [reflexivity |]); simpl;
      exists Reported, sts; simpl; rewrite !app_nil_r;
      repeat split; auto; by rewrite calcs_app, Hcalc.
Qed.

Lemma fns_insert (pool : list goroutine) (k : nat) (g g' : goroutine) :
  pool !! k = Some g -> g_fn g' = g_fn g ->
  g_fn <$> <[k := g']> pool = g_fn <$> pool.
Proof.
  intros Hk Hfn. rewrite list_fmap_insert, Hfn.
  apply list_insert_id. by rewrite list_lookup_fmap, Hk.
Qed.

Lemma pool_insert (clk clk' : instant) sts pool k st' g' :
  clk <= clk' ->
  Forall2 (g_inv cfg i clk) sts pool ->
  g_inv cfg i clk' st' g' ->
  Forall2 (g_inv cfg i clk') (<[k := st']> sts) (<[k := g']> pool).
Proof.
  intros Hle Hpool Hg. apply Forall2_insert; [| exact Hg].
  eapply Forall2_impl; [exact Hpool |]. intros st g. by apply g_inv_clock.
Qed.

Lemma unfinished_launching ph sts m k st :
  main_inv i s ph sts m -> Forall2 (g_inv cfg i (clock (m_shared m))) sts (m_pool m) ->
  sts !! k = Some st -> ~ is_finished st ->
  exists c, ph = Launching c.
Proof.
  intros Hmain Hpool Hk Hst. destruct ph as [| | c | |]; simpl in Hmain.
  - destruct Hmain as (_ & Hnil & _). rewrite Hnil in Hpool.
    apply Forall2_nil_inv_r in Hpool as ->. by rewrite lookup_nil in Hk.
  - destruct Hmain as (_ & Hnil & _). rewrite Hnil in Hpool.
    apply Forall2_nil_inv_r in Hpool as ->. by rewrite lookup_nil in Hk.
  - eauto.
  - destruct Hmain as (_ & _ & _ & Hfin).
    rewrite Forall_lookup in Hfin. destruct Hst. eauto.
  - destruct Hmain as (_ & _ & _ & Hfin).
    rewrite Forall_lookup in Hfin. destruct Hst. eauto.
Qed.

Lemma launching_update c sts code log pool sh k st g st' g' sh' :
  main_inv i s (Launching c) sts
    {| m_main := code; m_log := log; m_pool := pool; m_shared := sh; m_crashed := false |} ->
  Forall2 (g_inv cfg i (clock sh)) sts pool ->
  g_fn <$> pool = (fun h => WorkLoop (Some h) i) <$> take (length pool) hs ->
  sts !! k = Some st -> pool !! k = Some g ->
  g_fn g' = g_fn g ->
  clock sh <= clock sh' ->
  g_inv cfg i (clock sh') st' g' ->
  wg sh' i = wg sh i - (done_of st' - done_of st) ->
  numErrors sh' i = wrap32 (tally errors_of sts - errors_of st + errors_of st') ->
  capacity (tach sh' i) = i + 1 ->
  samples (tach sh' i) ≡ₚ gathered (<[k := st']> sts) ->
  step_inv cfg i s hs
    {| m_main := code; m_log := log; m_pool := <[k := g']> pool ++ [];
       m_shared := sh'; m_crashed := false |}.
Proof.
  intros (Hcode & Hlen & Hlog & Hwg) Hpool Hfns Hst Hg Hfn Hclk Hg' Hwg' Herr' Hcap Hsam.
  simpl in *. split; [reflexivity |]. simpl. rewrite app_nil_r.
  exists (Launching c), (<[k := st']> sts). simpl.
  rewrite length_insert, !(tally_insert _ _ _ _ _ Hst).
  repeat split; auto.
  - lia.
  - by apply pool_insert with (clock sh).
  - by rewrite (fns_insert _ _ _ _ Hg Hfn).
Qed.

Lemma goroutine_step_inv (a : answers) (k : nat) (m m' : machine (exit unit * slots)) :
  step_inv cfg i s hs m -> mstep_fun cfg (Spawned k) a m = Some m' ->
  step_inv cfg i s hs m'.
Proof.
  intros (Hcr & ph & sts & Hmain & Hpool & Hfns & Herr & Htach) Hstep.
  destruct m as [code log pool sh crashed]. simpl in *. subst crashed.
  unfold mstep_fun in Hstep. simpl in Hstep.
  destruct (pool !! k) as [g |] eqn:Hg; [| discriminate].
  destruct (Forall2_lookup_r _ _ _ _ _ Hpool Hg) as (st & Hst & h & Hfn & Hinv).
  destruct g as [fn gcode glog]. simpl in *. subst fn.
  destruct st as [| tr d err | tr r | tr r].
  - destruct (unfinished_launching _ _ _ k Working Hmain Hpool Hst) as [c ->]; [tauto |].
    destruct Hinv as (Hsorted & Hbound & p & -> & Hwp).
    destruct Htach as [Hph | [Hcap Hsam]]; [discriminate |].
    destruct p as [[d [err |]] | v | X e kont]; simpl in Hstep, Hwp.
    + injection Hstep as <-.
      pose proof (run_outcome_nonneg _ _ _ _ Hwp Hsorted) as Hd.
      apply (launching_update c sts _ _ pool sh k Working _ (Counted glog d err)
               _ _ Hmain Hpool Hfns Hst Hg); simpl.
      * reflexivity.
      * lia.
      * exists h. simpl. repeat split; eauto.
      * lia.
      * unfold upd. rewrite Z.eqb_refl, Herr, wrap32_succ. f_equal. lia.
      * exact Hcap.
      * by rewrite (gathered_insert_same _ _ Working).
    + injection Hstep as <-.
      pose proof (run_outcome_nonneg _ _ _ _ Hwp Hsorted) as Hd.
      apply (launching_update c sts _ _ pool sh k Working _ (Recorded glog (d, None))
               _ _ Hmain Hpool Hfns Hst Hg); simpl.
      * reflexivity.
      * lia.
      * exists h. simpl. repeat split; eauto.
      * lia.
      * rewrite Herr. f_equal. lia.
      * unfold upd. by rewrite Z.eqb_refl.
      * unfold upd. rewrite Z.eqb_refl. simpl.
        rewrite (gathered_insert _ _ Working _ d Hst) by reflexivity.
        by rewrite Hsam.
    + done.
    + destruct Hwp as [He Hk].
      destruct (perform e sh (a X e)) as [| v | x sh'] eqn:Hperf; try discriminate.
      { destruct e; try discriminate He; simpl in Hperf; try discriminate Hperf.
        revert Hperf. destruct (clock sh <=? a Z Now); discriminate. }
      assert (Hlog : StronglySorted Z.le (nows (glog ++ [Entry e x])) /\
                     Forall (fun t => t <= clock sh') (nows (glog ++ [Entry e x])) /\
                     wg sh' = wg sh /\ numErrors sh' = numErrors sh /\ tach sh' = tach sh).
      { rewrite nows_app.
        destruct e; try discriminate; simpl in Hperf;
          try (injection Hperf as <- <-; simpl; rewrite app_nil_r; auto).
        revert Hperf. destruct (clock sh <=? a Z Now) eqn:Hclk; [| discriminate].
        intros Hperf. injection Hperf as <- <-. simpl. repeat split; auto.
        - apply StronglySorted_app. repeat split; auto.
          + intros x1 x2 H1 H2. apply list_elem_of_singleton in H2 as ->.
            rewrite Forall_forall in Hbound. specialize (Hbound _ H1). lia.
          + repeat constructor.
        - apply Forall_app. split; [| repeat constructor; lia].
          eapply Forall_impl; [exact Hbound |]. simpl. intros. lia. }
      destruct Hlog as (Hs' & Hb' & Hwg' & Herr' & Htach').
      pose proof (perform_clock _ _ _ _ _ Hperf) as Hclk.
      assert (Hsp : spawned e = []) by (destruct e; try discriminate; reflexivity).
      rewrite Hsp in Hstep. injection Hstep as <-.
      apply (launching_update c sts _ _ pool sh k Working _ Working
               _ _ Hmain Hpool Hfns Hst Hg); simpl.
      * reflexivity.
      * exact Hclk.
      * exists h. simpl. repeat split; eauto.
      * rewrite Hwg'. lia.
      * rewrite Herr', Herr. f_equal. lia.
      * by rewrite Htach'.
      * rewrite Htach', (gathered_insert_same _ _ Working) by done. exact Hsam.
  - destruct (unfinished_launching _ _ _ k _ Hmain Hpool Hst) as [c ->]; [tauto |].
    destruct Htach as [Hph | [Hcap Hsam]]; [discriminate |].
    destruct Hinv as (Hout & Hd & -> & v & ->). simpl in Hstep.
    revert Hstep. destruct (a ()%type (Fprintf Stderr work_loop_error [VErr err])).
    intros Hstep. injection Hstep as <-.
    apply (launching_update c sts _ _ pool sh k (Counted tr d err) _
             (Recorded tr (d, Some err)) _ _ Hmain Hpool Hfns Hst Hg); simpl.
    + reflexivity.
    + lia.
    + exists h. simpl. repeat split; eauto.
      exists v. by rewrite <- app_assoc.
    + lia.
    + rewrite Herr. f_equal. lia.
    + exact Hcap.
    + by rewrite (gathered_insert_same _ _ (Counted tr d err)).
  - destruct (unfinished_launching _ _ _ k _ Hmain Hpool Hst) as [c ->]; [tauto |].
    destruct Htach as [Hph | [Hcap Hsam]]; [discriminate |].
    destruct Hinv as (Hout & Hd & -> & v & ->). simpl in Hstep.
    pose proof (tally_done_unfinished _ _ _ Hst ltac:(simpl; tauto)) as Hdone.
    pose proof (Forall2_length _ _ _ Hpool) as Hlen.
    pose proof Hmain as (_ & Hc & _ & Hwg). simpl in Hc, Hwg.
    unfold wg_add in Hstep.
    destruct (wg sh i + -1 <? 0) eqn:Hneg; [lia |].
    injection Hstep as <-.
    apply (launching_update c sts _ _ pool sh k (Recorded tr r) _ (Finished tr r)
             _ _ Hmain Hpool Hfns Hst Hg); simpl.
    + reflexivity.
    + lia.
    + exists h. simpl. repeat split; eauto.
      exists v. by rewrite <- app_assoc.
    + unfold upd. rewrite Z.eqb_refl. lia.
    + rewrite Herr. f_equal. destruct r as [? [?|]]; simpl; lia.
    + exact Hcap.
    + rewrite (gathered_insert_same _ _ (Recorded tr r)); [exact Hsam | exact Hst |].
      by destruct r as [? [?|]].
  - destruct Hinv as (_ & _ & -> & _). discriminate.
Qed.

Lemma step_inv_init (sh : shared) :
  wg sh i = 0 -> numErrors sh i = 0 -> step_inv cfg i s hs (step_machine i s sh).
Proof.
  intros Hwg Herr. split; [reflexivity |].
  exists Fresh, []. simpl. repeat split; auto.
Qed.

Lemma step_inv_reachable (sh : shared) (m : machine (exit unit * slots)) :
  wg sh i = 0 -> numErrors sh i = 0 ->
  reachable cfg (step_machine i s sh) m -> step_inv cfg i s hs m.
Proof.
  intros Hwg Herr Hreach. unfold reachable in Hreach. revert m Hreach.
  apply (rtc_ind_r (step_inv cfg i s hs)).
  - by apply step_inv_init.
  - intros m1 m2 _ (t & a & Hstep) Hinv. destruct t as [| k].
    + by apply main_step_inv with a m1.
    + by apply goroutine_step_inv with a k m1.
Qed.

Lemma finished_code (clk : instant) sts pool :
  Forall2 (g_inv cfg i clk) sts pool -> Forall is_finished sts ->
  Forall (fun g => g_code g = Ret tt) pool.
Proof.
  induction 1 as [| st g sts pool Hg _ IH]; intros Hfin; [constructor |].
  apply Forall_cons in Hfin as [Hst Hfin]. constructor; [| by apply IH].
  destruct st; try done. by destruct Hg as (h & _ & _ & _ & -> & _).
Qed.

Lemma reported_phase ph sts (m : machine (exit unit * slots)) :
  main_inv i s ph sts m -> calcs (m_log m) <> [] ->
  length (m_pool m) = Z.to_nat (i + 1) /\
  calcs (m_log m) = [(i, tach_calc (tach (m_shared m) i))] /\
  Forall is_finished sts.
Proof.
  intros Hmain Hcalc. destruct ph; simpl in Hmain;
    try (destruct Hmain as (_ & _ & Hlog & _);
         by rewrite (calcs_unreported _ Hlog) in Hcalc).
  tauto.
Qed.

Lemma finished_completed (clk : instant) sts pool :
  Forall2 (g_inv cfg i clk) sts pool -> Forall is_finished sts ->
  Forall2 (completed cfg i) pool (invocation_of <$> sts).
Proof.
  induction 1 as [| st g sts pool Hg _ IH]; intros Hfin; [constructor |].
  apply Forall_cons in Hfin as [Hst Hfin]. simpl. constructor; [| by apply IH].
  destruct st; try done. destruct Hg as (h & Hfn & Hout & _ & Hcode & v & Hlog).
  exists h, v. auto.
Qed.

Lemma finished_errors sts :
  Forall is_finished sts ->
  tally errors_of sts = Z.of_nat (length (List.filter failed (invocation_of <$> sts))).
Proof.
  induction 1 as [| st sts Hst _ IH]; [reflexivity |].
  rewrite fmap_cons. unfold tally in *. cbn [foldr List.filter]. rewrite IH.
  destruct st as [| | | tr [d [err |]]]; try done; cbn; lia.
Qed.

Lemma finished_samples sts :
  Forall is_finished sts ->
  gathered sts = flat_map elapsed_of (invocation_of <$> sts).
Proof.
  induction 1 as [| st sts Hst _ IH]; [reflexivity |].
  unfold gathered in *. simpl. rewrite IH.
  by destruct st as [| | | tr [d [err |]]].
Qed.

Lemma finished_nonneg (clk : instant) sts pool :
  Forall2 (g_inv cfg i clk) sts pool -> Forall (fun d => 0 <= d) (gathered sts).
Proof.
  induction 1 as [| st g sts pool Hg _ IH]; [constructor |].
  unfold gathered in *. simpl. apply Forall_app. split; [| exact IH].
  destruct Hg as (h & _ & Hst).
  destruct st as [| | tr [d [err |]] | tr [d [err |]]]; simpl; try constructor;
    try constructor; destruct Hst as (_ & Hd & _); exact Hd.
Qed.

(** C2: step [i + 1] starts exactly [i + 1] goroutines, one for the
    connection of each slot [0 .. i], which run interleaved; whenever the
    main goroutine has computed the percentiles or written to standard
    error, every one of them has returned. *)
Theorem ramp_step_barrier (sh : shared) (m : machine (exit unit * slots)) :
  wg sh i = 0 -> numErrors sh i = 0 ->
  reachable cfg (step_machine i s sh) m ->
  existsb reports (m_log m) = true ->
  g_fn <$> m_pool m = (fun h => WorkLoop (Some h) i) <$> hs /\
  length (m_pool m) = Z.to_nat (i + 1) /\
  Forall (fun g => g_code g = Ret tt) (m_pool m) /\
  m_crashed m = false.
Proof.
  intros Hwg Herr Hreach Hrep.
  destruct (step_inv_reachable sh m Hwg Herr Hreach)
    as (Hcr & ph & sts & Hmain & Hpool & Hfns & _).
  assert (Hlen : length (m_pool m) = Z.to_nat (i + 1) /\ Forall is_finished sts).
  { destruct ph; simpl in Hmain;
      try (destruct Hmain as (_ & _ & Hlog & _); congruence); tauto. }
  destruct Hlen as [Hlen Hfin]. repeat split; auto.
  - rewrite Hfns, Hlen, <- enough. by rewrite firstn_all.
  - by apply finished_code with (clock (m_shared m)) sts.
Qed.

(** C5: once the percentiles of the step are computed, every goroutine
    has returned from one invocation of [run]; a failed invocation has
    added one to [numErrors] and no sample, a successful one has added
    its duration, which is not negative, to the estimator; the
    percentiles are those of the durations of the successful
    invocations. *)
Theorem ramp_step_accounting (sh : shared) (m : machine (exit unit * slots)) :
  wg sh i = 0 -> numErrors sh i = 0 ->
  reachable cfg (step_machine i s sh) m ->
  calcs (m_log m) <> [] ->
  exists os : list invocation,
    Forall2 (completed cfg i) (m_pool m) os /\
    length os = Z.to_nat (i + 1) /\
    numErrors (m_shared m) i = wrap32 (Z.of_nat (length (List.filter failed os))) /\
    samples (tach (m_shared m) i) ≡ₚ flat_map elapsed_of os /\
    Forall (fun d => 0 <= d) (flat_map elapsed_of os) /\
    calcs (m_log m) =
      [(i, {| P50 := percentile 50 (flat_map elapsed_of os);
              P75 := percentile 75 (flat_map elapsed_of os);
              P95 := percentile 95 (flat_map elapsed_of os) |})].
Proof.
  intros Hwg Herr Hreach Hcalc.
  destruct (step_inv_reachable sh m Hwg Herr Hreach)
    as (Hcr & ph & sts & Hmain & Hpool & Hfns & Herrs & Htach).
  destruct (reported_phase _ _ _ Hmain Hcalc) as (Hlen & Hcalcs & Hfin).
  assert (Hph : ph <> Fresh).
  { intros ->. simpl in Hmain. destruct Hmain as (_ & _ & Hlog & _).
    by rewrite (calcs_unreported _ Hlog) in Hcalc. }
  destruct Htach as [-> | [_ Hsam]]; [done |].
  exists (invocation_of <$> sts). repeat split.
  - by apply finished_completed with (clock (m_shared m)).
  - rewrite length_fmap, (Forall2_length _ _ _ Hpool). exact Hlen.
  - by rewrite Herrs, finished_errors.
  - by rewrite Hsam, finished_samples.
  - rewrite <- finished_samples by done.
    by apply finished_nonneg with (clock (m_shared m)) (m_pool m).
  - rewrite Hcalcs. unfold tach_calc. rewrite <- finished_samples by done.
    by rewrite !(percentile_perm _ _ _ Hsam).
Qed.

End RampStepFacts.

(** ** The rules of [wp] for [main] *)

Lemma wpx_mono {R : Type} allowed (Q Q' : trace -> exit R -> Prop) (p : prog R) :
  (forall tr r, Q tr r -> Q' tr r) ->
  forall tr, wpx allowed Q p tr -> wpx allowed Q' p tr.
Proof.
  intros HQ. induction p as [r | v | X e k IH]; simpl; intros tr H; auto.
  destruct H as [Ha Hk]. split; [exact Ha | intros x; apply IH, Hk].
Qed.


Lemma wp_wpx {R : Type} allowed (Q : trace -> R -> Prop) (p : prog R) :
  forall tr, wp allowed Q p tr ->
    wpx allowed (fun tr' r => match r with Done x => Q tr' x | Panicked _ => False end) p tr.
Proof.
  induction p as [r | v | X e k IH]; simpl; intros tr H; auto.
  destruct H as [He Hk]. split; [exact He | intros x; apply IH, Hk].
Qed.

Lemma wpx_bind {A B : Type} allowed (Q : trace -> exit B -> Prop) (p : prog A) (f : A -> prog B) :
  forall tr,
    wpx allowed (fun tr' r => match r with
                              | Done a => wpx allowed Q (f a) tr'
                              | Panicked v => Q tr' (Panicked v)
                              end) p tr ->
    wpx allowed Q (bind p f) tr.
Proof.
  induction p as [r | v | X e k IH]; simpl; intros tr H; auto.
  destruct H as [He Hk]. split; [exact He | intros x; apply IH, Hk].
Qed.

Lemma wp_try {A : Type} allowed (Q : trace -> exit A -> Prop) (p : prog A) :
  forall tr, wpx allowed Q p tr -> wp allowed Q (try p) tr.
Proof.
  induction p as [r | v | X e k IH]; simpl; intros tr H; auto.
  destruct H as [He Hk]. split; [exact He | intros x; apply IH, Hk].
Qed.

Lemma wp_lift {A : Type} allowed (Q : trace -> exit A * slots -> Prop) (p : prog A)
    (s : slots) (tr : trace) :
  wpx allowed (fun tr' r => Q tr' (r, s)) p tr -> wp allowed Q (lift p s) tr.
Proof.
  intros H. unfold lift. apply wp_bind. apply wp_try.
  eapply wpx_mono; [| exact H]. auto.
Qed.

Lemma wp_mbind {A B : Type} allowed (Q : trace -> exit B * slots -> Prop)
    (m : mainM A) (f : A -> mainM B) (s : slots) (tr : trace) :
  wp allowed (fun tr' r => match r with
                           | (Done a, s') => wp allowed Q (f a s') tr'
                           | (Panicked v, s') => Q tr' (Panicked v, s')
                           end) (m s) tr ->
  wp allowed Q (mbind m f s) tr.
Proof.
  intros H. unfold mbind. apply wp_bind.
  eapply wp_mono; [| exact H]. intros tr' [[a | v] s'] Hr; exact Hr.
Qed.

Lemma wp_defer {A : Type} allowed (Q : trace -> exit A * slots -> Prop)
    (d : mainM unit) (body : mainM A) (s : slots) (tr : trace) :
  wp allowed (fun tr1 r =>
                wp allowed (fun tr2 rd => match rd with
                                          | (Done _, s') => Q tr2 (fst r, s')
                                          | (Panicked v, s') => Q tr2 (Panicked v, s')
                                          end) (d (snd r)) tr1) (body s) tr ->
  wp allowed Q (defer d body s) tr.
Proof.
  intros H. unfold defer. apply wp_bind.
  eapply wp_mono; [| exact H]. intros tr1 r Hd. apply wp_bind.
  eapply wp_mono; [| exact Hd]. intros tr2 [[u | v] s'] Hr; exact Hr.
Qed.

Lemma wp_main_loop allowed (I : nat -> Z -> slots -> trace -> Prop)
    (Q : trace -> exit unit * slots -> Prop) (body : Z -> mainM unit) :
  (forall n i s tr, I (S n) i s tr ->
     wp allowed (fun tr' r => match r with
                              | (Done _, s') => I n (i + 1) s' tr'
                              | (Panicked v, s') => Q tr' (Panicked v, s')
                              end) (body i s) tr) ->
  (forall i s tr, I O i s tr -> Q tr (Done tt, s)) ->
  forall n i s tr, I n i s tr -> wp allowed Q (main_loop n i body s) tr.
Proof.
  intros Hbody Hend. induction n as [| n IH]; intros i s tr HI; simpl.
  - apply Hend with i. exact HI.
  - apply wp_mbind. eapply wp_mono; [| apply Hbody, HI].
    intros tr' [[u | v] s'] H; [apply IH, H | exact H].
Qed.

(** The calls made are accepted. *)
Lemma wp_accepted {R : Type} allowed (Q : trace -> R -> Prop) (p : prog R) (tr0 : trace) :
  forall tr, wp allowed Q p (tr0 ++ tr) -> Forall (accepted allowed) tr ->
    wp allowed (fun tr' r => Q tr' r /\
                  exists ext, tr' = tr0 ++ ext /\ Forall (accepted allowed) ext)
       p (tr0 ++ tr).
Proof.
  induction p as [r | v | X e k IH]; simpl; intros tr H Hacc.
  - eauto.
  - exact H.
  - destruct H as [He Hk]. split; [exact He |]. intros x.
    rewrite <- app_assoc. apply IH.
    + rewrite app_assoc. apply Hk.
    + apply Forall_app. split; [exact Hacc |]. by constructor.
Qed.

Lemma wp_accepted_from {R : Type} allowed (Q : trace -> R -> Prop) (p : prog R) (tr0 : trace) :
  wp allowed Q p tr0 ->
  wp allowed (fun tr' r => Q tr' r /\
                exists ext, tr' = tr0 ++ ext /\ Forall (accepted allowed) ext)
     p tr0.
Proof.
  intros H.
  pose proof (wp_accepted allowed Q p tr0 []) as Hacc. rewrite app_nil_r in Hacc.
  apply Hacc; [exact H | constructor].
Qed.


(** *** Quiet parts *)

Lemma harmless_ret allowed {R : Type} (r : R) : harmless allowed (Ret r).
Proof. intros tr. exact I. Qed.

Lemma harmless_panic allowed {R : Type} (v : string) : harmless allowed (@Panic R v).
Proof. intros tr. exact I. Qed.

Lemma harmless_call (allowed : forall X, event X -> bool) {X : Type} (e : event X) :
  allowed _ e = true -> harmless allowed (call e).
Proof. intros He tr. simpl. auto. Qed.

Lemma harmless_bind allowed {A B : Type} (p : prog A) (f : A -> prog B) :
  harmless allowed p -> (forall a, harmless allowed (f a)) -> harmless allowed (bind p f).
Proof.
  intros Hp Hf tr. apply wpx_bind. eapply wpx_mono; [| apply Hp].
  intros tr' [a | v] _; [apply Hf | exact I].
Qed.

Lemma harmless_on_conn allowed {R : Type} (c : conn) (f : handle -> prog R) :
  (forall h, harmless allowed (f h)) -> harmless allowed (on_conn c f).
Proof. intros Hf. destruct c as [h |]; [apply Hf | apply harmless_panic]. Qed.

Lemma harmless_index allowed {A : Type} (l : list A) (i : Z) : harmless allowed (index l i).
Proof.
  unfold index. destruct (i <? 0); [apply harmless_panic |].
  destruct (l !! Z.to_nat i); [apply harmless_ret | apply harmless_panic].
Qed.

Lemma harmless_wp allowed {R : Type} (p : prog R) :
  (forall tr, exists Q : trace -> R -> Prop, wp allowed Q p tr) -> harmless allowed p.
Proof.
  intros H tr. destruct (H tr) as [Q HQ].
  eapply wpx_mono; [| apply wp_wpx, HQ]. auto.
Qed.

Lemma harmless_allow (a a' : forall X, event X -> bool) {R : Type} (p : prog R) :
  (forall X (e : event X), a X e = true -> a' X e = true) ->
  harmless a p -> harmless a' p.
Proof.
  intros Ha Hp tr. specialize (Hp tr). revert tr Hp.
  induction p as [r | v | X e k IH]; simpl; intros tr H; auto.
  destruct H as [He Hk]. split; [by apply Ha | intros x; apply IH, Hk].
Qed.


Lemma quiet_mret allowed {R : Type} (r : R) : quiet allowed (mret r).
Proof. intros s tr. exact I. Qed.

Lemma quiet_panic allowed {R : Type} (v : string) : quiet allowed (@panic R v).
Proof. intros s tr. exact I. Qed.

Lemma quiet_lift allowed {R : Type} (p : prog R) : harmless allowed p -> quiet allowed (lift p).
Proof. intros Hp s tr. apply wp_lift. eapply wpx_mono; [| apply Hp]. auto. Qed.

Lemma quiet_mbind allowed {A B : Type} (m : mainM A) (f : A -> mainM B) :
  quiet allowed m -> (forall a, quiet allowed (f a)) -> quiet allowed (mbind m f).
Proof.
  intros Hm Hf s tr. apply wp_mbind. eapply wp_mono; [| apply Hm].
  intros tr' [[a | v] s'] _; [apply Hf | exact I].
Qed.

Lemma quiet_defer allowed {A : Type} (d : mainM unit) (body : mainM A) :
  quiet allowed d -> quiet allowed body -> quiet allowed (defer d body).
Proof.
  intros Hd Hb s tr. apply wp_defer. eapply wp_mono; [| apply Hb].
  intros tr1 r _. eapply wp_mono; [| apply Hd]. by intros tr2 [[u | v] s'] _.
Qed.

Lemma quiet_get_conn allowed (i : Z) : quiet allowed (get_conn i).
Proof. intros s tr. unfold get_conn. apply quiet_lift, harmless_index. Qed.

Lemma quiet_set_conn allowed (i : Z) (c : conn) : quiet allowed (set_conn i c).
Proof. intros s tr. unfold set_conn. by destruct (_ && _). Qed.

Lemma quiet_main_loop allowed (n : nat) (i : Z) (body : Z -> mainM unit) :
  (forall j, quiet allowed (body j)) -> quiet allowed (main_loop n i body).
Proof.
  intros Hbody. revert i. induction n as [| n IH]; intros i; simpl.
  - apply quiet_mret.
  - apply quiet_mbind; [apply Hbody | intros _; apply IH].
Qed.

Lemma quiet_main_range allowed (lo hi : Z) (body : Z -> mainM unit) :
  (forall j, quiet allowed (body j)) -> quiet allowed (main_range lo hi body).
Proof. apply quiet_main_loop. Qed.

Lemma quiet_Printf (allowed : forall X, event X -> bool) (format : string) (args : list value) :
  allowed _ (Fprintf Stdout format args) = true -> quiet allowed (Printf format args).
Proof. intros H. by apply quiet_lift, harmless_call. Qed.

Lemma quiet_Eprintf (allowed : forall X, event X -> bool) (format : string) (args : list value) :
  allowed _ (Fprintf Stderr format args) = true -> quiet allowed (Eprintf format args).
Proof. intros H. by apply quiet_lift, harmless_call. Qed.

Lemma harmless_establishConnection (allowed : forall X, event X -> bool) :
  (forall X (e : event X), acquiring X e = true -> allowed X e = true) ->
  harmless allowed establishConnection.
Proof.
  intros Ha. apply harmless_allow with acquiring; [exact Ha |].
  apply harmless_wp. intros tr. eexists. apply establishConnection_wp.
Qed.

Lemma harmless_for_loop allowed {S R : Type} (n : nat) (i : Z)
    (body : Z -> S -> prog (S + R)) (s : S) :
  (forall j s', harmless allowed (body j s')) -> harmless allowed (for_loop n i body s).
Proof.
  intros Hbody. revert i s. induction n as [| n IH]; intros i s tr.
  - rewrite for_loop_O. exact I.
  - rewrite for_loop_S. apply wpx_bind. eapply wpx_mono; [| apply Hbody].
    intros tr' [[s' | v] | v] _; simpl; auto. apply IH.
Qed.

Ltac quiet_step :=
  match goal with
  | |- quiet _ (mbind _ _) => apply quiet_mbind; [| intros ?]
  | |- quiet _ (lift _) => apply quiet_lift
  | |- quiet _ (mret _) => apply quiet_mret
  | |- quiet _ (panic _) => apply quiet_panic
  | |- quiet _ (get_conn _) => apply quiet_get_conn
  | |- quiet _ (set_conn _ _) => apply quiet_set_conn
  | |- quiet _ (main_range _ _ _) => apply quiet_main_range; intros ?
  | |- quiet _ (Printf _ _) => apply quiet_Printf; reflexivity
  | |- quiet _ (Eprintf _ _) => apply quiet_Eprintf; reflexivity
  | |- quiet _ (defer _ _) => apply quiet_defer
  | |- quiet _ (match ?x with _ => _ end) => destruct x
  | |- harmless _ (call _) => apply harmless_call; reflexivity
  | |- harmless _ (on_conn _ _) => apply harmless_on_conn; intros ?
  | |- harmless _ (bind _ _) => apply harmless_bind; [| intros ?]
  | |- harmless _ (Ret _) => apply harmless_ret
  | |- harmless _ (Panic _) => apply harmless_panic
  | |- harmless _ (index _ _) => apply harmless_index
  | |- harmless _ (for_range _ _ _ _) => apply harmless_for_loop; intros ? ?
  | |- harmless _ establishConnection =>
      apply harmless_establishConnection; intros ? e; by destruct e
  | |- harmless _ (match ?x with _ => _ end) => destruct x
  end.

Section MainFacts.

Variable cfg : config.














Lemma workload_errors_app tr tr' :
  workload_errors (tr ++ tr') = workload_errors tr ++ workload_errors tr'.
Proof. apply flat_map_app. Qed.


Lemma accepted_allow (a a' : forall X, event X -> bool) (ext : trace) :
  (forall X (e : event X), a X e = true -> a' X e = true) ->
  Forall (accepted a) ext -> Forall (accepted a') ext.
Proof.
  intros Ha Hext. eapply Forall_impl; [exact Hext |].
  intros [X e x]. simpl. apply Ha.
Qed.



Lemma reporting_wp (i : Z) (s : slots) (tr : trace) :
  wp any_event
     (fun tr' r => exists m ext, tr' = tr ++ ext /\ r = (Done tt, s) /\
                     calcs ext = [(i, m)] /\ csv_lines ext = [row_of (i, m)])
     (reporting i s) tr.
Proof.
  unfold reporting, print_report. simpl.
  split; [reflexivity |]. intros m.
  do 9 (split; [reflexivity |]; intros ?).
  exists m. eexists. rewrite <- !app_assoc. simpl.
  split; [reflexivity |]. by destruct x7.
Qed.











(** *** The warm-up *)

Lemma workload_errors_insert_calls tx t rows : workload_errors (insert_calls tx t rows) = [].
Proof. induction rows as [| row rows IH]; simpl; auto. Qed.

Lemma workload_errors_select_calls tx t ids : workload_errors (select_calls tx t ids) = [].
Proof. induction ids as [| id ids IH]; simpl; auto. Qed.

Lemma workload_errors_delete_calls tx t ids : workload_errors (delete_calls tx t ids) = [].
Proof. induction ids as [| id ids IH]; simpl; auto. Qed.

Lemma run_outcome_success tx t tr d :
  run_outcome tx t tr (d, None) -> workload_errors tr = [].
Proof.
  inversion 1; subst.
  by rewrite !workload_errors_app, workload_errors_insert_calls,
    workload_errors_select_calls, workload_errors_delete_calls.
Qed.

Lemma wpx_any {R : Type} allowed (Q : trace -> exit R -> Prop) (p : prog R) :
  forall tr, wpx allowed Q p tr -> wpx any_event Q p tr.
Proof.
  induction p as [r | v | X e k IH]; simpl; intros tr H; auto.
  destruct H as [_ Hk]. split; [reflexivity | intros x; apply IH, Hk].
Qed.

(** *** Replacing the connection of a slot *)

Lemma closes_app tr tr' : closes (tr ++ tr') = closes tr ++ closes tr'.
Proof. apply flat_map_app. Qed.

Lemma acquiring_closes (ext : trace) : Forall (accepted acquiring) ext -> closes ext = [].
Proof.
  induction 1 as [| [X e x] ext He _ IH]; [reflexivity |].
  change (Entry e x :: ext) with ([Entry e x] ++ ext).
  rewrite closes_app, IH, app_nil_r. simpl in He. by destruct e.
Qed.

Lemma established_last (ext : trace) (h : handle) :
  established ext (Some h, None) -> last (attempts ext) = Some (inr h).
Proof.
  intros (fails & [(h' & Hatt & _ & Heq) | (err & _ & _ & Heq)]); [| discriminate].
  injection Heq as ->. by rewrite Hatt, last_snoc.
Qed.

Lemma establishing_wp (i : Z) (s : slots) (tr : trace) :
  wp any_event
     (fun tr' r => fst r = Done tt ->
        exists ext old new,
          tr' = tr ++ ext /\ 0 <= i /\
          s !! Z.to_nat i = Some (Some old) /\
          snd r = <[Z.to_nat i := Some new]> s /\
          closes ext = [old] /\
          last (attempts ext) = Some (inr new))
     (establishing i s) tr.
Proof.
  unfold establishing. apply wp_mbind. unfold get_conn, index.
  destruct (i <? 0) eqn:Hneg; [by simpl |].
  destruct (s !! Z.to_nat i) as [c |] eqn:Hs; [| by simpl].
  simpl. apply wp_mbind. destruct c as [old |]; [| by simpl].
  simpl. split; [reflexivity |]. intros [err |]; simpl; [discriminate |].
  apply wp_mbind. apply wp_lift.
  pose proof (wp_accepted_from _ _ _ _
                (establishConnection_wp (tr ++ [Entry (ConnClose old) None]))) as H.
  apply wp_any, wp_wpx in H. eapply wpx_mono; [| exact H].
  intros tr' [[c err] | v] Hr; [| destruct Hr].
  destruct Hr as ((ext & -> & Hest) & (ext' & Heq & Hacc)).
  apply app_inv_head in Heq as <-.
  apply wp_mbind. unfold set_conn.
  destruct ((0 <=? i) && (i <? Z.of_nat (length s))) eqn:Hrange; simpl; [| discriminate].
  destruct err as [err |]; simpl; [discriminate |]. intros _.
  destruct Hest as (fails & [(h & Hatt & Hlen & Heq) | (e' & _ & _ & Heq)]);
    [| discriminate].
  injection Heq as ->.
  exists ([Entry (ConnClose old) None] ++ ext), old, h.
  rewrite <- app_assoc, closes_app, (acquiring_closes _ Hacc), attempts_app. simpl.
  repeat split; auto; [lia |].
  by rewrite Hatt, last_snoc.
Qed.

Lemma preserving_lift {R : Type} (p : prog R) : preserving (lift p).
Proof.
  intros s tr. unfold lift. apply wp_bind. apply wp_try.
  generalize tr. induction p as [r | v | X e k IH]; simpl; auto.
Qed.

Lemma preserving_mbind {A B : Type} (m : mainM A) (f : A -> mainM B) :
  preserving m -> (forall a, preserving (f a)) -> preserving (mbind m f).
Proof.
  intros Hm Hf s tr. apply wp_mbind. eapply wp_mono; [| apply Hm].
  intros tr' [[a | v] s'] Hs; simpl in Hs; subst s'; [apply Hf | reflexivity].
Qed.

Lemma preserving_main_loop (n : nat) (i : Z) (body : Z -> mainM unit) :
  (forall j, preserving (body j)) -> preserving (main_loop n i body).
Proof.
  intros Hbody. revert i. induction n as [| n IH]; intros i; simpl.
  - by intros s tr.
  - apply preserving_mbind; [apply Hbody | intros _; apply IH].
Qed.

Lemma preserving_running (i : Z) : preserving (running i).
Proof.
  unfold running, launch, main_range, get_conn.
  repeat first [apply preserving_mbind; [| intros ?]
               | apply preserving_main_loop; intros ?
               | apply preserving_lift
               | intros s tr; apply preserving_lift].
Qed.

Lemma preserving_reporting (i : Z) : preserving (reporting i).
Proof.
  unfold reporting, print_report, Printf, Eprintf.
  repeat first [apply preserving_mbind; [| intros ?] | apply preserving_lift].
Qed.

Lemma quiet_keeping_running (i : Z) : quiet keeping (running i).
Proof. unfold running, launch. repeat quiet_step. Qed.

Lemma quiet_keeping_reporting (i : Z) : quiet keeping (reporting i).
Proof. unfold reporting, print_report. repeat quiet_step. Qed.

Lemma keeping_ext (ext : trace) :
  Forall (accepted keeping) ext -> closes ext = [] /\ attempts ext = [].
Proof.
  induction 1 as [| [X e x] ext He _ [IHc IHa]]; [by split |].
  change (Entry e x :: ext) with ([Entry e x] ++ ext).
  rewrite closes_app, attempts_app, IHc, IHa, !app_nil_r.
  simpl in He. by destruct e.
Qed.

Lemma wp_and {R : Type} allowed (Q1 Q2 : trace -> R -> Prop) (p : prog R) :
  forall tr, wp allowed Q1 p tr -> wp allowed Q2 p tr ->
             wp allowed (fun tr' r => Q1 tr' r /\ Q2 tr' r) p tr.
Proof.
  induction p as [r | v | X e k IH]; simpl; intros tr H1 H2; auto.
  destruct H1 as [He H1], H2 as [_ H2]. split; [exact He |].
  intros x. by apply IH.
Qed.

(** A part of [main] that is quiet and preserving. *)
Lemma quiet_preserving_wp {R : Type} allowed (Q : trace -> exit R * slots -> Prop)
    (m : mainM R) (s : slots) (tr : trace) :
  quiet allowed m -> preserving m ->
  (forall ext x, Forall (accepted allowed) ext -> Q (tr ++ ext) (x, s)) ->
  wp any_event Q (m s) tr.
Proof.
  intros Hq Hp HQ.
  pose proof (wp_accepted_from _ _ _ _ (Hq s tr)) as H1. apply wp_any in H1.
  eapply wp_mono; [| apply (wp_and _ _ _ _ _ H1 (Hp s tr))].
  intros tr' [x s'] ((_ & ext & -> & Hext) & Hs). simpl in Hs. subst s'.
  by apply HQ.
Qed.

(** C3, as the code has it: in the ramp step of loop index [i] the
    connection of slot [i] is closed and the slot gets the connection of
    the last, successful call of [db.Conn]; no other connection is closed,
    every other slot keeps its connection from one step to the next, and
    the slice keeps its length. *)
Theorem ramp_step_replaces_one_slot (o : oracle) (i : Z) (s s' : slots) (tr0 : trace) :
  snd (interp o (ramp_step i s) tr0) = Done (Done tt, s') ->
  exists old new,
    s !! Z.to_nat i = Some (Some old) /\
    s' !! Z.to_nat i = Some (Some new) /\
    closes (drop (length tr0) (fst (interp o (ramp_step i s) tr0))) = [old] /\
    last (attempts (drop (length tr0) (fst (interp o (ramp_step i s) tr0)))) =
      Some (inr new) /\
    (forall j, j <> Z.to_nat i -> s' !! j = s !! j) /\
    length s' = length s.
Proof.
  intros Hdone.
  assert (Hwp : wp any_event
                   (fun tr' r => fst r = Done tt ->
                      exists ext old new,
                        tr' = tr0 ++ ext /\
                        s !! Z.to_nat i = Some (Some old) /\
                        snd r = <[Z.to_nat i := Some new]> s /\
                        closes ext = [old] /\
                        last (attempts ext) = Some (inr new))
                   (ramp_step i s) tr0).
  { unfold ramp_step. apply wp_mbind. eapply wp_mono; [| apply establishing_wp].
    intros tr1 [[[] | v] s1] H1; [| discriminate].
    destruct (H1 eq_refl) as (ext1 & old & new & -> & _ & Hold & Hnew & Hcl & Hlast).
    simpl in Hnew. subst s1.
    apply wp_mbind.
    apply quiet_preserving_wp with keeping;
      [apply quiet_keeping_running | apply preserving_running |].
    intros ext2 [[] | v] Hext2; [| discriminate].
    apply quiet_preserving_wp with keeping;
      [apply quiet_keeping_reporting | apply preserving_reporting |].
    intros ext3 x Hext3 _.
    destruct (keeping_ext _ Hext2) as [Hc2 Ha2], (keeping_ext _ Hext3) as [Hc3 Ha3].
    exists (ext1 ++ ext2 ++ ext3), old, new.
    rewrite !closes_app, !attempts_app, Hc2, Hc3, Ha2, Ha3, !app_nil_r, <- !app_assoc.
    by repeat split. }
  destruct (wp_interp _ _ o _ _ Hwp) as (r & Hr & Hout).
  rewrite Hr in Hdone. injection Hdone as ->.
  destruct (Hout eq_refl) as (ext & old & new & -> & Hold & Hnew & Hcl & Hlast).
  simpl in Hnew. subst s'. rewrite drop_app_length.
  exists old, new. repeat split; auto.
  - apply list_lookup_insert_eq. by apply lookup_lt_Some in Hold.
  - intros j Hj. by apply list_lookup_insert_ne.
  - apply length_insert.
Qed.

End MainFacts.

(** ** The program at work *)

(** C1: at ramp step 2 of the program as shipped the goroutine of slot 0
    is started with the loop variable [i = 1], not with its slot index, and
    every statement of its [run] names table 1. *)
Theorem second_step_uses_loop_index :
  gos (fst (interp healthy (running 1 (Some <$> seq 0 1000)) [])) =
    [WorkLoop (Some 0%nat) 1; WorkLoop (Some 1%nat) 1] /\
  tables_used (fst (interp healthy (go_body shipped (WorkLoop (Some 0%nat) 1)) [])) =
    replicate 30 1.
Proof. split; vm_compute; reflexivity. Qed.

(** The warm-up calls [run] with the index of the slot. *)
Example warmup_uses_slot_index :
  tables_used (fst (interp healthy (warmup {| numLoops := 3; numTables := 50 |}
                                      three_conns) [])) =
    replicate 30 0 ++ replicate 30 1 ++ replicate 30 2.
Proof. vm_compute. reflexivity. Qed.

(** Ramp step 2 replaces the connection of slot 1 and leaves slot 0 alone. *)
Lemma slot_zero_keeps_its_connection : ~ replaces_every_slot healthy 1 three_conns.
Proof.
  intros H. destruct (H 0%nat 10%nat eq_refl) as [Hin _].
  vm_compute in Hin. destruct Hin as [Heq | []]. discriminate.
Qed.

(** The second ramp step of the scenario, with a healthy database. *)
Lemma ramp_step_replaces_one_slot_witness :
  exists old new,
    three_conns !! Z.to_nat 1 = Some (Some old) /\
    [Some 10%nat; Some 100%nat; Some 12%nat] !! Z.to_nat 1 = Some (Some new) /\
    closes (drop (length (@nil entry))
              (fst (interp healthy (ramp_step 1 three_conns) []))) = [old] /\
    last (attempts (drop (length (@nil entry))
                      (fst (interp healthy (ramp_step 1 three_conns) [])))) =
      Some (inr new) /\
    (forall j, j <> Z.to_nat 1 ->
               [Some 10%nat; Some 100%nat; Some 12%nat] !! j = three_conns !! j) /\
    length [Some 10%nat; Some 100%nat; Some 12%nat] = length three_conns.
Proof.
  apply (ramp_step_replaces_one_slot healthy 1 three_conns).
  vm_compute. reflexivity.
Defined.



Example run_with_diagnostic_returns :
  snd (interp (failing_at [213%nat] healthy) (main small) []) =
    Done (Done tt, [Some 103%nat; Some 104%nat; Some 105%nat]) /\
  length (stderr (fst (interp (failing_at [213%nat] healthy) (main small) []))) = 5%nat /\
  length (csv_lines (fst (interp (failing_at [213%nat] healthy) (main small) []))) = 4%nat.
Proof. by vm_compute. Qed.

(** A run that panics in the second ramp step has written the header and
    one line only. *)
Example panicking_run_is_short :
  length (calcs (fst (interp (failing_at [170%nat] healthy) (main small) []))) = 1%nat /\
  ~ csv_only small (failing_at [170%nat] healthy).
Proof. split; [by vm_compute |]. intros [_ H]. vm_compute in H. discriminate. Qed.

(** The two scenarios of the spec for connection acquisition. *)
Example fifth_attempt_succeeds :
  snd (interp (refusing 4) establishConnection []) = Done (Some 104%nat, None) /\
  length (attempts (fst (interp (refusing 4) establishConnection []))) = 5%nat.
Proof. split; vm_compute; reflexivity. Qed.

Example five_attempts_fail :
  snd (interp (refusing 5) establishConnection []) =
    Done (None, Some "Error opening connection: too many clients already") /\
  length (attempts (fst (interp (refusing 5) establishConnection []))) = 5%nat.
Proof. split; vm_compute; reflexivity. Qed.

(** A run that commits after 44 calls of one millisecond each. *)
Example run_commits :
  snd (interp healthy (run shipped (Some 7%nat) 53) []) = Done (43000000, None) /\
  tables_used (fst (interp healthy (run shipped (Some 7%nat) 53) [])) = replicate 30 3.
Proof. split; vm_compute; reflexivity. Qed.

(** A run whose third select fails. *)
Example run_select_fails :
  snd (interp (failing_at [24%nat] healthy) (run shipped (Some 7%nat) 53) []) =
    Done (0, Some "Error selecting row: connection reset by peer").
Proof. vm_compute. reflexivity. Qed.

(** The percentiles of three and of twenty samples. *)
Example percentiles_of_three :
  tach_calc (ingest 3 [30; 10; 20]) = {| P50 := 20; P75 := 30; P95 := 30 |}.
Proof. vm_compute. reflexivity. Qed.

Example percentiles_of_twenty :
  tach_calc (ingest 20 (seqZ 1 20)) = {| P50 := 10; P75 := 15; P95 := 19 |}.
Proof. vm_compute. reflexivity. Qed.

(** *** Two goroutines on the machine *)

Lemma run_schedule_reachable {R : Type} (cfg : config) (sch : list (tid * answers))
    (m m' : machine R) :
  run_schedule cfg sch m = Some m' -> reachable cfg m m'.
Proof.
  revert m. induction sch as [| [t a] sch IH]; simpl; intros m H.
  - injection H as ->. apply rtc_refl.
  - destruct (mstep_fun cfg t a m) as [m1 |] eqn:Hstep; [| discriminate].
    eapply rtc_l; [exists t, a; exact Hstep | by apply IH].
Qed.

(** The schedule ends with one error counted and one sample of seven
    milliseconds. *)
Example two_goroutines_result :
  numErrors (m_shared after_two_goroutines) 1 = 1 /\
  samples (tach (m_shared after_two_goroutines) 1) = [7000000] /\
  calcs (m_log after_two_goroutines) =
    [(1, {| P50 := 7000000; P75 := 7000000; P95 := 7000000 |})].
Proof. repeat split; vm_compute; reflexivity. Qed.

Lemma ramp_step_barrier_witness :
  g_fn <$> m_pool after_two_goroutines =
    (fun h => WorkLoop (Some h) 1) <$> [10%nat; 11%nat] /\
  length (m_pool after_two_goroutines) = Z.to_nat (1 + 1) /\
  Forall (fun g => g_code g = Ret tt) (m_pool after_two_goroutines) /\
  m_crashed after_two_goroutines = false.
Proof.
  apply (ramp_step_barrier small 1 three_conns [10%nat; 11%nat]) with fresh.
  - vm_compute. discriminate.
  - lia.
  - reflexivity.
  - reflexivity.
  - reflexivity.
  - reflexivity.
  - apply run_schedule_reachable with two_goroutines. vm_compute. reflexivity.
  - vm_compute. reflexivity.
Defined.

Lemma ramp_step_accounting_witness :
  exists os : list invocation,
    Forall2 (completed small 1) (m_pool after_two_goroutines) os /\
    length os = Z.to_nat (1 + 1) /\
    numErrors (m_shared after_two_goroutines) 1 =
      wrap32 (Z.of_nat (length (List.filter failed os))) /\
    samples (tach (m_shared after_two_goroutines) 1) ≡ₚ flat_map elapsed_of os /\
    Forall (fun d => 0 <= d) (flat_map elapsed_of os) /\
    calcs (m_log after_two_goroutines) =
      [(1, {| P50 := percentile 50 (flat_map elapsed_of os);
              P75 := percentile 75 (flat_map elapsed_of os);
              P95 := percentile 95 (flat_map elapsed_of os) |})].
Proof.
  apply (ramp_step_accounting small 1 three_conns [10%nat; 11%nat]) with fresh.
  - vm_compute. discriminate.
  - lia.
  - reflexivity.
  - reflexivity.
  - reflexivity.
  - reflexivity.
  - apply run_schedule_reachable with two_goroutines. vm_compute. reflexivity.
  - vm_compute. discriminate.
Defined.

(** [run] as shipped, with a healthy database. *)
Lemma run_transaction_witness :
  exists ext r,
    interp healthy (run shipped (Some 7%nat) 53) [] = ([] ++ ext, Done r) /\
    run_outcome 7%nat (Z.rem 53 (numTables shipped)) ext r.
Proof.
  apply (run_transaction shipped).
  vm_compute. discriminate.
Defined.

(** * Further properties *)

(** ** Calls of a kind in a trace *)

Lemma flat_map_accepted {A : Type} (f : entry -> list A) allowed (ext : trace) :
  (forall en, accepted allowed en -> f en = []) ->
  Forall (accepted allowed) ext -> flat_map f ext = [].
Proof.
  intros Hf. induction 1 as [| en ext Hen _ IH]; simpl; [done |].
  by rewrite (Hf _ Hen), IH.
Qed.

Lemma acquired_app tr tr' : acquired (tr ++ tr') = acquired tr ++ acquired tr'.
Proof. apply flat_map_app. Qed.

Lemma creates_app tr tr' : creates (tr ++ tr') = creates tr ++ creates tr'.
Proof. apply flat_map_app. Qed.

Lemma drops_app tr tr' : drops (tr ++ tr') = drops tr ++ drops tr'.
Proof. apply flat_map_app. Qed.

Lemma create_failures_app tr tr' :
  create_failures (tr ++ tr') = create_failures tr ++ create_failures tr'.
Proof. apply flat_map_app. Qed.

Lemma drop_failures_app tr tr' :
  drop_failures (tr ++ tr') = drop_failures tr ++ drop_failures tr'.
Proof. apply flat_map_app. Qed.

Lemma close_failures_app tr tr' :
  close_failures (tr ++ tr') = close_failures tr ++ close_failures tr'.
Proof. apply flat_map_app. Qed.

Lemma begins_app tr tr' : begins (tr ++ tr') = begins tr ++ begins tr'.
Proof. apply flat_map_app. Qed.

Lemma db_closes_app tr tr' : db_closes (tr ++ tr') = db_closes tr ++ db_closes tr'.
Proof. apply flat_map_app. Qed.

Lemma dones_app tr tr' : dones (tr ++ tr') = dones tr ++ dones tr'.
Proof. apply flat_map_app. Qed.

Lemma tables_used_app tr tr' : tables_used (tr ++ tr') = tables_used tr ++ tables_used tr'.
Proof. apply flat_map_app. Qed.

Lemma statement_failures_app tr tr' :
  statement_failures (tr ++ tr') = statement_failures tr ++ statement_failures tr'.
Proof. apply flat_map_app. Qed.

Lemma bracket_failures_app tr tr' :
  bracket_failures (tr ++ tr') = bracket_failures tr ++ bracket_failures tr'.
Proof. apply flat_map_app. Qed.

Create Rewrite HintDb kinds.
#[local] Hint Rewrite acquired_app creates_app drops_app create_failures_app
  drop_failures_app close_failures_app begins_app db_closes_app dones_app
  tables_used_app closes_app attempts_app gos_app stderr_app
  workload_errors_app calcs_app statement_failures_app bracket_failures_app : kinds.

(** No call of the kind asked for is among calls of a class that has none. *)
Ltac absent :=
  match goal with
  | H : Forall (accepted ?c) ?ext |- _ ?ext = [] =>
      apply (flat_map_accepted _ c ext); [| exact H];
      let X := fresh "X" in
      let e := fresh "e" in
      let x := fresh "x" in
      let He := fresh "He" in
      intros [X e x] He; destruct e; simpl in He |- *;
      try discriminate He; try reflexivity;
      repeat match goal with w : stream |- _ => destruct w end;
      try discriminate He; reflexivity
  end.

(** ** Open transactions and calls that do not return *)

Lemma open_after_app (h : handle) (n : nat) (a b : trace) :
  open_after h n (a ++ b) = open_after h (open_after h n a) b.
Proof. apply foldl_app. Qed.

Lemma open_after_accepted allowed (h : handle) (ext : trace) :
  (forall en n, accepted allowed en -> tx_step h n en = n) ->
  Forall (accepted allowed) ext -> forall n, open_after h n ext = n.
Proof.
  intros Hf. induction 1 as [| en ext Hen _ IH]; intros n; [reflexivity |].
  unfold open_after in *. simpl. by rewrite (Hf _ _ Hen), IH.
Qed.

(** Calls of a class without [BeginTx] and [Commit] leave the open
    transactions as they are. *)
Ltac unmoved :=
  match goal with
  | H : Forall (accepted ?c) ?ext |- open_after ?h ?n ?ext = ?n =>
      apply (open_after_accepted c h ext); [| exact H];
      let X := fresh "X" in
      let e := fresh "e" in
      let x := fresh "x" in
      let m := fresh "m" in
      let He := fresh "He" in
      intros [X e x] m He; destruct e; simpl in He |- *;
      try discriminate He; reflexivity
  end.

Lemma settled_app (a b : trace) : settled a -> settled b -> settled (a ++ b).
Proof. intros Ha Hb h n. by rewrite open_after_app, Ha, Hb. Qed.

Lemma leaves_open_app (c : handle) (a b : trace) :
  settled a -> leaves_open c b -> leaves_open c (a ++ b).
Proof. intros Ha Hb h n. by rewrite open_after_app, Ha, Hb. Qed.

Lemma failures_of_workload (tr : trace) :
  workload_errors tr = [] -> statement_failures tr = [] /\ bracket_failures tr = [].
Proof.
  induction tr as [| [X e x] tr IH]; [by split |].
  unfold workload_errors, statement_failures, bracket_failures in *. cbn [flat_map].
  intros H. apply app_eq_nil in H as [He Htr]. destruct (IH Htr) as [-> ->].
  rewrite !app_nil_r. destruct e; simpl in He |- *; try done; by destruct x.
Qed.

Lemma exec_settle {R : Type} (o : oracle) (w : holding) (p : prog R) :
  forall tr, exists ext,
    interp o p tr = (tr ++ ext, snd (interp o p tr)) /\
    exec o w p tr = settle w tr ext (snd (interp o p tr)).
Proof.
  induction p as [r | v | X e k IH]; intros tr.
  - exists []. by rewrite app_nil_r.
  - exists []. by rewrite app_nil_r.
  - destruct (IH (o X tr e) (tr ++ [Entry e (o X tr e)])) as (ext & Hi & He).
    exists (Entry e (o X tr e) :: ext). cbn [interp exec settle].
    rewrite Hi at 1. rewrite <- app_assoc. split; [reflexivity |].
    destruct (blocked w tr e); [reflexivity | exact He].
Qed.

Lemma exec_settle_start {R : Type} (o : oracle) (w : holding) (p : prog R) :
  exec o w p [] = settle w [] (fst (interp o p [])) (snd (interp o p [])).
Proof.
  destruct (exec_settle o w p []) as (ext & Hi & He). by rewrite He, Hi.
Qed.

(** The calls that have returned are among those made when every call
    returns. *)
Lemma settle_prefix {R : Type} (w : holding) (ext : trace) (r : exit R) :
  forall tr, exists rest, tr ++ ext = fst (settle w tr ext r) ++ rest.
Proof.
  induction ext as [| [X e x] ext IH]; intros tr; simpl.
  - by exists [].
  - destruct (blocked w tr e).
    + by exists (Entry e x :: ext).
    + destruct (IH (tr ++ [Entry e x])) as [rest Hrest].
      exists rest. by rewrite <- Hrest, <- app_assoc.
Qed.

Lemma settle_kind {R A : Type} (f : entry -> list A) (w : holding) (ext : trace)
    (r : exit R) :
  flat_map f ext = [] -> flat_map f (fst (settle w [] ext r)) = [].
Proof.
  destruct (settle_prefix w ext r []) as [rest Hrest]. simpl in Hrest.
  rewrite Hrest at 1. rewrite flat_map_app. intros H. by apply app_eq_nil in H as [-> _].
Qed.

(** A run that ends has made the calls it makes when every call returns,
    and ends in the same way. *)
Lemma settle_ended {R : Type} (w : holding) (ext : trace) (r x : exit R) :
  forall tr, snd (settle w tr ext r) = Ended x ->
             settle w tr ext r = (tr ++ ext, Ended r) /\ x = r.
Proof.
  induction ext as [| [X e y] ext IH]; intros tr; simpl.
  - intros H. injection H as ->. by rewrite app_nil_r.
  - destruct (blocked w tr e); [discriminate |].
    intros H. destruct (IH _ H) as [-> ->]. by rewrite <- app_assoc.
Qed.

Lemma exec_ended {R : Type} (o : oracle) (w : holding) (p : prog R) (tr : trace)
    (x : exit R) :
  snd (exec o w p tr) = Ended x -> interp o p tr = (fst (exec o w p tr), x).
Proof.
  destruct (exec_settle o w p tr) as (ext & Hi & He). rewrite He. intros H.
  destruct (settle_ended _ _ _ _ _ H) as [-> ->]. exact Hi.
Qed.

(** Calls other than [Close] return. *)
Lemma settle_app {R : Type} (w : holding) (a b : trace) (r : exit R) :
  closes a = [] -> forall tr, settle w tr (a ++ b) r = settle w (tr ++ a) b r.
Proof.
  induction a as [| [X e x] a IH]; intros Ha tr; simpl.
  - by rewrite app_nil_r.
  - unfold closes in Ha. cbn [flat_map] in Ha. apply app_eq_nil in Ha as [He Ha].
    rewrite IH by exact Ha. rewrite <- app_assoc.
    destruct e; try reflexivity. discriminate He.
Qed.

Lemma closing_step (w : holding) (tr : trace) (en : entry) (h : handle) :
  accepted closing en ->
  open_txs h (tr ++ [en]) = open_txs h tr /\ gos (tr ++ [en]) = gos tr.
Proof.
  destruct en as [X e x]. intros He. unfold open_txs. rewrite open_after_app, gos_app.
  destruct e; simpl in He |- *; try discriminate He; by rewrite ?app_nil_r.
Qed.

(** The first deferred function returns from every [Close] when no
    transaction is open on the connections it closes and no goroutine
    holds one. *)
Lemma settle_closing_free {R : Type} (w : holding) (cl : trace) (r : exit R) :
  Forall (accepted closing) cl ->
  forall tr,
    (forall h, In h (closes cl) ->
               open_txs h tr = 0%nat /\
               (existsb (goroutine_on h) (gos tr) = false \/ forall tr', w tr' h = false)) ->
    settle w tr cl r = (tr ++ cl, Ended r).
Proof.
  induction 1 as [| [X e x] cl He _ IH]; intros tr Hfree; simpl.
  - by rewrite app_nil_r.
  - assert (Hnext : settle w (tr ++ [Entry e x]) cl r = (tr ++ Entry e x :: cl, Ended r)).
    { rewrite IH; [by rewrite <- app_assoc |].
      intros h Hh. destruct (closing_step w tr (Entry e x) h He) as [-> ->].
      apply Hfree. unfold closes. cbn [flat_map]. apply in_or_app. by right. }
    destruct e; try exact Hnext. unfold blocked, waits.
    destruct (Hfree c) as [-> Hgo]; [by left |].
    destruct Hgo as [-> | ->]; simpl; [exact Hnext | by rewrite andb_false_r].
Qed.

(** Calls without [BeginTx] and [Commit] all return when no transaction
    is open before them and no goroutine holds one. *)
Lemma settle_unbracketed_free {R : Type} (w : holding) (ext : trace) (r : exit R) :
  (forall tr h, w tr h = false) ->
  Forall (accepted unbracketed) ext ->
  forall tr, (forall h, open_txs h tr = 0%nat) ->
             settle w tr ext r = (tr ++ ext, Ended r).
Proof.
  intros Hw. induction 1 as [| [X e x] ext He _ IH]; intros tr Hfree; simpl.
  - by rewrite app_nil_r.
  - assert (Hnext : settle w (tr ++ [Entry e x]) ext r = (tr ++ Entry e x :: ext, Ended r)).
    { rewrite IH; [by rewrite <- app_assoc |].
      intros h. unfold open_txs. rewrite open_after_app. fold (open_txs h tr).
      rewrite Hfree. destruct e; try reflexivity; discriminate He. }
    destruct e; try exact Hnext. unfold blocked, waits.
    by rewrite Hfree, Hw, andb_false_r.
Qed.

(** It hangs at the first connection with an open transaction. *)
Lemma settle_closing_hung {R : Type} (w : holding) (a : handle) (cl : trace) (r : exit R) :
  Forall (accepted closing) cl -> In a (closes cl) ->
  forall tr,
    (forall h, In h (closes cl) -> (0 <? open_txs h tr)%nat = (a =? h)%nat) ->
    (forall h, In h (closes cl) -> existsb (goroutine_on h) (gos tr) = false) ->
    exists before rest,
      cl = before ++ rest /\ settle w tr cl r = (tr ++ before, Hung a) /\
      Forall (accepted closing) before /\ ~ In a (closes before).
Proof.
  induction 1 as [| [X e x] cl He _ IH]; intros Hin tr Hopen Hgo; [destruct Hin |].
  assert (Hnext : ~ In a (close_of (Entry e x)) ->
            exists before rest,
              Entry e x :: cl = before ++ rest /\
              settle w (tr ++ [Entry e x]) cl r = (tr ++ before, Hung a) /\
              Forall (accepted closing) before /\ ~ In a (closes before)).
  { intros Hfirst.
    assert (Hrest : In a (closes cl)).
    { unfold closes in Hin. cbn [flat_map] in Hin. apply in_app_or in Hin as [H | H]; done. }
    destruct (IH Hrest (tr ++ [Entry e x])) as (before & rest & -> & Hs & Hb & Hnot).
    - intros h Hh. destruct (closing_step w tr (Entry e x) h He) as [-> _].
      apply Hopen. unfold closes. cbn [flat_map]. apply in_or_app. by right.
    - intros h Hh. destruct (closing_step w tr (Entry e x) h He) as [_ ->].
      apply Hgo. unfold closes. cbn [flat_map]. apply in_or_app. by right.
    - exists (Entry e x :: before), rest. rewrite Hs, <- app_assoc.
      split; [reflexivity |]. split; [reflexivity |]. split; [by constructor |].
      unfold closes in *. cbn [flat_map]. intros H.
      apply in_app_or in H as [H | H]; done. }
  destruct e; simpl in He; try discriminate He.
  - cbn [settle]. unfold blocked, waits.
    rewrite (Hopen c), (Hgo c) by (by left). simpl. rewrite orb_false_r.
    destruct (a =? c)%nat eqn:E.
    + apply Nat.eqb_eq in E as <-. exists [], (Entry (ConnClose a) x :: cl).
      rewrite app_nil_r. repeat split; auto.
    + apply Hnext. simpl. intros [H | []]. subst c. by rewrite Nat.eqb_refl in E.
  - cbn [settle]. apply Hnext. simpl. tauto.
Qed.

(** ** The backoff of [establishConnection] *)

Lemma draws_wp (n : nat) :
  forall (j : Z) (x : float64) (tr0 : trace),
    wp acquiring
       (fun tr r => exists draws, length draws = n /\
          tr = tr0 ++ ((fun y => Entry RandFloat64 y) <$> draws) /\
          r = inl (foldl F64add x draws))
       (for_loop (R := Empty_set) n j
          (fun _ sleepTime => y <- call RandFloat64 ;; Ret (inl (F64add sleepTime y))) x)
       tr0.
Proof.
  induction n as [| n IH]; intros j x tr0.
  - rewrite for_loop_O. exists []. by rewrite app_nil_r.
  - rewrite for_loop_S. simpl. split; [reflexivity |]. intros y.
    eapply wp_mono; [| apply IH].
    intros tr r (draws & Hlen & -> & ->). exists (y :: draws). simpl.
    rewrite <- app_assoc. auto.
Qed.

Lemma establishConnection_rounds_wp (tr0 : trace) :
  wp acquiring
     (fun tr _ => exists (rounds : list (error * list float64)) (final : error + handle),
        tr = tr0 ++ flat_map backoff_round rounds ++ [Entry DbConn final] /\
        (forall k r, rounds !! k = Some r -> length (snd r) = S k) /\
        (length rounds <= 4)%nat /\
        (forall err, final = inl err -> length rounds = 4%nat))
     establishConnection tr0.
Proof.
  unfold establishConnection, for_range. apply wp_bind.
  apply wp_for_loop
    with (I := fun n i (_ : unit) tr =>
                 (0 < n)%nat /\ i = connRetries - Z.of_nat n /\
                 exists rounds, tr = tr0 ++ flat_map backoff_round rounds /\
                   Z.of_nat (length rounds) = i /\
                   forall k r, rounds !! k = Some r -> length (snd r) = S k).
  - intros n i [] tr (_ & Hi & rounds & -> & Hlen & Hrounds).
    simpl. split; [reflexivity |]. intros [err | h]; simpl.
    + destruct (i =? connRetries - 1) eqn:Hlast; simpl.
      * apply Z.eqb_eq in Hlast. exists rounds, (inl err).
        rewrite <- app_assoc. unfold connRetries in *.
        repeat split; auto; lia.
      * apply Z.eqb_neq in Hlast. apply wp_bind. unfold for_range.
        eapply wp_mono; [| apply draws_wp].
        intros tr' r (draws & Hdraws & -> & ->). simpl.
        split; [reflexivity |]. intros [].
        split; [unfold connRetries in *; lia |]. split; [lia |].
        exists (rounds ++ [(err, draws)]). repeat split.
        -- rewrite flat_map_app. simpl. unfold backoff_round at 2. simpl.
           rewrite app_nil_r, <- !app_assoc. reflexivity.
        -- rewrite length_app. simpl. lia.
        -- intros k r Hk. apply lookup_app_Some in Hk as [Hk | [Hge Hk]]; [eauto |].
           apply list_lookup_singleton_Some in Hk as [Hk <-]. simpl. lia.
    + exists rounds, (inr h). rewrite <- app_assoc. unfold connRetries in *.
      repeat split; auto; [lia | discriminate].
  - intros i [] tr (Hn & _). lia.
  - split; [unfold connRetries; lia |]. split; [unfold connRetries; lia |].
    exists []. simpl. rewrite app_nil_r. repeat split; auto.
    intros k r Hk. by rewrite lookup_nil in Hk.
Qed.

(** X1: between two attempts [establishConnection] backs off: after the
    [k]-th failed call of [db.Conn], for [k] from 1 to 4, it draws [k]
    random numbers and sleeps once, for their sum taken as seconds; it
    does not sleep after the fifth failure, nor after a success, and makes
    no other call. *)
Theorem establishConnection_backoff (o : oracle) (tr0 : trace) :
  exists (rounds : list (error * list float64)) (final : error + handle),
    fst (interp o establishConnection tr0) =
      tr0 ++ flat_map backoff_round rounds ++ [Entry DbConn final] /\
    (forall k r, rounds !! k = Some r -> length (snd r) = S k) /\
    (length rounds <= 4)%nat /\
    (forall err, final = inl err -> length rounds = 4%nat).
Proof.
  destruct (wp_interp _ _ o _ _ (establishConnection_rounds_wp tr0)) as (r & _ & H).
  exact H.
Qed.

(** ** The goroutine and its deferred [wg.Done] *)

Lemma wpx_finally {A : Type} allowed (Q : trace -> exit A -> Prop) (p : prog A)
    (d : prog unit) :
  forall tr,
    wpx allowed
        (fun tr' r =>
           wpx allowed (fun tr2 rd => Q tr2 (match rd with
                                             | Done _ => r
                                             | Panicked v => Panicked v
                                             end)) d tr') p tr ->
    wpx allowed Q (finally p d) tr.
Proof.
  induction p as [r | v | X e k IH]; simpl; intros tr H.
  - apply wpx_bind. eapply wpx_mono; [| exact H]. by intros tr' [[] | v'].
  - apply wpx_bind. eapply wpx_mono; [| exact H]. by intros tr' [[] | v'].
  - destruct H as [He Hk]. split; [exact He | intros x; apply IH, Hk].
Qed.

Lemma wpx_interp {R : Type} allowed (Q : trace -> exit R -> Prop) (o : oracle) (p : prog R) :
  forall tr, wpx allowed Q p tr -> Q (fst (interp o p tr)) (snd (interp o p tr)).
Proof.
  induction p as [r | v | X e k IH]; simpl; intros tr H; auto.
  destruct H as [_ Hk]. apply IH, Hk.
Qed.

Section GoroutineFacts.

Variable cfg : config.

(** [run] on its own: its calls, and whether it returns. *)
Lemma run_exit_wpx (c : conn) (w : Z) (tr : trace) :
  wpx any_event
      (fun tr' r => exists ext, tr' = tr ++ ext /\ Forall (accepted working) ext /\
         match r with
         | Done _ => numTables cfg <> 0 /\ c <> None
         | Panicked v =>
             v = (if numTables cfg =? 0 then divide_by_zero else nil_dereference) /\
             (numTables cfg = 0 \/ c = None)
         end)
      (run cfg c w) tr.
Proof.
  destruct (numTables cfg =? 0) eqn:Hz.
  { unfold run. rewrite Hz. simpl. exists []. rewrite app_nil_r.
    apply Z.eqb_eq in Hz. auto. }
  apply Z.eqb_neq in Hz. destruct c as [tx |].
  - pose proof (wp_frame _ _ _ tr _ (run_wp cfg Hz tx w)) as H.
    rewrite app_nil_r in H. apply wp_accepted_from in H.
    apply wp_wpx, wpx_any in H. eapply wpx_mono; [| exact H].
    intros tr' [r | v] Hr; [| destruct Hr].
    destruct Hr as (_ & ext & -> & Hext). exists ext. auto.
  - unfold run. apply Z.eqb_neq in Hz. rewrite Hz. simpl.
    split; [reflexivity |]. intros start. exists [Entry Now start].
    split; [reflexivity |]. split; [by repeat constructor | auto].
Qed.

Lemma work_loop_wpx (c : conn) (i : Z) (tr0 : trace) :
  wpx any_event
      (fun tr' r => exists ext,
         tr' = tr0 ++ ext ++ [Entry (WgDone i) tt] /\ dones ext = [] /\
         r = if numTables cfg =? 0 then Panicked divide_by_zero
             else match c with
                  | Some _ => Done tt
                  | None => Panicked nil_dereference
                  end)
      (work_loop cfg c i) tr0.
Proof.
  unfold work_loop. apply wpx_finally, wpx_bind.
  eapply wpx_mono; [| apply run_exit_wpx].
  intros tr1 [[d err] | v] (ext & -> & Hext & Hr).
  - destruct Hr as [Hz Hc]. apply Z.eqb_neq in Hz. rewrite Hz.
    destruct c as [h |]; [| done].
    assert (Hd : dones ext = []) by absent.
    destruct err as [err |]; simpl.
    + split; [reflexivity |]. intros n. split; [reflexivity |]. intros [].
      split; [reflexivity |]. intros [].
      eexists (ext ++ [_; _]). rewrite <- !app_assoc. split; [reflexivity |].
      by rewrite dones_app, Hd.
    + split; [reflexivity |]. intros []. split; [reflexivity |]. intros [].
      eexists (ext ++ [_]). rewrite <- !app_assoc. split; [reflexivity |].
      by rewrite dones_app, Hd.
  - destruct Hr as [-> Hr]. simpl. split; [reflexivity |]. intros [].
    exists ext. rewrite <- app_assoc. split; [reflexivity |].
    split; [absent |].
    destruct (numTables cfg =? 0) eqn:Hz; [reflexivity |].
    apply Z.eqb_neq in Hz. destruct Hr as [Hr | ->]; [done | reflexivity].
Qed.

(** X2: the goroutine of the benchmark loop calls [wg.Done] exactly once,
    as its last call, however [run] ends: after a result, after an error,
    and also when [run] panics on a nil connection or divides by a zero
    [numTables]; in these two cases the panic goes on after [wg.Done]. *)
Theorem work_loop_always_done (o : oracle) (c : conn) (i : Z) (tr0 : trace) :
  exists ext,
    interp o (work_loop cfg c i) tr0 =
      (tr0 ++ ext ++ [Entry (WgDone i) tt],
       if numTables cfg =? 0 then Panicked divide_by_zero
       else match c with
            | Some _ => Done tt
            | None => Panicked nil_dereference
            end) /\
    dones ext = [].
Proof.
  pose proof (wpx_interp _ _ o _ _ (work_loop_wpx c i tr0)) as (ext & Htr & Hd & Hr).
  exists ext. split; [| exact Hd].
  rewrite (surjective_pairing (interp o (work_loop cfg c i) tr0)).
  by rewrite Htr, Hr.
Qed.

End GoroutineFacts.

(** ** The parts of [main], one by one *)

Lemma wp_Printf (Q : trace -> exit unit * slots -> Prop) format args (s : slots) tr :
  Q (tr ++ [Entry (Fprintf Stdout format args) tt]) (Done tt, s) ->
  wp any_event Q (Printf format args s) tr.
Proof. intros H. simpl. split; [reflexivity |]. by intros []. Qed.

Lemma wp_Eprintf (Q : trace -> exit unit * slots -> Prop) format args (s : slots) tr :
  Q (tr ++ [Entry (Fprintf Stderr format args) tt]) (Done tt, s) ->
  wp any_event Q (Eprintf format args s) tr.
Proof. intros H. simpl. split; [reflexivity |]. by intros []. Qed.

Lemma wp_get_conn (Q : trace -> exit conn * slots -> Prop) (s : slots) (k : nat) tr :
  match s !! k with
  | Some c => Q tr (Done c, s)
  | None => Q tr (Panicked index_out_of_range, s)
  end ->
  wp any_event Q (get_conn (Z.of_nat k) s) tr.
Proof.
  intros H. unfold get_conn, lift, index.
  destruct (Z.of_nat k <? 0) eqn:Hneg; [apply Z.ltb_lt in Hneg; lia |].
  rewrite Nat2Z.id. by destruct (s !! k).
Qed.

(** A part of [main] that is quiet satisfies what it satisfies with calls
    of its class. *)
Lemma wp_quiet_and {R : Type} allowed (Q : trace -> exit R * slots -> Prop)
    (m : mainM R) (s : slots) (tr : trace) :
  quiet allowed m -> wp any_event Q (m s) tr ->
  wp any_event (fun tr' r => Q tr' r /\
                  exists ext, tr' = tr ++ ext /\ Forall (accepted allowed) ext)
     (m s) tr.
Proof.
  intros Hq HQ.
  pose proof (wp_accepted_from _ _ _ _ (Hq s tr)) as H1. apply wp_any in H1.
  eapply wp_mono; [| apply (wp_and _ _ _ _ _ HQ H1)].
  intros tr' r (H & _ & Hext). auto.
Qed.

Lemma acquired_attempts (tr : trace) :
  acquired tr =
  flat_map (fun r => match r with inr h => [h] | inl _ => [] end) (attempts tr).
Proof.
  induction tr as [| [X e x] tr IH]; [reflexivity |].
  unfold acquired, attempts in *. simpl. rewrite flat_map_app, IH. f_equal.
  destruct e; simpl; try reflexivity. by rewrite app_nil_r.
Qed.

Lemma failures_acquire_nothing (fails : list error) :
  flat_map (fun r : error + handle => match r with inr h => [h] | inl _ => [] end)
           (inl <$> fails) = [].
Proof. induction fails as [| f fails IH]; simpl; auto. Qed.

Lemma established_acquired (ext : trace) (c : conn) (err : option error) :
  established ext (c, err) ->
  acquired ext = match c with Some h => [h] | None => [] end /\
  (c = None <-> err <> None) /\
  (forall e, err = Some e -> exists cause, e = "Error opening connection: " +:+ cause).
Proof.
  intros (fails & [(h & Hatt & _ & Heq) | (e & Hatt & _ & Heq)]);
    injection Heq as -> ->;
    rewrite acquired_attempts, Hatt, flat_map_app, failures_acquire_nothing.
  - split; [reflexivity |]. split; [done |]. intros e He. discriminate.
  - split; [reflexivity |]. split; [done |]. intros e' He. injection He as <-. eauto.
Qed.

Lemma last_acquired_none (ext : trace) : attempts ext = [] -> last_acquired ext.
Proof. intros H err. by rewrite H. Qed.

Lemma last_acquired_app (a b : trace) :
  last_acquired a -> last_acquired b -> last_acquired (a ++ b).
Proof.
  intros Ha Hb err. rewrite attempts_app, last_app.
  destruct (last (attempts b)) eqn:E; [rewrite <- E; apply Hb | apply Ha].
Qed.

Lemma last_acquired_last (a b : trace) (h : handle) :
  last (attempts b) = Some (inr h) -> last_acquired (a ++ b).
Proof. intros Hb err. by rewrite attempts_app, last_app, Hb. Qed.

Lemma fill_slot (A : list handle) (c : conn) (m : nat) :
  <[length A := c]> ((Some <$> A) ++ replicate (S m) None) =
  (Some <$> A) ++ c :: replicate m None.
Proof.
  rewrite insert_app_r_alt by (rewrite length_fmap; lia).
  by rewrite length_fmap, Nat.sub_diag.
Qed.

Lemma zip_seqZ_snoc {A : Type} (l : list A) (k : nat) (a : A) :
  l !! k = Some a ->
  zip l (seqZ 0 (Z.of_nat k + 1)) = zip l (seqZ 0 (Z.of_nat k)) ++ [(a, Z.of_nat k)].
Proof.
  intros Hk. rewrite seqZ_app by lia.
  rewrite zip_with_app_r, length_seqZ, Nat2Z.id.
  rewrite (drop_S _ _ _ Hk). f_equal.
  - rewrite <- (zip_with_take_l pair l (seqZ 0 (Z.of_nat k))).
    by rewrite length_seqZ, Nat2Z.id.
  - unfold seqZ. simpl. rewrite zip_with_nil_r. repeat f_equal.
Qed.

Lemma seqZ_to_nat (m n : Z) : seqZ m (Z.of_nat (Z.to_nat n)) = seqZ m n.
Proof. unfold seqZ. by rewrite Nat2Z.id. Qed.

(** *** The connections open at a time *)

Lemma pool_peak_ge (lvl : Z) (tr : trace) : lvl <= pool_peak lvl tr.
Proof. destruct tr; simpl; lia. Qed.

Lemma pool_level_peak (tr : trace) : forall lvl, pool_level lvl tr <= pool_peak lvl tr.
Proof.
  induction tr as [| en tr IH]; intros lvl; simpl; [unfold pool_level; simpl; lia |].
  specialize (IH (lvl + pool_change en)). unfold pool_level in *. simpl. lia.
Qed.

Lemma pool_peak_app (a b : trace) :
  forall lvl, pool_peak lvl (a ++ b) = Z.max (pool_peak lvl a) (pool_peak (pool_level lvl a) b).
Proof.
  induction a as [| en a IH]; intros lvl; simpl.
  - pose proof (pool_peak_ge lvl b). unfold pool_level. simpl. lia.
  - rewrite IH. unfold pool_level. simpl. lia.
Qed.

Lemma steady_app (a b : trace) : steady a -> steady b -> steady (a ++ b).
Proof.
  intros Ha Hb lvl. rewrite pool_peak_app.
  specialize (Ha lvl). specialize (Hb (pool_level lvl a)).
  pose proof (pool_level_peak a lvl). lia.
Qed.

Lemma steady_releasing (ext : trace) : Forall (accepted releasing) ext -> steady ext.
Proof.
  induction 1 as [| [X e x] ext He _ IH]; intros lvl; cbn [pool_peak]; [lia |].
  assert (Hc : pool_change (Entry e x) <= 0).
  { destruct e; simpl; try lia; try discriminate He. destruct x; lia. }
  specialize (IH (lvl + pool_change (Entry e x))). lia.
Qed.

Lemma pool_peak_acquired (ext : trace) :
  forall lvl, pool_peak lvl ext <= lvl + Z.of_nat (length (acquired ext)).
Proof.
  induction ext as [| [X e x] ext IH]; intros lvl; cbn [pool_peak]; [simpl; lia |].
  unfold acquired in *. cbn [flat_map]. rewrite length_app.
  specialize (IH (lvl + pool_change (Entry e x))).
  assert (Hc : pool_change (Entry e x) <= Z.of_nat (length (acquire_of (Entry e x)))).
  { destruct e; simpl; try lia; destruct x; simpl; lia. }
  lia.
Qed.

(** Closing a connection and then acquiring at most one. *)
Lemma steady_replace (h : handle) (x : option error) (ext1 rest : trace) :
  (x = None /\ (length (acquired ext1) <= 1)%nat) \/ ext1 = [] ->
  steady rest -> steady (Entry (ConnClose h) x :: ext1 ++ rest).
Proof.
  intros Hx Hrest. change (Entry (ConnClose h) x :: ext1 ++ rest)
    with ((Entry (ConnClose h) x :: ext1) ++ rest).
  apply steady_app; [| exact Hrest]. intros lvl.
  destruct Hx as [[-> Hone] | ->]; simpl.
  - pose proof (pool_peak_acquired ext1 (lvl + -1)). lia.
  - destruct x; lia.
Qed.

Section MainParts.

Variable cfg : config.

Lemma quiet_printing_reporting (i : Z) : quiet printing (reporting i).
Proof. unfold reporting, print_report. repeat quiet_step. Qed.

(** *** Lines 32 to 42 *)

Lemma establish_connections_wp (s : slots) (tr : trace) :
  wp any_event
     (fun tr' r => exists ext, tr' = tr ++ ext /\ Forall (accepted connecting) ext /\
        match fst r with
        | Done _ =>
            exists A, snd r = Some <$> A /\ acquired ext = A /\
                      Z.of_nat (length A) = numLoops cfg /\ last_acquired ext
        | Panicked v =>
            (numLoops cfg < 0 /\ v = makeslice_out_of_range /\ acquired ext = []) \/
            (exists err, Z.of_nat (length (acquired ext)) < numLoops cfg /\
                         v = "Error establishing connections: " +:+
                             ("Error opening connection: " +:+ err))
        end)
     (establish_connections cfg s) tr.
Proof.
  unfold establish_connections.
  do 3 apply wp_mbind, wp_Printf. apply wp_mbind.
  rewrite <- !app_assoc. simpl.
  set (banner := [_; _; _]).
  assert (Hbanner : Forall (accepted connecting) banner) by (by repeat constructor).
  unfold make_conns. destruct (numLoops cfg <? 0) eqn:Hneg; simpl.
  { apply Z.ltb_lt in Hneg. exists banner. split; [done |]. split; [done |]. by left. }
  apply Z.ltb_ge in Hneg. unfold main_range. rewrite Z.sub_0_r.
  apply wp_main_loop
    with (I := fun m i s' tr' =>
                 exists A ext, tr' = tr ++ ext /\ Forall (accepted connecting) ext /\
                   acquired ext = A /\ i = Z.of_nat (length A) /\
                   (length A + m)%nat = Z.to_nat (numLoops cfg) /\
                   s' = (Some <$> A) ++ replicate m None /\ last_acquired ext).
  - intros m i s' tr' (A & ext & -> & Hext & HA & -> & Hm & -> & Hlast).
    apply wp_mbind, wp_lift.
    pose proof (wp_accepted_from _ _ _ _ (establishConnection_wp (tr ++ ext))) as H.
    apply wp_any, wp_wpx in H. eapply wpx_mono; [| exact H].
    intros tr2 [[c err] | v] Hr; [| destruct Hr].
    destruct Hr as ((ext2 & -> & Hest) & (ext2' & Heq & Hacc)).
    apply app_inv_head in Heq as <-.
    destruct (established_acquired _ _ _ Hest) as (Hacq & Hnil & Hmsg).
    assert (Hext2 : Forall (accepted connecting) (ext ++ ext2)).
    { apply Forall_app. split; [exact Hext |].
      apply accepted_allow with acquiring; [| exact Hacc]. intros X e. by destruct e. }
    apply wp_mbind. unfold set_conn.
    rewrite length_app, length_fmap, length_replicate.
    destruct ((0 <=? Z.of_nat (length A)) &&
              (Z.of_nat (length A) <? Z.of_nat (length A + S m))) eqn:Hrange.
    2: { apply andb_false_iff in Hrange as [Hr | Hr];
           [apply Z.leb_gt in Hr | apply Z.ltb_ge in Hr]; lia. }
    rewrite Nat2Z.id, fill_slot. simpl.
    destruct err as [err |]; simpl.
    + destruct (Hmsg err eq_refl) as [cause ->].
      exists (ext ++ ext2). split; [by rewrite app_assoc |]. split; [exact Hext2 |].
      right. exists cause. split; [| reflexivity].
      assert (c = None) as -> by (apply Hnil; discriminate).
      rewrite acquired_app, HA, Hacq, app_nil_r. lia.
    + destruct c as [h |]; [| exfalso; by apply Hnil].
      exists (A ++ [h]), (ext ++ ext2). split; [by rewrite app_assoc |].
      split; [exact Hext2 |]. rewrite acquired_app, HA, Hacq, length_app. simpl.
      split; [reflexivity |]. split; [lia |]. split; [lia |].
      split; [by rewrite fmap_app, <- app_assoc |].
      apply (last_acquired_last _ _ h), established_last, Hest.
  - intros i s' tr' (A & ext & -> & Hext & HA & -> & Hm & -> & Hlast). simpl.
    exists ext. split; [done |]. split; [done |].
    exists A. rewrite app_nil_r. repeat split; auto. lia.
  - exists [], banner. simpl. repeat split; auto. by apply last_acquired_none.
Qed.

(** *** Lines 57 to 71 *)

Lemma create_tables_wp (hs : list handle) (tr : trace) :
  wp any_event
     (fun tr' r => exists ext, tr' = tr ++ ext /\ Forall (accepted creating) ext /\
        snd r = Some <$> hs /\
        match fst r with
        | Done _ =>
            numTables cfg <= Z.of_nat (length hs) /\
            creates ext = zip hs (seqZ 0 (numTables cfg)) /\ create_failures ext = []
        | Panicked v =>
            exists k : nat,
              creates ext = zip hs (seqZ 0 (Z.of_nat k)) /\ Z.of_nat k <= numTables cfg /\
              ((v = index_out_of_range /\ k = length hs /\
                Z.of_nat k < numTables cfg /\ create_failures ext = []) \/
               (exists err, v = "Error creating table: " +:+ err /\
                            create_failures ext = [err] /\ (0 < k <= length hs)%nat))
        end)
     (create_tables cfg (Some <$> hs)) tr.
Proof.
  unfold create_tables.
  do 3 apply wp_mbind, wp_Printf.
  rewrite <- !app_assoc. simpl.
  set (banner := [_; _; _]).
  assert (Hbanner : Forall (accepted creating) banner) by (by repeat constructor).
  unfold main_range. rewrite Z.sub_0_r.
  apply wp_main_loop
    with (I := fun m i s' tr' =>
                 s' = Some <$> hs /\
                 exists (k : nat) ext, i = Z.of_nat k /\
                   (k + m)%nat = Z.to_nat (numTables cfg) /\ (k <= length hs)%nat /\
                   tr' = tr ++ ext /\ Forall (accepted creating) ext /\
                   creates ext = zip hs (seqZ 0 (Z.of_nat k)) /\ create_failures ext = []).
  - intros m i s' tr' (-> & k & ext & -> & Hm & Hk & -> & Hext & Hcr & Hfail).
    apply wp_mbind, wp_get_conn. rewrite list_lookup_fmap.
    destruct (hs !! k) as [h |] eqn:Hh; simpl.
    + split; [reflexivity |]. intros [err |]; simpl.
      * exists (ext ++ [Entry (CreateTable h (Z.of_nat k)) (Some err)]).
        split; [by rewrite app_assoc |].
        split; [apply Forall_app; split; [done | by repeat constructor] |].
        split; [reflexivity |]. exists (S k).
        rewrite creates_app, create_failures_app, Hcr, Hfail. simpl.
        split; [by rewrite Nat2Z.inj_succ, <- Z.add_1_r, (zip_seqZ_snoc _ _ _ Hh) |].
        split; [lia |]. right. exists err.
        apply lookup_lt_Some in Hh. repeat split; auto; lia.
      * split; [reflexivity |]. exists (S k), (ext ++ [Entry (CreateTable h (Z.of_nat k)) None]).
        apply lookup_lt_Some in Hh as Hlt.
        rewrite creates_app, create_failures_app, Hcr, Hfail. simpl.
        repeat split; auto; try lia.
        -- by rewrite app_assoc.
        -- apply Forall_app; split; [done | by repeat constructor].
        -- by rewrite Nat2Z.inj_succ, <- Z.add_1_r, (zip_seqZ_snoc _ _ _ Hh).
    + apply lookup_ge_None in Hh.
      exists ext. repeat split; auto. exists k. split; [exact Hcr |].
      split; [lia |]. left. repeat split; auto; lia.
  - intros i s' tr' (-> & k & ext & -> & Hm & Hk & -> & Hext & Hcr & Hfail). simpl.
    exists ext. repeat split; auto.
    + lia.
    + rewrite Hcr. replace k with (Z.to_nat (numTables cfg)) by lia.
      by rewrite seqZ_to_nat.
  - split; [reflexivity |]. exists 0%nat, banner. simpl.
    repeat split; auto; try lia.
    change (seqZ 0 (Z.of_nat 0)) with (@nil Z). by rewrite zip_with_nil_r.
Qed.

(** *** Lines 44 to 55 and 73 to 87: the deferred functions *)

Lemma close_connections_wp (s : slots) (hs : list handle) (tr : trace) :
  take (length hs) s = Some <$> hs ->
  Z.of_nat (length hs) = numLoops cfg \/
  (Z.of_nat (length hs) < numLoops cfg /\ s !! length hs = Some None) ->
  wp any_event
     (fun tr' r => exists ext, tr' = tr ++ ext /\ Forall (accepted closing) ext /\
        closes ext = hs /\
        stderr ext = (fun e => (close_error, [VErr e])) <$> close_failures ext /\
        r = (if Z.of_nat (length hs) =? numLoops cfg
             then Done tt else Panicked nil_dereference, s))
     (close_connections cfg s) tr.
Proof.
  intros Hlive Hend. unfold close_connections.
  do 3 apply wp_mbind, wp_Printf.
  rewrite <- !app_assoc. simpl.
  set (banner := [_; _; _]).
  assert (Hbanner : Forall (accepted closing) banner) by (by repeat constructor).
  unfold main_range. rewrite Z.sub_0_r.
  apply wp_main_loop
    with (I := fun m i s' tr' =>
                 s' = s /\
                 exists (k : nat) ext, i = Z.of_nat k /\
                   (k + m)%nat = Z.to_nat (numLoops cfg) /\ (k <= length hs)%nat /\
                   tr' = tr ++ ext /\ Forall (accepted closing) ext /\
                   closes ext = take k hs /\
                   stderr ext = (fun e => (close_error, [VErr e])) <$> close_failures ext).
  - intros m i s' tr' (-> & k & ext & -> & Hm & Hk & -> & Hext & Hcl & Herr).
    apply wp_mbind, wp_get_conn.
    destruct (decide (k < length hs)%nat) as [Hlt | Hge].
    + destruct (lookup_lt_is_Some_2 hs k Hlt) as [h Hh].
      assert (Hs : s !! k = Some (Some h)).
      { rewrite <- (lookup_take_lt s (length hs) k Hlt), Hlive, list_lookup_fmap, Hh.
        reflexivity. }
      rewrite Hs. simpl. split; [reflexivity |]. intros [err |]; simpl.
      * split; [reflexivity |]. intros []. split; [reflexivity |].
        exists (S k), (ext ++ [Entry (ConnClose h) (Some err);
                               Entry (Fprintf Stderr close_error [VErr err]) tt]).
        rewrite closes_app, stderr_app, close_failures_app, fmap_app, Hcl, Herr.
        simpl. rewrite (take_S_r _ _ _ Hh), <- !app_assoc.
        repeat split; auto; try lia.
        apply Forall_app; split; [done | by repeat constructor].
      * split; [reflexivity |].
        exists (S k), (ext ++ [Entry (ConnClose h) None]).
        rewrite closes_app, stderr_app, close_failures_app, fmap_app, Hcl, Herr.
        simpl. rewrite (take_S_r _ _ _ Hh), <- !app_assoc, !app_nil_r.
        repeat split; auto; try lia.
        apply Forall_app; split; [done | by repeat constructor].
    + assert (k = length hs) as -> by lia.
      destruct Hend as [Hend | [Hend Hnil]]; [lia |].
      rewrite Hnil. simpl. exists ext. rewrite take_ge in Hcl by lia.
      repeat split; auto.
      destruct (Z.of_nat (length hs) =? numLoops cfg) eqn:E; [| reflexivity].
      apply Z.eqb_eq in E. lia.
  - intros i s' tr' (-> & k & ext & -> & Hm & Hk & -> & Hext & Hcl & Herr). simpl.
    destruct Hend as [Hend | [Hend Hnil]]; [| lia].
    exists ext. rewrite take_ge in Hcl by lia.
    apply Z.eqb_eq in Hend as E. rewrite E. repeat split; auto.
  - split; [reflexivity |]. exists 0%nat, banner. simpl.
    rewrite take_0. repeat split; auto; lia.
Qed.

Lemma drop_tables_wp (hs : list handle) (tr : trace) :
  numTables cfg <= Z.of_nat (length hs) ->
  wp any_event
     (fun tr' r => exists ext, tr' = tr ++ ext /\ Forall (accepted dropping) ext /\
        drops ext = zip hs (seqZ 0 (numTables cfg)) /\
        stderr ext = (fun e => (drop_error, [VErr e])) <$> drop_failures ext /\
        r = (Done tt, Some <$> hs))
     (drop_tables cfg (Some <$> hs)) tr.
Proof.
  intros Hfit. unfold drop_tables.
  do 3 apply wp_mbind, wp_Printf.
  rewrite <- !app_assoc. simpl.
  set (banner := [_; _; _]).
  assert (Hbanner : Forall (accepted dropping) banner) by (by repeat constructor).
  unfold main_range. rewrite Z.sub_0_r.
  apply wp_main_loop
    with (I := fun m i s' tr' =>
                 s' = Some <$> hs /\
                 exists (k : nat) ext, i = Z.of_nat k /\
                   (k + m)%nat = Z.to_nat (numTables cfg) /\
                   tr' = tr ++ ext /\ Forall (accepted dropping) ext /\
                   drops ext = zip hs (seqZ 0 (Z.of_nat k)) /\
                   stderr ext = (fun e => (drop_error, [VErr e])) <$> drop_failures ext).
  - intros m i s' tr' (-> & k & ext & -> & Hm & -> & Hext & Hdr & Herr).
    apply wp_mbind, wp_get_conn. rewrite list_lookup_fmap.
    destruct (lookup_lt_is_Some_2 hs k ltac:(lia)) as [h Hh].
    rewrite Hh. simpl. split; [reflexivity |]. intros [err |]; simpl.
    + split; [reflexivity |]. intros []. split; [reflexivity |].
      exists (S k), (ext ++ [Entry (DropTable h (Z.of_nat k)) (Some err);
                             Entry (Fprintf Stderr drop_error [VErr err]) tt]).
      rewrite drops_app, stderr_app, drop_failures_app, fmap_app, Hdr, Herr.
      simpl. rewrite <- !app_assoc.
      repeat split; auto; try lia.
      * apply Forall_app; split; [done | by repeat constructor].
      * by rewrite Nat2Z.inj_succ, <- Z.add_1_r, (zip_seqZ_snoc _ _ _ Hh).
    + split; [reflexivity |].
      exists (S k), (ext ++ [Entry (DropTable h (Z.of_nat k)) None]).
      rewrite drops_app, stderr_app, drop_failures_app, fmap_app, Hdr, Herr.
      simpl. rewrite <- !app_assoc, !app_nil_r.
      repeat split; auto; try lia.
      * apply Forall_app; split; [done | by repeat constructor].
      * by rewrite Nat2Z.inj_succ, <- Z.add_1_r, (zip_seqZ_snoc _ _ _ Hh).
  - intros i s' tr' (-> & k & ext & -> & Hm & -> & Hext & Hdr & Herr). simpl.
    exists ext. repeat split; auto.
    rewrite Hdr. replace k with (Z.to_nat (numTables cfg)) by lia.
    by rewrite seqZ_to_nat.
  - split; [reflexivity |]. exists 0%nat, banner. simpl.
    repeat split; auto; try lia.
    change (seqZ 0 (Z.of_nat 0)) with (@nil Z). by rewrite zip_with_nil_r.
Qed.

Lemma zip_seqZ_short {A : Type} (l : list A) (n : Z) :
  Z.of_nat (length l) <= n ->
  zip l (seqZ 0 n) = zip l (seqZ 0 (Z.of_nat (length l))).
Proof.
  intros Hn.
  replace n with (Z.of_nat (length l) + (n - Z.of_nat (length l))) at 1 by lia.
  rewrite seqZ_app by lia.
  rewrite zip_with_app_r, length_seqZ, Nat2Z.id, firstn_all, drop_all. simpl.
  by rewrite app_nil_r.
Qed.

(** The second deferred function on a slice whose first [nil] is behind
    the connections [hs]. *)
Lemma drop_tables_nil_wp (s : slots) (hs : list handle) (tr : trace) :
  take (length hs) s = Some <$> hs -> s !! length hs = Some None ->
  wp any_event
     (fun tr' r => exists ext, tr' = tr ++ ext /\ Forall (accepted dropping) ext /\
        drops ext = zip hs (seqZ 0 (numTables cfg)) /\
        r = (if numTables cfg <=? Z.of_nat (length hs)
             then Done tt else Panicked nil_dereference, s))
     (drop_tables cfg s) tr.
Proof.
  intros Hlive Hnil. unfold drop_tables.
  do 3 apply wp_mbind, wp_Printf.
  rewrite <- !app_assoc. simpl.
  set (banner := [_; _; _]).
  assert (Hbanner : Forall (accepted dropping) banner) by (by repeat constructor).
  unfold main_range. rewrite Z.sub_0_r.
  apply wp_main_loop
    with (I := fun m i s' tr' =>
                 s' = s /\
                 exists (k : nat) ext, i = Z.of_nat k /\
                   (k + m)%nat = Z.to_nat (numTables cfg) /\ (k <= length hs)%nat /\
                   tr' = tr ++ ext /\ Forall (accepted dropping) ext /\
                   drops ext = zip hs (seqZ 0 (Z.of_nat k))).
  - intros m i s' tr' (-> & k & ext & -> & Hm & Hk & -> & Hext & Hdr).
    apply wp_mbind, wp_get_conn.
    destruct (decide (k < length hs)%nat) as [Hlt | Hge].
    + destruct (lookup_lt_is_Some_2 hs k Hlt) as [h Hh].
      assert (Hs : s !! k = Some (Some h)).
      { rewrite <- (lookup_take_lt s (length hs) k Hlt), Hlive, list_lookup_fmap, Hh.
        reflexivity. }
      rewrite Hs. simpl. split; [reflexivity |]. intros [err |]; simpl.
      * split; [reflexivity |]. intros []. split; [reflexivity |].
        exists (S k), (ext ++ [Entry (DropTable h (Z.of_nat k)) (Some err);
                               Entry (Fprintf Stderr drop_error [VErr err]) tt]).
        rewrite drops_app, Hdr. simpl. rewrite <- !app_assoc.
        repeat split; auto; try lia.
        -- apply Forall_app; split; [done | by repeat constructor].
        -- by rewrite Nat2Z.inj_succ, <- Z.add_1_r, (zip_seqZ_snoc _ _ _ Hh).
      * split; [reflexivity |].
        exists (S k), (ext ++ [Entry (DropTable h (Z.of_nat k)) None]).
        rewrite drops_app, Hdr. simpl. rewrite <- !app_assoc.
        repeat split; auto; try lia.
        -- apply Forall_app; split; [done | by repeat constructor].
        -- by rewrite Nat2Z.inj_succ, <- Z.add_1_r, (zip_seqZ_snoc _ _ _ Hh).
    + assert (k = length hs) as -> by lia.
      rewrite Hnil. simpl. exists ext.
      rewrite (zip_seqZ_short hs (numTables cfg)) by lia.
      repeat split; auto.
      destruct (numTables cfg <=? Z.of_nat (length hs)) eqn:E; [| reflexivity].
      apply Z.leb_le in E. lia.
  - intros i s' tr' (-> & k & ext & -> & Hm & Hk & -> & Hext & Hdr). simpl.
    exists ext. rewrite Hdr. replace k with (Z.to_nat (numTables cfg)) by lia.
    rewrite seqZ_to_nat. repeat split; auto.
    destruct (numTables cfg <=? Z.of_nat (length hs)) eqn:E; [reflexivity |].
    apply Z.leb_gt in E. lia.
  - split; [reflexivity |]. exists 0%nat, banner. simpl.
    repeat split; auto; try lia.
    change (seqZ 0 (Z.of_nat 0)) with (@nil Z). by rewrite zip_with_nil_r.
Qed.

(** *** Lines 89 to 99: the warm-up *)

Lemma tables_used_insert_calls tx t rows :
  tables_used (insert_calls tx t rows) = replicate (length rows) t.
Proof. induction rows as [| row rows IH]; simpl; [reflexivity | by rewrite <- IH]. Qed.

Lemma tables_used_select_calls tx t ids :
  tables_used (select_calls tx t ids) = replicate (length ids) t.
Proof. induction ids as [| id ids IH]; simpl; [reflexivity | by rewrite <- IH]. Qed.

Lemma tables_used_delete_calls tx t ids :
  tables_used (delete_calls tx t ids) = replicate (length ids) t.
Proof. induction ids as [| id ids IH]; simpl; [reflexivity | by rewrite <- IH]. Qed.

Lemma begins_insert_calls tx t rows : begins (insert_calls tx t rows) = [].
Proof. induction rows as [| row rows IH]; simpl; auto. Qed.

Lemma begins_select_calls tx t ids : begins (select_calls tx t ids) = [].
Proof. induction ids as [| id ids IH]; simpl; auto. Qed.

Lemma begins_delete_calls tx t ids : begins (delete_calls tx t ids) = [].
Proof. induction ids as [| id ids IH]; simpl; auto. Qed.

Lemma run_outcome_begins tx t tr r : run_outcome tx t tr r -> begins tr = [tx].
Proof.
  destruct 1; rewrite ?begins_app, ?begins_insert_calls, ?begins_select_calls,
    ?begins_delete_calls; reflexivity.
Qed.

Lemma run_outcome_tables tx t tr d :
  run_outcome tx t tr (d, None) -> tables_used tr = replicate 30 t.
Proof.
  inversion 1; subst.
  rewrite !tables_used_app, tables_used_insert_calls, tables_used_select_calls,
    tables_used_delete_calls, length_fmap.
  replace (length rows) with 10%nat. reflexivity.
Qed.

Lemma open_after_insert_calls h tx t rows :
  forall n, open_after h n (insert_calls tx t rows) = n.
Proof. induction rows as [| row rows IH]; intros n; [reflexivity | apply IH]. Qed.

Lemma open_after_select_calls h tx t ids :
  forall n, open_after h n (select_calls tx t ids) = n.
Proof. induction ids as [| id ids IH]; intros n; [reflexivity | apply IH]. Qed.

Lemma open_after_delete_calls h tx t ids :
  forall n, open_after h n (delete_calls tx t ids) = n.
Proof. induction ids as [| id ids IH]; intros n; [reflexivity | apply IH]. Qed.

Lemma statement_failures_insert_calls tx t rows :
  statement_failures (insert_calls tx t rows) = [].
Proof. induction rows as [| row rows IH]; simpl; auto. Qed.

Lemma statement_failures_select_calls tx t ids :
  statement_failures (select_calls tx t ids) = [].
Proof. induction ids as [| id ids IH]; simpl; auto. Qed.

Lemma statement_failures_delete_calls tx t ids :
  statement_failures (delete_calls tx t ids) = [].
Proof. induction ids as [| id ids IH]; simpl; auto. Qed.

Lemma bracket_failures_insert_calls tx t rows :
  bracket_failures (insert_calls tx t rows) = [].
Proof. induction rows as [| row rows IH]; simpl; auto. Qed.

Lemma bracket_failures_select_calls tx t ids :
  bracket_failures (select_calls tx t ids) = [].
Proof. induction ids as [| id ids IH]; simpl; auto. Qed.

Lemma bracket_failures_delete_calls tx t ids :
  bracket_failures (delete_calls tx t ids) = [].
Proof. induction ids as [| id ids IH]; simpl; auto. Qed.

Ltac run_calls :=
  rewrite ?open_after_app, ?statement_failures_app, ?bracket_failures_app,
    ?open_after_insert_calls, ?open_after_select_calls, ?open_after_delete_calls,
    ?statement_failures_insert_calls, ?statement_failures_select_calls,
    ?statement_failures_delete_calls, ?bracket_failures_insert_calls,
    ?bracket_failures_select_calls, ?bracket_failures_delete_calls.

(** A call of [run] that returns no error has ended its transaction. *)
Lemma run_outcome_settled tx t tr d : run_outcome tx t tr (d, None) -> settled tr.
Proof.
  inversion 1; subst. intros h n. run_calls.
  unfold open_after. simpl. by destruct (tx =? h)%nat.
Qed.

(** One that returns an error has ended it, or not begun it, when the
    error is that of [BeginTx] or [Commit], and has left it open when the
    error is that of a statement. *)
Lemma run_outcome_stopped tx t tr d v :
  run_outcome tx t tr (d, Some v) ->
  exists prefix err, workload_errors tr = [err] /\ v = prefix +:+ err /\
    In prefix run_prefixes /\
    ((In prefix bracket_prefixes /\ bracket_failures tr = [err] /\
      statement_failures tr = [] /\ settled tr) \/
     (In prefix statement_prefixes /\ statement_failures tr = [err] /\
      bracket_failures tr = [] /\ leaves_open tx tr)).
Proof.
  inversion 1; subst; eexists _, err;
    rewrite ?workload_errors_app, ?workload_errors_insert_calls,
      ?workload_errors_select_calls, ?workload_errors_delete_calls;
    run_calls;
    (split; [reflexivity |]); (split; [reflexivity |]);
    (split; [unfold run_prefixes; simpl; tauto |]);
    first [ left; split; [simpl; tauto |]
          | right; split; [simpl; tauto |] ];
    (split; [reflexivity |]); (split; [reflexivity |]);
    intros h n; run_calls; unfold open_after; simpl; by destruct (tx =? h)%nat.
Qed.

Lemma warmup_slots_wp (hs : list handle) (tr : trace) :
  Z.of_nat (length hs) = numLoops cfg ->
  wp any_event
     (fun tr' r => exists ext, tr' = tr ++ ext /\ Forall (accepted warming) ext /\
        snd r = Some <$> hs /\
        match fst r with
        | Done _ =>
            begins ext = hs /\ workload_errors ext = [] /\
            tables_used ext =
              flat_map (fun i => replicate 30 (Z.rem i (numTables cfg)))
                       (seqZ 0 (numLoops cfg)) /\
            (numTables cfg = 0 -> numLoops cfg = 0) /\ settled ext
        | Panicked v =>
            (workload_errors ext = [] /\ v = divide_by_zero /\ numTables cfg = 0 /\
             settled ext) \/
            (exists prefix err, workload_errors ext = [err] /\ v = prefix +:+ err /\
                                In prefix run_prefixes /\
                                warmup_stopped hs ext prefix err)
        end)
     (warmup cfg (Some <$> hs)) tr.
Proof.
  intros Hlen. unfold warmup.
  do 3 apply wp_mbind, wp_Printf.
  rewrite <- !app_assoc. simpl.
  set (banner := [_; _; _]).
  assert (Hbanner : Forall (accepted warming) banner) by (by repeat constructor).
  unfold main_range. rewrite Z.sub_0_r.
  apply wp_main_loop
    with (I := fun m i s' tr' =>
                 s' = Some <$> hs /\
                 exists (k : nat) ext, i = Z.of_nat k /\
                   (k + m)%nat = Z.to_nat (numLoops cfg) /\
                   tr' = tr ++ ext /\ Forall (accepted warming) ext /\
                   begins ext = take k hs /\ workload_errors ext = [] /\
                   tables_used ext =
                     flat_map (fun i => replicate 30 (Z.rem i (numTables cfg)))
                              (seqZ 0 (Z.of_nat k)) /\
                   (numTables cfg = 0 -> k = 0%nat) /\ settled ext).
  - intros m i s' tr'
      (-> & k & ext & -> & Hm & -> & Hext & Hbeg & Herr & Htab & Hz & Hset).
    apply wp_mbind, wp_get_conn. rewrite list_lookup_fmap.
    destruct (lookup_lt_is_Some_2 hs k ltac:(lia)) as [h Hh].
    rewrite Hh. simpl. apply wp_mbind, wp_lift.
    destruct (Z.eq_dec (numTables cfg) 0) as [Hzero | Hnz].
    { unfold run. rewrite Hzero. simpl. exists ext. repeat split; auto. }
    pose proof (wp_frame _ _ _ (tr ++ ext) _ (run_wp cfg Hnz h (Z.of_nat k))) as H.
    rewrite app_nil_r in H. apply wp_accepted_from in H.
    apply wp_any, wp_wpx in H. eapply wpx_mono; [| exact H].
    intros tr2 [[d err] | v] Hr; [| destruct Hr].
    destruct Hr as ((ext2 & -> & Hout) & (ext2' & Heq & Hacc)).
    apply app_inv_head in Heq as <-.
    assert (Hext2 : Forall (accepted warming) (ext ++ ext2)).
    { apply Forall_app. split; [exact Hext |].
      apply accepted_allow with working; [| exact Hacc]. intros X e. by destruct e. }
    destruct err as [err |]; simpl.
    + exists (ext ++ ext2). split; [by rewrite app_assoc |]. repeat split; auto.
      right.
      destruct (run_outcome_stopped _ _ _ _ _ Hout) as (prefix & e & He & -> & Hin & Hwhy).
      destruct (failures_of_workload _ Herr) as [Hsf Hbf].
      exists prefix, e. rewrite workload_errors_app, Herr, He.
      split; [reflexivity |]. split; [reflexivity |]. split; [exact Hin |].
      unfold warmup_stopped. rewrite statement_failures_app, bracket_failures_app, Hsf, Hbf.
      destruct Hwhy as [(Hp & -> & -> & Hs) | (Hp & -> & -> & Hopen)].
      * left. repeat split; auto. by apply settled_app.
      * right. repeat split; auto. exists h.
        split; [by apply list_elem_of_In, (list_elem_of_lookup_2 _ k) |].
        split; [| by apply leaves_open_app].
        by rewrite begins_app, (run_outcome_begins _ _ _ _ Hout), last_snoc.
    + split; [reflexivity |]. exists (S k), (ext ++ ext2).
      rewrite begins_app, workload_errors_app, tables_used_app, Hbeg, Herr, Htab,
        (run_outcome_begins _ _ _ _ Hout), (run_outcome_success _ _ _ _ Hout),
        (run_outcome_tables _ _ _ _ Hout), (take_S_r _ _ _ Hh).
      repeat split; auto; try lia.
      * by rewrite app_assoc.
      * rewrite seqZ_S, flat_map_app. cbn [flat_map].
        by rewrite app_nil_r, Z.add_0_l.
      * apply settled_app; [exact Hset | by apply run_outcome_settled in Hout].
  - intros i s' tr'
      (-> & k & ext & -> & Hm & -> & Hext & Hbeg & Herr & Htab & Hz & Hset).
    simpl. exists ext. rewrite take_ge in Hbeg by lia.
    repeat split; auto.
    + rewrite Htab. replace k with (Z.to_nat (numLoops cfg)) by lia.
      by rewrite seqZ_to_nat.
    + intros Hzero. specialize (Hz Hzero). lia.
  - split; [reflexivity |]. exists 0%nat, banner. simpl.
    rewrite take_0. repeat split; auto; lia.
Qed.

(** *** Lines 108 to 158: the benchmark loop *)

Lemma establishing_outcomes_wp (i : Z) (s : slots) (h : handle) (tr : trace) :
  0 <= i -> s !! Z.to_nat i = Some (Some h) ->
  wp any_event
     (fun tr' r => exists (x : option error) (ext : trace),
        tr' = tr ++ Entry (ConnClose h) x :: ext /\
        Forall (accepted acquiring) ext /\
        match x with
        | Some err => ext = [] /\ r = (Panicked err, s)
        | None =>
            exists c e, established ext (c, e) /\
              r = (match e with Some err => Panicked err | None => Done tt end,
                   <[Z.to_nat i := c]> s)
        end)
     (establishing i s) tr.
Proof.
  intros Hi Hs. unfold establishing. apply wp_mbind.
  rewrite <- (Z2Nat.id i) at 1 by lia. apply wp_get_conn. rewrite Hs.
  simpl. split; [reflexivity |]. intros [err |]; simpl.
  { exists (Some err), []. repeat split; auto. }
  apply wp_mbind, wp_lift.
  pose proof (wp_accepted_from _ _ _ _
                (establishConnection_wp (tr ++ [Entry (ConnClose h) None]))) as H.
  apply wp_any, wp_wpx in H. eapply wpx_mono; [| exact H].
  intros tr' [[c err] | v] Hr; [| destruct Hr].
  destruct Hr as ((ext & -> & Hest) & (ext' & Heq & Hacc)).
  apply app_inv_head in Heq as <-.
  apply wp_mbind. unfold set_conn.
  apply lookup_lt_Some in Hs as Hlt.
  destruct ((0 <=? i) && (i <? Z.of_nat (length s))) eqn:Hrange.
  2: { apply andb_false_iff in Hrange as [Hr | Hr];
         [apply Z.leb_gt in Hr | apply Z.ltb_ge in Hr]; lia. }
  simpl. destruct err as [err |]; simpl;
    exists None, ext; rewrite <- app_assoc; (split; [reflexivity |]);
    (split; [exact Hacc |]); eexists c, _; (split; [exact Hest | reflexivity]).
Qed.

Lemma running_wp (i : Z) (s : slots) (tr : trace) :
  0 <= i -> i + 1 <= Z.of_nat (length s) ->
  wp any_event
     (fun tr' r => r = (Done tt, s) /\
        exists ext, tr' = tr ++ ext /\ Forall (accepted measuring) ext /\
          gos ext = (fun c => WorkLoop c i) <$> take (Z.to_nat (i + 1)) s)
     (running i s) tr.
Proof.
  intros Hi Hfit. unfold running. simpl.
  split; [reflexivity |]. intros []. split; [reflexivity |]. intros [].
  rewrite <- !app_assoc. simpl. set (before := [_; _]).
  assert (Hbefore : Forall (accepted measuring) before) by (by repeat constructor).
  apply wp_mbind. unfold main_range. rewrite Z.sub_0_r.
  apply wp_main_loop
    with (I := fun m j s' tr' =>
                 s' = s /\
                 exists (k : nat) ext, j = Z.of_nat k /\
                   (k + m)%nat = Z.to_nat (i + 1) /\
                   tr' = tr ++ ext /\ Forall (accepted measuring) ext /\
                   gos ext = (fun c => WorkLoop c i) <$> take k s).
  - intros m j s' tr' (-> & k & ext & -> & Hm & -> & Hext & Hgo).
    unfold launch. apply wp_mbind, wp_get_conn.
    destruct (lookup_lt_is_Some_2 s k ltac:(lia)) as [c Hc].
    rewrite Hc. simpl. split; [reflexivity |]. intros [].
    split; [reflexivity |]. exists (S k), (ext ++ [Entry (Go (WorkLoop c i)) tt]).
    rewrite gos_app, Hgo, (take_S_r _ _ _ Hc), fmap_app, <- app_assoc. simpl.
    repeat split; auto; try lia.
    apply Forall_app; split; [done | by repeat constructor].
  - intros j s' tr' (-> & k & ext & -> & Hm & -> & Hext & Hgo). simpl.
    split; [reflexivity |]. intros []. split; [reflexivity |].
    exists (ext ++ [Entry (WgWait i) tt]).
    rewrite gos_app, Hgo, <- app_assoc. simpl. rewrite app_nil_r.
    repeat split; auto.
    + apply Forall_app; split; [done | by repeat constructor].
    + f_equal. f_equal. lia.
  - split; [reflexivity |]. exists 0%nat, before. simpl.
    repeat split; auto; lia.
Qed.

Lemma reporting_printing_wp (i : Z) (s : slots) (tr : trace) :
  wp any_event
     (fun tr' r => r = (Done tt, s) /\
        exists ext, tr' = tr ++ ext /\ Forall (accepted printing) ext)
     (reporting i s) tr.
Proof.
  pose proof (wp_quiet_and printing _ _ s tr (quiet_printing_reporting i)
                (reporting_wp i s tr)) as H.
  eapply wp_mono; [| exact H].
  intros tr' r ((m & ext & _ & Hr & _) & Hext). auto.
Qed.

Lemma flat_map_ext_In {A B : Type} (f g : A -> list B) (l : list A) :
  (forall a, In a l -> f a = g a) -> flat_map f l = flat_map g l.
Proof.
  induction l as [| a l IH]; intros H; simpl; [reflexivity |].
  rewrite (H a) by (by left). rewrite IH; [reflexivity |].
  intros a' Ha'. apply H. by right.
Qed.

Lemma started_snoc (B : list handle) (b : handle) :
  started (B ++ [b]) (S (length B)) =
  started B (length B) ++
  ((fun h => WorkLoop (Some h) (Z.of_nat (length B))) <$> (B ++ [b])).
Proof.
  unfold started. rewrite seq_S, flat_map_app. simpl. rewrite app_nil_r.
  f_equal.
  - apply flat_map_ext_In. intros j Hj. apply in_seq in Hj.
    by rewrite take_app_le by lia.
  - by rewrite take_ge by (rewrite length_app; simpl; lia).
Qed.

Lemma benchmark_ramped_wp (A : list handle) (tr : trace) :
  Z.of_nat (length A) = numLoops cfg ->
  wp any_event
     (fun tr' r => exists ext, tr' = tr ++ ext /\ Forall (accepted ramping) ext /\
        steady ext /\
        match fst r with
        | Done _ => exists B, snd r = Some <$> B /\ ramped A B ext
        | Panicked v =>
            exists B, (length B < length A)%nat /\ acquired ext = B /\
              closes ext = take (S (length B)) A /\
              ((close_failures ext = [v] /\ last_acquired ext /\
                snd r = Some <$> (B ++ drop (length B) A)) \/
               (exists cause, close_failures ext = [] /\
                  last (attempts ext) = Some (inl cause) /\
                  v = "Error opening connection: " +:+ cause /\
                  snd r = (Some <$> B) ++ None :: (Some <$> drop (S (length B)) A)))
        end)
     (benchmark cfg (Some <$> A)) tr.
Proof.
  intros Hlen. unfold benchmark.
  do 4 apply wp_mbind, wp_Printf. apply wp_mbind, wp_Eprintf.
  rewrite <- !app_assoc. simpl.
  set (banner := [_; _; _; _; _]).
  assert (Hbanner : Forall (accepted ramping) banner) by (by repeat constructor).
  unfold main_range. rewrite Z.sub_0_r.
  apply wp_main_loop
    with (I := fun m i s' tr' =>
                 exists B ext, i = Z.of_nat (length B) /\
                   (length B + m)%nat = length A /\
                   s' = (Some <$> B) ++ drop (length B) (Some <$> A) /\
                   tr' = tr ++ ext /\ Forall (accepted ramping) ext /\
                   steady ext /\ last_acquired ext /\
                   acquired ext = B /\ closes ext = take (length B) A /\
                   close_failures ext = [] /\
                   gos ext = started B (length B)).
  - intros m i s' tr'
      (B & ext & -> & Hm & -> & -> & Hext & Hst & Hlast & Hacq & Hcl & Hcf & Hgo).
    destruct (lookup_lt_is_Some_2 A (length B) ltac:(lia)) as [a Ha].
    assert (Hs : ((Some <$> B) ++ drop (length B) (Some <$> A)) !!
                   Z.to_nat (Z.of_nat (length B)) = Some (Some a)).
    { rewrite Nat2Z.id, lookup_app_r by (rewrite length_fmap; lia).
      rewrite length_fmap, Nat.sub_diag, lookup_drop, Nat.add_0_r, list_lookup_fmap, Ha.
      reflexivity. }
    unfold ramp_step. apply wp_mbind.
    eapply wp_mono; [| apply (establishing_outcomes_wp _ _ a); [lia | exact Hs]].
    intros tr1 r1 (x & ext1 & -> & Hacc & Hx).
    assert (Hext1 : Forall (accepted ramping) (ext ++ Entry (ConnClose a) x :: ext1)).
    { apply Forall_app. split; [exact Hext |]. constructor; [reflexivity |].
      apply accepted_allow with acquiring; [| exact Hacc]. intros X e. by destruct e. }
    assert (closes ext1 = []) by absent.
    assert (close_failures ext1 = []) by absent.
    destruct x as [err |].
    { destruct Hx as [-> ->]. exists (ext ++ [Entry (ConnClose a) (Some err)]).
      split; [by rewrite app_assoc |]. split; [exact Hext1 |]. split.
      { apply steady_app; [exact Hst |].
        apply (steady_replace a (Some err) [] []); [by right | by intros lvl]. }
      exists B. split; [lia |].
      rewrite acquired_app, closes_app, close_failures_app, Hacq, Hcl, Hcf. simpl.
      rewrite app_nil_r, (take_S_r _ _ _ Ha).
      split; [reflexivity |]. split; [reflexivity |]. left.
      split; [reflexivity |]. split.
      - apply last_acquired_app; [exact Hlast | by apply last_acquired_none].
      - by rewrite fmap_app, fmap_drop. }
    destruct Hx as (c & e & Hest & ->).
    destruct (established_acquired _ _ _ Hest) as (Hacq1 & Hnil & Hmsg).
    destruct e as [err |].
    { assert (c = None) as -> by (apply Hnil; discriminate).
      exists (ext ++ Entry (ConnClose a) None :: ext1).
      split; [by rewrite <- app_assoc |]. split; [exact Hext1 |]. split.
      { apply steady_app; [exact Hst |]. rewrite <- (app_nil_r ext1).
        apply steady_replace; [| by intros lvl]. left.
        rewrite Hacq1. simpl. split; [reflexivity | lia]. }
      exists B. split; [lia |].
      change (Entry (ConnClose a) None :: ext1)
        with ([Entry (ConnClose a) None] ++ ext1).
      autorewrite with kinds.
      repeat match goal with H : _ = [] |- _ => rewrite H end.
      rewrite Hacq, Hcl. simpl. rewrite !app_nil_r, (take_S_r _ _ _ Ha).
      split; [reflexivity |]. split; [reflexivity |]. right.
      destruct Hest as (fails & [(h & _ & _ & Heq) | (cause & Hatt & _ & Heq)]);
        [discriminate |].
      injection Heq as ->.
      exists cause. split; [reflexivity |].
      split; [by rewrite last_app, Hatt, last_snoc |].
      split; [reflexivity |].
      rewrite Nat2Z.id, insert_app_r_alt by (rewrite length_fmap; lia).
      rewrite length_fmap, Nat.sub_diag.
      rewrite (drop_S (Some <$> A) (Some a) (length B))
        by (by rewrite list_lookup_fmap, Ha).
      simpl. by rewrite fmap_drop. }
    destruct c as [b |]; [| exfalso; by apply Hnil].
    rewrite Nat2Z.id.
    assert (Hs' : <[length B := Some b]> ((Some <$> B) ++ drop (length B) (Some <$> A)) =
                  (Some <$> (B ++ [b])) ++ drop (length (B ++ [b])) (Some <$> A)).
    { rewrite insert_app_r_alt by (rewrite length_fmap; lia).
      rewrite length_fmap, Nat.sub_diag.
      rewrite (drop_S (Some <$> A) (Some a) (length B))
        by (by rewrite list_lookup_fmap, Ha).
      rewrite fmap_app, <- app_assoc, length_app. simpl.
      by rewrite Nat.add_1_r. }
    rewrite Hs'. apply wp_mbind.
    eapply wp_mono; [| apply running_wp].
    2: lia.
    2: { rewrite length_app, length_fmap, length_drop, length_fmap, length_app. simpl. lia. }
    intros tr2 r2 (-> & ext2 & -> & Hext2 & Hgo2).
    eapply wp_mono; [| apply reporting_printing_wp].
    intros tr3 r3 (-> & ext3 & -> & Hext3).
    exists (B ++ [b]), (ext ++ Entry (ConnClose a) None :: ext1 ++ ext2 ++ ext3).
    assert (Hm2 : Forall (accepted ramping) (ext2 ++ ext3)).
    { apply Forall_app. split.
      - apply accepted_allow with measuring; [| exact Hext2]. intros X e. by destruct e.
      - apply accepted_allow with printing; [| exact Hext3]. intros X e. by destruct e. }
    assert (gos ext1 = []) by absent.
    assert (closes ext2 = []) by absent.
    assert (close_failures ext2 = []) by absent.
    assert (acquired ext2 = []) by absent.
    assert (attempts ext2 = []) by absent.
    assert (closes ext3 = []) by absent.
    assert (close_failures ext3 = []) by absent.
    assert (acquired ext3 = []) by absent.
    assert (attempts ext3 = []) by absent.
    assert (gos ext3 = []) by absent.
    rewrite length_app. simpl. rewrite Nat.add_1_r.
    split; [lia |]. split; [lia |]. split; [reflexivity |].
    split; [by rewrite <- !app_assoc |].
    split.
    { apply Forall_app. split; [exact Hext |]. constructor; [reflexivity |].
      apply Forall_app. split; [| exact Hm2].
      apply accepted_allow with acquiring; [| exact Hacc]. intros X e. by destruct e. }
    split.
    { apply steady_app; [exact Hst |]. apply steady_replace.
      - left. rewrite Hacq1. simpl. split; [reflexivity | lia].
      - apply steady_app; apply steady_releasing.
        + apply accepted_allow with measuring; [| exact Hext2]. intros X e. by destruct e.
        + apply accepted_allow with printing; [| exact Hext3]. intros X e. by destruct e. }
    split.
    { replace (ext ++ Entry (ConnClose a) None :: ext1 ++ ext2 ++ ext3)
        with ((ext ++ [Entry (ConnClose a) None] ++ ext1) ++ ext2 ++ ext3)
        by (by rewrite <- !app_assoc).
      apply last_acquired_app.
      - rewrite app_assoc. apply (last_acquired_last _ _ b), established_last, Hest.
      - apply last_acquired_none. rewrite attempts_app.
        by repeat match goal with H : _ = [] |- _ => rewrite H end. }
    change (Entry (ConnClose a) None :: ext1 ++ ext2 ++ ext3)
      with ([Entry (ConnClose a) None] ++ ext1 ++ ext2 ++ ext3).
    autorewrite with kinds.
    repeat match goal with H : _ = [] |- _ => rewrite H end.
    rewrite Hacq, Hcl, Hgo, Hacq1, Hgo2. simpl. rewrite !app_nil_r.
    repeat split; auto.
    + by rewrite (take_S_r _ _ _ Ha).
    + rewrite started_snoc. f_equal.
      replace (Z.to_nat (Z.of_nat (length B) + 1)) with (length (Some <$> (B ++ [b])))
        by (rewrite length_fmap, length_app; simpl; lia).
      by rewrite take_app_length, <- list_fmap_compose.
  - intros i s' tr'
      (B & ext & -> & Hm & -> & -> & Hext & Hst & Hlast & Hacq & Hcl & Hcf & Hgo).
    simpl. exists ext. split; [done |]. split; [done |]. split; [done |]. exists B.
    rewrite drop_ge, app_nil_r by (rewrite length_fmap; lia).
    rewrite take_ge in Hcl by lia.
    split; [reflexivity |]. unfold ramped. repeat split; auto. lia.
  - exists [], banner. simpl. rewrite drop_0, take_0.
    split; [reflexivity |]. split; [lia |]. split; [reflexivity |].
    split; [reflexivity |]. split; [exact Hbanner |].
    split; [apply steady_releasing; by repeat constructor |].
    split; [by apply last_acquired_none |]. by repeat split.
Qed.

(** *** Lines 24 to 30 and 160 to 163 *)

Lemma open_database_wp (Q : trace -> exit unit * slots -> Prop) (s : slots) (tr : trace) :
  (forall err, Q (tr ++ [Entry (SqlOpen "postgres" connStr) (Some err)])
                 (Panicked ("Error opening database: " +:+ err), s)) ->
  Q (tr ++ [Entry (SqlOpen "postgres" connStr) None;
            Entry (SetConnMaxLifetime (-1)) tt;
            Entry (SetMaxOpenConns (numLoops cfg)) tt;
            Entry (SetMaxIdleConns (numLoops cfg)) tt]) (Done tt, s) ->
  wp any_event Q (open_database cfg s) tr.
Proof.
  intros Hfail Hok. unfold open_database. simpl.
  split; [reflexivity |]. intros [err |]; simpl; [apply Hfail |].
  do 3 (split; [reflexivity |]; intros []).
  by rewrite <- !app_assoc.
Qed.

Lemma close_database_wp (Q : trace -> exit unit * slots -> Prop) (s : slots) (tr : trace) :
  (forall x, Q (tr ++ [Entry DbClose x])
               (match x with
                | None => Done tt
                | Some err => Panicked ("Error closing database: " +:+ err)
                end, s)) ->
  wp any_event Q (close_database s) tr.
Proof.
  intros H. unfold close_database. simpl.
  split; [reflexivity |]. intros [err |]; simpl; apply H.
Qed.

(** *** [main] as a whole *)

Lemma main_outcome_eq (tr tr' : trace) (r : exit unit * slots) :
  tr = tr' -> main_outcome cfg tr' r -> main_outcome cfg tr r.
Proof. by intros ->. Qed.

Lemma take_all_fmap (A : list handle) : take (length A) (Some <$> A) = Some <$> A.
Proof. apply take_ge. by rewrite length_fmap. Qed.

Lemma main_outcome_wp : wp any_event (main_outcome cfg) (main cfg) [].
Proof.
  unfold main. apply wp_mbind, open_database_wp.
  { intros err. apply main_open_failed. }
  simpl app. set (opened := [_; _; _; _]).
  assert (Hopened : Forall (accepted connecting) opened) by (by repeat constructor).
  apply wp_mbind.
  eapply wp_mono; [| apply establish_connections_wp].
  intros tr1 [[[] | v] s1] (ext1 & -> & Hext1 & H1); cbn [fst snd] in H1.
  2: { apply main_unconnected; [by apply Forall_app |].
       rewrite acquired_app. exact H1. }
  destruct H1 as (A & -> & HA & Hlen & Hlast1).
  assert (Hpre : connected cfg A (opened ++ ext1)).
  { split; [by apply Forall_app |]. rewrite acquired_app.
    split; [exact HA |]. split; [exact Hlen |].
    apply last_acquired_app; [by apply last_acquired_none | exact Hlast1]. }
  apply wp_defer, wp_mbind.
  eapply wp_mono; [| apply create_tables_wp].
  intros tr2 [[[] | v] s2] (ext2 & -> & Hext2 & Hs2 & H2); cbn [fst snd] in Hs2, H2; subst s2.
  2: { eapply wp_mono;
         [| apply (close_connections_wp _ A); [apply take_all_fmap | by left]].
       intros tr3 r3 (ext3 & -> & Hext3 & Hcl3 & _ & ->).
       rewrite Hlen, Z.eqb_refl. cbn beta iota delta [fst snd].
       eapply main_outcome_eq;
         [| apply (main_create_failed cfg A (opened ++ ext1) ext2 ext3 v)]; auto.
       - by rewrite <- !app_assoc.
       - destruct H2 as (k & _ & _ & [(-> & -> & Hk & Hf) | (err & -> & Hf & _)]).
         + left. repeat split; auto. lia.
         + right. eauto.
       - by split. }
  destruct H2 as (Hfit & Hcr & Hcf).
  assert (Hcreated : created cfg A ext2).
  { repeat split; auto. lia. }
  apply wp_defer, wp_mbind.
  eapply wp_mono; [| apply (warmup_slots_wp A), Hlen].
  intros tr3 [[[] | v] s3] (ext3 & -> & Hext3 & Hs3 & H3); cbn [fst snd] in Hs3, H3; subst s3.
  2: { eapply wp_mono; [| apply (drop_tables_wp A), Hfit].
       intros tr4 r4 (ext4 & -> & Hext4 & Hdr4 & _ & ->). cbn beta iota delta [fst snd].
       eapply wp_mono;
         [| apply (close_connections_wp _ A); [apply take_all_fmap | by left]].
       intros tr5 r5 (ext5 & -> & Hext5 & Hcl5 & _ & ->).
       rewrite Hlen, Z.eqb_refl. cbn beta iota delta [fst snd].
       eapply main_outcome_eq;
         [| apply (main_warmup_failed cfg A (opened ++ ext1) ext2 ext3 ext4 ext5 v)];
         auto.
       - by rewrite <- !app_assoc.
       - by split.
       - by split. }
  assert (Hwarmed : warmed cfg A ext3) by (by split).
  apply wp_mbind.
  eapply wp_mono; [| apply (benchmark_ramped_wp A), Hlen].
  intros tr4 [[[] | v] s4] (ext4 & -> & Hext4 & Hst4 & H4); cbn [fst snd] in H4.
  2: { destruct H4 as (B & HltB & HacqB & HclB &
                       [(Hcf4 & Hlast4 & Hs4) | (cause & Hcf4 & Hlast4 & _ & Hs4)]);
         subst s4.
       - assert (Hall : Z.of_nat (length (B ++ drop (length B) A)) = numLoops cfg).
         { rewrite length_app, length_drop. lia. }
         eapply wp_mono; [| apply (drop_tables_wp (B ++ drop (length B) A)); lia].
         intros tr5 r5 (ext5 & -> & Hext5 & Hdr5 & _ & ->). cbn beta iota delta [fst snd].
         eapply wp_mono;
           [| apply (close_connections_wp _ (B ++ drop (length B) A));
              [apply take_all_fmap | by left]].
         intros tr6 r6 (ext6 & -> & Hext6 & Hcl6 & _ & ->).
         rewrite Hall, Z.eqb_refl. cbn beta iota delta [fst snd].
         eapply main_outcome_eq;
           [| apply (main_close_failed cfg A B (opened ++ ext1) ext2 ext3 ext4 ext5 ext6 v)];
           auto.
         + by rewrite <- !app_assoc.
         + by repeat split.
         + by split.
         + by split.
       - assert (Hlive : take (length B)
                   ((Some <$> B) ++ None :: (Some <$> drop (S (length B)) A)) =
                 Some <$> B).
         { apply take_app_length'. by rewrite length_fmap. }
         assert (Hnil : ((Some <$> B) ++ None :: (Some <$> drop (S (length B)) A)) !!
                          length B = Some None).
         { apply list_lookup_middle. by rewrite length_fmap. }
         eapply wp_mono; [| apply (drop_tables_nil_wp _ B); [exact Hlive | exact Hnil]].
         intros tr5 r5 (ext5 & -> & Hext5 & Hdr5 & ->).
         assert (Hclose : forall x,
                   wp any_event
                      (fun tr6 rd => match rd with
                                     | (Done _, s') => main_outcome cfg tr6 (x, s')
                                     | (Panicked v', s') =>
                                         main_outcome cfg tr6 (Panicked v', s')
                                     end)
                      (close_connections cfg
                         ((Some <$> B) ++ None :: (Some <$> drop (S (length B)) A)))
                      (((((opened ++ ext1) ++ ext2) ++ ext3) ++ ext4) ++ ext5)).
         { intros x. eapply wp_mono;
             [| apply (close_connections_wp _ B); [exact Hlive | right; split; [lia | done]]].
           intros tr6 r6 (ext6 & -> & Hext6 & Hcl6 & _ & ->).
           destruct (Z.of_nat (length B) =? numLoops cfg) eqn:E;
             [apply Z.eqb_eq in E; lia |].
           eapply main_outcome_eq;
             [| apply (main_reestablish_failed cfg A B (opened ++ ext1) ext2 ext3 ext4
                         ext5 ext6 cause)]; auto.
           - by rewrite <- !app_assoc.
           - by repeat split.
           - by split.
           - by split. }
         destruct (numTables cfg <=? Z.of_nat (length B));
           cbn beta iota delta [fst snd]; apply Hclose. }
  destruct H4 as (B & -> & Hramped).
  apply close_database_wp. intros x.
  assert (HlenB : Z.of_nat (length B) = numLoops cfg).
  { destruct Hramped as (_ & HB & _). lia. }
  eapply wp_mono; [| apply (drop_tables_wp B); lia].
  intros tr6 r6 (ext6 & -> & Hext6 & Hdr6 & _ & ->). cbn beta iota delta [fst snd].
  eapply wp_mono;
    [| apply (close_connections_wp _ B); [apply take_all_fmap | by left]].
  intros tr7 r7 (ext7 & -> & Hext7 & Hcl7 & _ & ->).
  rewrite HlenB, Z.eqb_refl. cbn beta iota delta [fst snd].
  eapply main_outcome_eq;
    [| apply (main_finished cfg A B (opened ++ ext1) ext2 ext3 ext4 x ext6 ext7)];
    auto.
  - by rewrite <- !app_assoc.
  - by split.
  - by split.
Qed.

Lemma main_outcome_interp (o : oracle) :
  exists r, snd (interp o (main cfg) []) = Done r /\
            main_outcome cfg (fst (interp o (main cfg) [])) r.
Proof. apply (wp_interp _ _ o _ _ main_outcome_wp). Qed.

(** The calls of a kind that a part of the trace cannot hold are removed
    from the goal. *)
Ltac drop_absent :=
  repeat match goal with
         | H : Forall (accepted ?c) ?ext |- context [?p ?ext] =>
             let E := fresh in
             assert (E : p ext = []) by absent; rewrite E; clear E
         end.

(** X3: lines 32 to 42 fill the slice in order: when they return, slot
    [i] holds the connection of the [i]-th successful call of [db.Conn],
    for all [numLoops] slots, and none is nil; when they panic, fewer than
    [numLoops] connections were acquired, the message names both wrappers,
    and in neither case is a connection closed. *)
Theorem establish_connections_fills_slots (o : oracle) (s : slots) (tr0 : trace) :
  exists ext x s',
    interp o (establish_connections cfg s) tr0 = (tr0 ++ ext, Done (x, s')) /\
    closes ext = [] /\
    match x with
    | Done _ => s' = Some <$> acquired ext /\
                Z.of_nat (length (acquired ext)) = numLoops cfg
    | Panicked v =>
        (numLoops cfg < 0 /\ v = makeslice_out_of_range /\ acquired ext = []) \/
        (exists err, Z.of_nat (length (acquired ext)) < numLoops cfg /\
                     v = "Error establishing connections: " +:+
                         ("Error opening connection: " +:+ err))
    end.
Proof.
  destruct (wp_interp _ _ o _ _ (establish_connections_wp s tr0))
    as ([x s'] & Hr & ext & Htr & Hext & H).
  exists ext, x, s'. split.
  { rewrite (surjective_pairing (interp o (establish_connections cfg s) tr0)).
    by rewrite Hr, Htr. }
  split; [absent |]. cbn [fst snd] in H. destruct x as [[] | v]; [| exact H].
  destruct H as (A & -> & <- & Hlen & _). auto.
Qed.

(** X4: table [i] is created on the connection of slot [i], in the
    order of the tables.  The first statement that fails ends the loop in
    a panic with its error; with more tables than slots the loop panics
    with an index out of range after it has used every slot. *)
Theorem create_tables_outcomes (o : oracle) (hs : list handle) (tr0 : trace) :
  exists ext x,
    interp o (create_tables cfg (Some <$> hs)) tr0 = (tr0 ++ ext, Done (x, Some <$> hs)) /\
    match x with
    | Done _ =>
        numTables cfg <= Z.of_nat (length hs) /\
        creates ext = zip hs (seqZ 0 (numTables cfg)) /\ create_failures ext = []
    | Panicked v =>
        exists k : nat,
          creates ext = zip hs (seqZ 0 (Z.of_nat k)) /\ Z.of_nat k <= numTables cfg /\
          ((v = index_out_of_range /\ k = length hs /\
            Z.of_nat k < numTables cfg /\ create_failures ext = []) \/
           (exists err, v = "Error creating table: " +:+ err /\
                        create_failures ext = [err] /\ (0 < k <= length hs)%nat))
    end.
Proof.
  destruct (wp_interp _ _ o _ _ (create_tables_wp hs tr0))
    as ([x s'] & Hr & ext & Htr & Hext & Hs & H).
  cbn [fst snd] in Hs, H. subst s'. exists ext, x. split; [| exact H].
  rewrite (surjective_pairing (interp o (create_tables cfg (Some <$> hs)) tr0)).
  by rewrite Hr, Htr.
Qed.

(** X5: when no transaction is open on the connections of the slice,
    none begun by the calls made so far and none held by a goroutine, the
    first deferred function closes the connection of every slot, in the
    order of the slots and once each; an error of [Close] is written to
    standard error and does not stop the loop, and the function returns
    normally. *)
Theorem close_connections_closes_all (o : oracle) (w : holding) (hs : list handle)
    (tr0 : trace) :
  Z.of_nat (length hs) = numLoops cfg ->
  (forall h, In h hs -> open_txs h tr0 = 0%nat) ->
  (forall h tr, In h hs -> w tr h = false) ->
  exists ext,
    exec o w (close_connections cfg (Some <$> hs)) tr0 =
      (tr0 ++ ext, Ended (Done (Done tt, Some <$> hs))) /\
    closes ext = hs /\
    stderr ext = (fun e => (close_error, [VErr e])) <$> close_failures ext.
Proof.
  intros Hlen Hown Hheld.
  destruct (wp_interp _ _ o _ _
              (close_connections_wp (Some <$> hs) hs tr0 (take_all_fmap hs)
                 (or_introl Hlen)))
    as (r & Hr & ext & Htr & Hext & Hcl & Herr & ->).
  apply Z.eqb_eq in Hlen. rewrite Hlen in Hr.
  destruct (exec_settle o w (close_connections cfg (Some <$> hs)) tr0)
    as (ext' & Hi & He).
  assert (ext' = ext) as ->.
  { apply (f_equal fst) in Hi. rewrite Htr in Hi.
    change (tr0 ++ ext = tr0 ++ ext') in Hi. by apply app_inv_head in Hi. }
  exists ext. rewrite He, Hr. split; [| by split].
  apply settle_closing_free; [exact Hext |].
  intros h Hh. rewrite Hcl in Hh. split; [by apply Hown |]. right.
  intros tr'. by apply Hheld.
Qed.


(** X7: the second deferred function drops table [i] on the connection
    of slot [i], for every table and in their order; an error is written
    to standard error and does not stop the loop, and the function returns
    normally. *)
Theorem drop_tables_drops_all (o : oracle) (hs : list handle) (tr0 : trace) :
  numTables cfg <= Z.of_nat (length hs) ->
  exists ext,
    interp o (drop_tables cfg (Some <$> hs)) tr0 =
      (tr0 ++ ext, Done (Done tt, Some <$> hs)) /\
    drops ext = zip hs (seqZ 0 (numTables cfg)) /\
    stderr ext = (fun e => (drop_error, [VErr e])) <$> drop_failures ext.
Proof.
  intros Hfit.
  destruct (wp_interp _ _ o _ _ (drop_tables_wp hs tr0 Hfit))
    as (r & Hr & ext & Htr & Hext & Hdr & Herr & ->).
  exists ext. repeat split; auto.
  rewrite (surjective_pairing (interp o (drop_tables cfg (Some <$> hs)) tr0)).
  by rewrite Hr, Htr.
Qed.

(** X8: when the warm-up returns, it has begun exactly one transaction on
    the connection of every slot, in the order of the slots, none of its
    calls has failed, and the thirty statements of slot [i] name table
    [i % numTables]: the worker number is the index of the slot. *)
Theorem warmup_covers_every_slot (o : oracle) (hs : list handle) (tr0 : trace)
    (s' : slots) :
  Z.of_nat (length hs) = numLoops cfg ->
  snd (interp o (warmup cfg (Some <$> hs)) tr0) = Done (Done tt, s') ->
  exists ext,
    fst (interp o (warmup cfg (Some <$> hs)) tr0) = tr0 ++ ext /\
    s' = Some <$> hs /\
    begins ext = hs /\ workload_errors ext = [] /\
    tables_used ext =
      flat_map (fun i => replicate 30 (Z.rem i (numTables cfg))) (seqZ 0 (numLoops cfg)).
Proof.
  intros Hlen Hdone.
  destruct (wp_interp _ _ o _ _ (warmup_slots_wp hs tr0 Hlen))
    as (r & Hr & ext & Htr & Hext & Hs & H).
  rewrite Hr in Hdone. injection Hdone as ->. cbn [fst snd] in Hs, H.
  destruct H as (Hbeg & Herr & Htab & _). exists ext. auto.
Qed.

(** X9: replacing the connection of slot [i], lines 109 to 116.  The
    connection is closed first.  If [Close] fails, [main] panics with that
    error as it is, the slice is untouched and no connection is asked for.
    Otherwise [establishConnection] runs, its connection is stored in the
    slot, and if it failed the slot is nil when [main] panics with its
    error. *)
Theorem establishing_outcomes (o : oracle) (i : Z) (s : slots) (h : handle) (tr0 : trace) :
  0 <= i -> s !! Z.to_nat i = Some (Some h) ->
  exists (x : option error) (ext : trace),
    fst (interp o (establishing i s) tr0) = tr0 ++ Entry (ConnClose h) x :: ext /\
    closes ext = [] /\
    match x with
    | Some err =>
        ext = [] /\ snd (interp o (establishing i s) tr0) = Done (Panicked err, s)
    | None =>
        exists c e, established ext (c, e) /\
          snd (interp o (establishing i s) tr0) =
            Done (match e with Some err => Panicked err | None => Done tt end,
                  <[Z.to_nat i := c]> s)
    end.
Proof.
  intros Hi Hs.
  destruct (wp_interp _ _ o _ _ (establishing_outcomes_wp i s h tr0 Hi Hs))
    as (r & Hr & x & ext & Htr & Hext & H).
  exists x, ext. split; [exact Htr |]. split; [absent |].
  destruct x as [err |].
  - destruct H as [-> ->]. auto.
  - destruct H as (c & e & Hest & ->). eauto.
Qed.

(** *** Runs of [main] *)

Ltac main_cases o :=
  let r := fresh "r" in
  let Hr := fresh "Hr" in
  let Hout := fresh "Hout" in
  destruct (main_outcome_interp o) as (r & Hr & Hout);
  destruct Hout as
    [ err
    | pre v s0 Hpre Hwhy
    | A pre cr cl v (Hpre & HA & HlenA & Hlast) Hcr Hwhy (Hcl & Hclosed)
    | A pre cr wu dr cl v (Hpre & HA & HlenA & Hlast) (Hcr & Hcreates & Hcf & Hfit)
        Hwu Hwhy (Hdr & Hdrops) (Hcl & Hclosed)
    | A B pre cr wu bm dr cl err (Hpre & HA & HlenA & Hlast)
        (Hcr & Hcreates & Hcf & Hfit) (Hwu & Hbegins & Hwe & Htables & Hzero & Hset)
        (Hbm & Hsteady & HlenB & HB & Hclosed1) Hclf Hlast2
        (Hdr & Hdrops) (Hcl & Hclosed)
    | A B pre cr wu bm dr cl refusal (Hpre & HA & HlenA & Hlast)
        (Hcr & Hcreates & Hcf & Hfit) (Hwu & Hbegins & Hwe & Htables & Hzero & Hset)
        (Hbm & Hsteady & HlenB & HB & Hclosed1) Hclf Hlast2
        (Hdr & Hdrops) (Hcl & Hclosed)
    | A B pre cr wu bm x dr cl (Hpre & HA & HlenA & Hlast)
        (Hcr & Hcreates & Hcf & Hfit) (Hwu & Hbegins & Hwe & Htables & Hzero & Hset)
        (Hbm & HlenB & HB & Hclosed1 & Hclf & Hgos & Hlast2) Hsteady (Hdr & Hdrops)
        (Hcl & Hclosed) ].

(** X10: when [main] returns, it has called [Close] on every connection
    it has acquired, once each and in the order of acquisition: first on
    those established at the start, one in every ramp step, then on those
    established in the ramp steps, in the deferred function.  It has
    acquired [2 * numLoops] connections, and the slice holds the second
    half. *)
Theorem main_closes_what_it_acquired (o : oracle) (s : slots) :
  snd (interp o (main cfg) []) = Done (Done tt, s) ->
  closes (fst (interp o (main cfg) [])) = acquired (fst (interp o (main cfg) [])) /\
  Z.of_nat (length (acquired (fst (interp o (main cfg) [])))) = 2 * numLoops cfg /\
  s = Some <$> drop (Z.to_nat (numLoops cfg)) (acquired (fst (interp o (main cfg) []))).
Proof.
  intros Hdone. main_cases o; rewrite Hr in Hdone; try discriminate.
  destruct x; [discriminate |]. injection Hdone as <-.
  autorewrite with kinds. drop_absent. rewrite HA, HB, Hclosed1, Hclosed. simpl.
  rewrite !app_nil_r. split; [reflexivity |].
  rewrite length_app. split; [lia |].
  replace (Z.to_nat (numLoops cfg)) with (length A) by lia.
  by rewrite drop_app_length.
Qed.

(** X11: when [main] returns, [db.Close] was called once and before the
    deferred functions: every [DROP TABLE] statement and the closing of
    the connections of all slots come after it, the statements first,
    table [i] on the connection of slot [i]. *)
Theorem main_cleans_up_after_db_close (o : oracle) (s : slots) :
  snd (interp o (main cfg) []) = Done (Done tt, s) ->
  db_closes (fst (interp o (main cfg) [])) = [None] /\
  exists pre dr cl hs,
    fst (interp o (main cfg) []) = pre ++ [Entry DbClose None] ++ dr ++ cl /\
    s = Some <$> hs /\
    db_closes pre = [] /\ drops pre = [] /\
    drops dr = zip hs (seqZ 0 (numTables cfg)) /\ closes dr = [] /\
    closes cl = hs /\ drops cl = [].
Proof.
  intros Hdone. main_cases o; rewrite Hr in Hdone; try discriminate.
  destruct x; [discriminate |]. injection Hdone as <-.
  split.
  { autorewrite with kinds. by drop_absent. }
  exists (pre ++ cr ++ wu ++ bm), dr, cl, B.
  split; [by rewrite <- !app_assoc |]. split; [reflexivity |].
  autorewrite with kinds. drop_absent. simpl. repeat split; auto.
Qed.

(** X12: [main] can return only with settings that fit: [numLoops] is
    not negative, there are no more tables than connections, and
    [numTables] is zero only if [numLoops] is.  With other settings it
    panics, whatever the database answers. *)
Theorem main_returns_only_with_fitting_settings (o : oracle) (s : slots) :
  snd (interp o (main cfg) []) = Done (Done tt, s) ->
  0 <= numLoops cfg /\ numTables cfg <= numLoops cfg /\
  (numTables cfg = 0 -> numLoops cfg = 0).
Proof.
  intros Hdone. main_cases o; rewrite Hr in Hdone; try discriminate.
  repeat split; auto. lia.
Qed.

(** X13: if fewer than [numLoops] connections were acquired, [main] has
    panicked before it deferred any function: it has closed no connection,
    created no table and not closed the database. *)
Theorem main_unconnected_closes_nothing (o : oracle) :
  Z.of_nat (length (acquired (fst (interp o (main cfg) [])))) < numLoops cfg ->
  closes (fst (interp o (main cfg) [])) = [] /\
  creates (fst (interp o (main cfg) [])) = [] /\
  db_closes (fst (interp o (main cfg) [])) = [] /\
  exists v s, snd (interp o (main cfg) []) = Done (Panicked v, s).
Proof.
  intros Hfew. main_cases o; rewrite Hr.
  - repeat split; eauto.
  - repeat split; eauto; absent.
  - exfalso. revert Hfew. autorewrite with kinds. rewrite HA, !length_app. lia.
  - exfalso. revert Hfew. autorewrite with kinds. rewrite HA, !length_app. lia.
  - exfalso. revert Hfew. autorewrite with kinds. rewrite HA, !length_app. lia.
  - exfalso. revert Hfew. autorewrite with kinds. rewrite HA, !length_app. lia.
  - exfalso. revert Hfew. autorewrite with kinds. rewrite HA, !length_app. lia.
Qed.

(** X14: if a [CREATE TABLE] statement fails, it is the only one that
    does, and [main] panics with its error; the first deferred function
    has then closed every connection acquired, all [numLoops] of them,
    while no table is dropped, no transaction begun and the database not
    closed. *)
Theorem main_create_failure (o : oracle) :
  create_failures (fst (interp o (main cfg) [])) <> [] ->
  exists err,
    create_failures (fst (interp o (main cfg) [])) = [err] /\
    snd (interp o (main cfg) []) =
      Done (Panicked ("Error creating table: " +:+ err),
            Some <$> acquired (fst (interp o (main cfg) []))) /\
    closes (fst (interp o (main cfg) [])) = acquired (fst (interp o (main cfg) [])) /\
    Z.of_nat (length (acquired (fst (interp o (main cfg) [])))) = numLoops cfg /\
    drops (fst (interp o (main cfg) [])) = [] /\
    begins (fst (interp o (main cfg) [])) = [] /\
    db_closes (fst (interp o (main cfg) [])) = [].
Proof.
  intros Hfail. main_cases o; rewrite Hr.
  - by destruct Hfail.
  - destruct Hfail. absent.
  - destruct Hwhy as [(Hnone & _) | (err & Hone & ->)].
    + destruct Hfail. autorewrite with kinds. rewrite Hnone. by drop_absent.
    + exists err. autorewrite with kinds. drop_absent.
      rewrite Hone, HA, Hclosed, !app_nil_r. simpl. repeat split; auto.
  - destruct Hfail. autorewrite with kinds. rewrite Hcf. by drop_absent.
  - destruct Hfail. autorewrite with kinds. rewrite Hcf. by drop_absent.
  - destruct Hfail. autorewrite with kinds. rewrite Hcf. by drop_absent.
  - destruct Hfail. autorewrite with kinds. rewrite Hcf. simpl. by drop_absent.
Qed.

(** The deferred functions after a warm-up that has failed: every [Close]
    returns when the warm-up has left no transaction open, and [Close]
    hangs on the connection [a] when it has left one open on [a]. *)
Lemma warmup_failed_settle {R : Type} (w : holding) (A : list handle)
    (pre cr wu dr cl : trace) (r : exit R) :
  Forall (accepted connecting) pre -> Forall (accepted creating) cr ->
  Forall (accepted warming) wu -> Forall (accepted dropping) dr ->
  Forall (accepted closing) cl -> closes cl = A ->
  (settled wu ->
   settle w [] (pre ++ cr ++ wu ++ dr ++ cl) r =
     (pre ++ cr ++ wu ++ dr ++ cl, Ended r)) /\
  (forall a, In a A -> leaves_open a wu ->
     exists before rest,
       cl = before ++ rest /\
       settle w [] (pre ++ cr ++ wu ++ dr ++ cl) r =
         (pre ++ cr ++ wu ++ dr ++ before, Hung a) /\
       Forall (accepted closing) before /\ ~ In a (closes before)).
Proof.
  intros Hpre Hcr Hwu Hdr Hcl Hclosed.
  assert (Hnone : closes (pre ++ cr ++ wu ++ dr) = []).
  { autorewrite with kinds. by drop_absent. }
  assert (Hgos : gos (pre ++ cr ++ wu ++ dr) = []).
  { autorewrite with kinds. by drop_absent. }
  assert (Hopen : forall h, open_txs h (pre ++ cr ++ wu ++ dr) = open_after h 0 wu).
  { intros h. unfold open_txs. rewrite !open_after_app.
    replace (open_after h 0 pre) with 0%nat by (symmetry; unmoved).
    replace (open_after h 0 cr) with 0%nat by (symmetry; unmoved).
    unmoved. }
  replace (pre ++ cr ++ wu ++ dr ++ cl) with ((pre ++ cr ++ wu ++ dr) ++ cl)
    by (by rewrite <- !app_assoc).
  rewrite (settle_app w _ cl r Hnone []). simpl. split.
  - intros Hset. rewrite settle_closing_free; [by rewrite <- !app_assoc | exact Hcl |].
    intros h _. rewrite Hopen, Hset, Hgos. auto.
  - intros a Ha Hleft.
    destruct (settle_closing_hung w a cl r Hcl ltac:(by rewrite Hclosed)
                (pre ++ cr ++ wu ++ dr))
      as (before & rest & -> & Hs & Hb & Hnot).
    + intros h _. rewrite Hopen, Hleft. by destruct (a =? h)%nat.
    + intros h _. by rewrite Hgos.
    + exists before, rest. rewrite Hs, <- !app_assoc. auto.
Qed.

(** A run of [main] in which the warm-up has left no transaction open. *)
Lemma main_settle_free {R : Type} (w : holding) (pre cr wu rest : trace) (r : exit R) :
  (forall tr h, w tr h = false) ->
  Forall (accepted connecting) pre -> Forall (accepted creating) cr ->
  Forall (accepted warming) wu -> settled wu ->
  Forall (accepted unbracketed) rest ->
  settle w [] (pre ++ cr ++ wu ++ rest) r = (pre ++ cr ++ wu ++ rest, Ended r).
Proof.
  intros Hw Hpre Hcr Hwu Hset Hrest.
  assert (Hnone : closes (pre ++ cr ++ wu) = []).
  { autorewrite with kinds. by drop_absent. }
  replace (pre ++ cr ++ wu ++ rest) with ((pre ++ cr ++ wu) ++ rest)
    by (by rewrite <- !app_assoc).
  rewrite (settle_app w _ rest r Hnone []). simpl.
  apply settle_unbracketed_free; [exact Hw | exact Hrest |].
  intros h. unfold open_txs. rewrite !open_after_app.
  replace (open_after h 0 pre) with 0%nat by (symmetry; unmoved).
  replace (open_after h 0 cr) with 0%nat by (symmetry; unmoved).
  apply Hset.
Qed.

Ltac unbracketing :=
  repeat (apply Forall_app; split);
  first [ match goal with
          | H : Forall (accepted ?c) ?ext |- Forall (accepted unbracketed) ?ext =>
              apply (accepted_allow c); [intros ? e; by destruct e | exact H]
          end
        | by repeat constructor ].

(** X15: if [BeginTx] or [Commit] fails in the warm-up, it is the only
    call that fails, and [main] panics with the error [run] made of it;
    both deferred functions have then run: every table is dropped and
    every connection acquired is closed, while no goroutine is started
    and the database is not closed.  The transaction of every call of
    [run] before has ended and that of the failed call has ended or not
    begun, so that every [Close] returns. *)
Theorem main_warmup_failure_cleans_up (o : oracle) (w : holding) :
  bracket_failures (fst (exec o w (main cfg) [])) <> [] ->
  exists prefix err,
    In prefix bracket_prefixes /\
    bracket_failures (fst (exec o w (main cfg) [])) = [err] /\
    statement_failures (fst (exec o w (main cfg) [])) = [] /\
    snd (exec o w (main cfg) []) =
      Ended (Done (Panicked (prefix +:+ err),
                   Some <$> acquired (fst (exec o w (main cfg) [])))) /\
    closes (fst (exec o w (main cfg) [])) = acquired (fst (exec o w (main cfg) [])) /\
    drops (fst (exec o w (main cfg) [])) =
      zip (acquired (fst (exec o w (main cfg) []))) (seqZ 0 (numTables cfg)) /\
    gos (fst (exec o w (main cfg) [])) = [] /\
    db_closes (fst (exec o w (main cfg) [])) = [].
Proof.
  rewrite exec_settle_start. main_cases o; rewrite Hr; intros Hfail.
  - by destruct Hfail.
  - destruct Hfail. apply (settle_kind (failure_of is_bracket)). absent.
  - destruct Hfail. apply (settle_kind (failure_of is_bracket)).
    change (bracket_failures (pre ++ cr ++ cl) = []).
    autorewrite with kinds. by drop_absent.
  - destruct Hwhy as [(Hnone & _) | (prefix & err & Hone & -> & Hin & Hwhy)].
    { destruct Hfail. apply (settle_kind (failure_of is_bracket)).
      change (bracket_failures (pre ++ cr ++ wu ++ dr ++ cl) = []).
      destruct (failures_of_workload _ Hnone) as [_ Hbf].
      autorewrite with kinds. rewrite Hbf. by drop_absent. }
    destruct Hwhy as [(Hp & Hbf & Hsf & Hset) | (_ & _ & Hbf & _)].
    2: { destruct Hfail. apply (settle_kind (failure_of is_bracket)).
         change (bracket_failures (pre ++ cr ++ wu ++ dr ++ cl) = []).
         autorewrite with kinds. rewrite Hbf. by drop_absent. }
    destruct (warmup_failed_settle w A pre cr wu dr cl
                (Done (@Panicked unit (prefix +:+ err), Some <$> A))
                Hpre Hcr Hwu Hdr Hcl Hclosed) as [Hends _].
    rewrite (Hends Hset). cbn [fst snd].
    exists prefix, err. autorewrite with kinds. drop_absent.
    rewrite Hbf, Hsf, HA, Hclosed, Hdrops, !app_nil_r. simpl. repeat split; auto.
  - destruct Hfail. apply (settle_kind (failure_of is_bracket)).
    change (bracket_failures (pre ++ cr ++ wu ++ bm ++ dr ++ cl) = []).
    destruct (failures_of_workload _ Hwe) as [_ Hbf].
    autorewrite with kinds. rewrite Hbf. by drop_absent.
  - destruct Hfail. apply (settle_kind (failure_of is_bracket)).
    change (bracket_failures (pre ++ cr ++ wu ++ bm ++ dr ++ cl) = []).
    destruct (failures_of_workload _ Hwe) as [_ Hbf].
    autorewrite with kinds. rewrite Hbf. by drop_absent.
  - destruct Hfail. apply (settle_kind (failure_of is_bracket)).
    change (bracket_failures (pre ++ cr ++ wu ++ bm ++ [Entry DbClose x] ++ dr ++ cl) = []).
    destruct (failures_of_workload _ Hwe) as [_ Hbf].
    autorewrite with kinds. rewrite Hbf. simpl. by drop_absent.
Qed.

(** C10: a statement of [run] that fails during the warm-up does not end
    the process.  [run] returns with its transaction open, [main] panics
    with the error and the deferred functions run: the tables are
    dropped, and then [Close] waits for the open transaction on the
    connection of the failed call.  [main] hangs in that call: it never
    gets to end in the panic; the connections closed are those of the
    slots before, and that connection and those behind it stay open. *)
Theorem warmup_statement_failure_hangs (o : oracle) (w : holding) :
  statement_failures (fst (exec o w (main cfg) [])) <> [] ->
  exists h err,
    snd (exec o w (main cfg) []) = Hung h /\
    statement_failures (fst (exec o w (main cfg) [])) = [err] /\
    last (begins (fst (exec o w (main cfg) []))) = Some h /\
    open_txs h (fst (exec o w (main cfg) [])) = 1%nat /\
    In h (acquired (fst (exec o w (main cfg) []))) /\
    ~ In h (closes (fst (exec o w (main cfg) []))) /\
    closes (fst (exec o w (main cfg) [])) =
      take (length (closes (fst (exec o w (main cfg) []))))
           (acquired (fst (exec o w (main cfg) []))) /\
    drops (fst (exec o w (main cfg) [])) =
      zip (acquired (fst (exec o w (main cfg) []))) (seqZ 0 (numTables cfg)) /\
    gos (fst (exec o w (main cfg) [])) = [] /\
    db_closes (fst (exec o w (main cfg) [])) = [].
Proof.
  rewrite exec_settle_start. main_cases o; rewrite Hr; intros Hfail.
  - by destruct Hfail.
  - destruct Hfail. apply (settle_kind (failure_of is_statement)). absent.
  - destruct Hfail. apply (settle_kind (failure_of is_statement)).
    change (statement_failures (pre ++ cr ++ cl) = []).
    autorewrite with kinds. by drop_absent.
  - destruct Hwhy as [(Hnone & _) | (prefix & err & Hone & -> & Hin & Hwhy)].
    { destruct Hfail. apply (settle_kind (failure_of is_statement)).
      change (statement_failures (pre ++ cr ++ wu ++ dr ++ cl) = []).
      destruct (failures_of_workload _ Hnone) as [Hsf _].
      autorewrite with kinds. rewrite Hsf. by drop_absent. }
    destruct Hwhy as [(_ & _ & Hsf & _) | (Hp & Hsf & Hbf & a & Ha & Hlast1 & Hleft)].
    { destruct Hfail. apply (settle_kind (failure_of is_statement)).
      change (statement_failures (pre ++ cr ++ wu ++ dr ++ cl) = []).
      autorewrite with kinds. rewrite Hsf. by drop_absent. }
    destruct (warmup_failed_settle w A pre cr wu dr cl
                (Done (@Panicked unit (prefix +:+ err), Some <$> A))
                Hpre Hcr Hwu Hdr Hcl Hclosed) as [_ Hhangs].
    destruct (Hhangs a Ha Hleft) as (before & rest & -> & -> & Hb & Hnot).
    cbn [fst snd]. exists a, err. split; [reflexivity |].
    assert (Hopen : open_txs a (pre ++ cr ++ wu ++ dr ++ before) = 1%nat).
    { unfold open_txs. rewrite !open_after_app.
      replace (open_after a 0 pre) with 0%nat by (symmetry; unmoved).
      replace (open_after a 0 cr) with 0%nat by (symmetry; unmoved).
      rewrite Hleft, Nat.eqb_refl.
      replace (open_after a 1 dr) with 1%nat by (symmetry; unmoved).
      unmoved. }
    rewrite Hopen. rewrite closes_app in Hclosed.
    autorewrite with kinds. drop_absent.
    rewrite Hsf, HA, Hdrops, !app_nil_r. simpl. rewrite ?app_nil_r.
    repeat split; auto. by rewrite <- Hclosed, take_app_length.
  - destruct Hfail. apply (settle_kind (failure_of is_statement)).
    change (statement_failures (pre ++ cr ++ wu ++ bm ++ dr ++ cl) = []).
    destruct (failures_of_workload _ Hwe) as [Hsf _].
    autorewrite with kinds. rewrite Hsf. by drop_absent.
  - destruct Hfail. apply (settle_kind (failure_of is_statement)).
    change (statement_failures (pre ++ cr ++ wu ++ bm ++ dr ++ cl) = []).
    destruct (failures_of_workload _ Hwe) as [Hsf _].
    autorewrite with kinds. rewrite Hsf. by drop_absent.
  - destruct Hfail. apply (settle_kind (failure_of is_statement)).
    change (statement_failures (pre ++ cr ++ wu ++ bm ++ [Entry DbClose x] ++ dr ++ cl) = []).
    destruct (failures_of_workload _ Hwe) as [Hsf _].
    autorewrite with kinds. rewrite Hsf. simpl. by drop_absent.
Qed.

Lemma started_on (B : list handle) (k : nat) (f : closure) :
  In f (started B k) -> exists h i, f = WorkLoop (Some h) i /\ In h B.
Proof.
  unfold started. intros H. apply in_flat_map in H as (j & _ & H).
  apply list_elem_of_In, list_elem_of_fmap in H as (h & -> & H).
  exists h, (Z.of_nat j). split; [reflexivity |].
  rewrite <- (take_drop (S j) B). apply in_or_app. left. by apply list_elem_of_In.
Qed.

(** X16: when [main] returns, ramp step [j + 1] has started [j + 1]
    goroutines, on the connections that [db.Conn] handed out in the ramp
    steps 1 to [j + 1].  If [db.Conn] has handed out no connection twice,
    none of them is a connection of the warm-up; a pool that hands out a
    connection again lets goroutines run on connections the warm-up has
    used. *)
Theorem main_goroutines_use_replaced_connections (o : oracle) (s : slots) :
  snd (interp o (main cfg) []) = Done (Done tt, s) ->
  gos (fst (interp o (main cfg) [])) =
    started (drop (Z.to_nat (numLoops cfg)) (acquired (fst (interp o (main cfg) []))))
            (Z.to_nat (numLoops cfg)) /\
  (NoDup (acquired (fst (interp o (main cfg) []))) ->
   forall f, In f (gos (fst (interp o (main cfg) []))) ->
     exists h i, f = WorkLoop (Some h) i /\
                 In h (drop (Z.to_nat (numLoops cfg))
                            (acquired (fst (interp o (main cfg) [])))) /\
                 ~ In h (begins (fst (interp o (main cfg) [])))).
Proof.
  intros Hdone. main_cases o; rewrite Hr in Hdone; try discriminate.
  autorewrite with kinds. drop_absent. rewrite HA, HB, Hgos, Hbegins. simpl.
  rewrite !app_nil_r.
  replace (Z.to_nat (numLoops cfg)) with (length A) by lia.
  rewrite drop_app_length, HlenB. split; [reflexivity |].
  intros Hnodup f Hf. destruct (started_on _ _ _ Hf) as (h & i & -> & Hh).
  exists h, i. split; [reflexivity |]. split; [exact Hh |].
  apply NoDup_app in Hnodup as (_ & Hdisjoint & _).
  intros HhA. apply (Hdisjoint h); by apply list_elem_of_In.
Qed.

Lemma pool_level_take (tr : trace) (lvl : Z) (k : nat) :
  pool_level lvl (take k tr) <= pool_peak lvl tr.
Proof.
  rewrite <- (take_drop k tr) at 2. rewrite pool_peak_app.
  pose proof (pool_level_peak (take k tr) lvl). lia.
Qed.

Lemma pool_peak_connected (pre rest : trace) :
  Z.of_nat (length (acquired pre)) = numLoops cfg -> steady rest ->
  pool_peak 0 (pre ++ rest) <= Z.max 0 (numLoops cfg).
Proof.
  intros Hlen Hrest. rewrite pool_peak_app.
  pose proof (pool_peak_acquired pre 0). pose proof (pool_level_peak pre 0).
  specialize (Hrest (pool_level 0 pre)). lia.
Qed.

Ltac steadily :=
  repeat apply steady_app;
  first [ assumption
        | match goal with
          | H : Forall (accepted ?c) ?ext |- steady ?ext =>
              apply steady_releasing, (accepted_allow c);
              [intros ? e; by destruct e | exact H]
          end
        | apply steady_releasing; by repeat constructor ].

(** X17: [main] never has more connections open than the [numLoops] it
    allows the pool with [SetMaxOpenConns]: after any number of its calls,
    the connections [db.Conn] has handed out exceed those closed without
    error by at most [numLoops].  A ramp step closes the connection of its
    slot before it asks for the next. *)
Theorem main_keeps_within_pool (o : oracle) (k : nat) :
  pool_level 0 (take k (fst (interp o (main cfg) []))) <= Z.max 0 (numLoops cfg).
Proof.
  etransitivity; [apply pool_level_take |].
  main_cases o.
  - simpl. lia.
  - pose proof (pool_peak_acquired pre 0).
    destruct Hwhy as [(Hneg & _ & Hnone) | (cause & Hfew & _)].
    + rewrite Hnone in H. simpl in H. lia.
    + lia.
  - apply pool_peak_connected; [by rewrite HA | steadily].
  - apply pool_peak_connected; [by rewrite HA | steadily].
  - apply pool_peak_connected; [by rewrite HA | steadily].
  - apply pool_peak_connected; [by rewrite HA | steadily].
  - apply pool_peak_connected; [by rewrite HA | steadily].
Qed.





(** X25: [Close] keeps [main] waiting only for a transaction left open:
    if no statement of the warm-up has failed and no goroutine holds a
    transaction, every call of [Close] returns, in the ramp steps and in
    the deferred function, and the run makes the calls and ends as it
    does when every call returns. *)
Theorem main_ends_without_open_transaction (o : oracle) (w : holding) :
  statement_failures (fst (exec o w (main cfg) [])) = [] ->
  (forall tr h, w tr h = false) ->
  exec o w (main cfg) [] =
    (fst (interp o (main cfg) []), Ended (snd (interp o (main cfg) []))).
Proof.
  rewrite exec_settle_start. main_cases o; rewrite Hr; intros Hnone Hw.
  - reflexivity.
  - rewrite <- (app_nil_r pre) at 1 2.
    apply (main_settle_free w pre [] [] []); auto; by intros h n.
  - apply (main_settle_free w pre cr [] cl); auto; [by intros h n | unbracketing].
  - destruct Hwhy as [(_ & _ & _ & Hset) | (prefix & err & _ & _ & _ & Hwhy)].
    { apply (main_settle_free w pre cr wu (dr ++ cl)); auto. unbracketing. }
    destruct Hwhy as [(_ & _ & _ & Hset) | (_ & Hsf & _ & a & Ha & _ & Hleft)].
    { apply (main_settle_free w pre cr wu (dr ++ cl)); auto. unbracketing. }
    exfalso. revert Hnone.
    destruct (warmup_failed_settle w A pre cr wu dr cl
                (Done (@Panicked unit v, Some <$> A))
                Hpre Hcr Hwu Hdr Hcl Hclosed) as [_ Hhangs].
    destruct (Hhangs a Ha Hleft) as (before & rest & -> & -> & Hb & Hnot).
    cbn [fst]. autorewrite with kinds. rewrite Hsf. by drop_absent.
  - apply (main_settle_free w pre cr wu (bm ++ dr ++ cl)); auto. unbracketing.
  - apply (main_settle_free w pre cr wu (bm ++ dr ++ cl)); auto. unbracketing.
  - apply (main_settle_free w pre cr wu (bm ++ [Entry DbClose x] ++ dr ++ cl)); auto.
    unbracketing.
Qed.

End MainParts.

(** ** Progress of a ramp step on the machine *)

Lemma tally_done_short (sts : list gstate) :
  tally done_of sts < Z.of_nat (length sts) ->
  exists k st, sts !! k = Some st /\ ~ is_finished st.
Proof.
  induction sts as [| st sts IH]; simpl; [lia |]. intros Hlt.
  destruct st as [| tr d err | tr r | tr r];
    try (exists 0%nat; eexists; split; [reflexivity | simpl; tauto]).
  destruct IH as (k & st & Hk & Hst); [simpl in Hlt; lia |].
  by exists (S k), st.
Qed.

(** With a clock that shows the time of its last reading again, no call
    of [run] has to wait. *)
Lemma perform_later_working {X : Type} (e : event X) (sh : shared) :
  working X e = true ->
  exists x sh', perform e sh (later (clock sh) X e) = Yields x sh'.
Proof.
  destruct e; try discriminate; intros _; simpl; eauto.
  rewrite Z.leb_refl. eauto.
Qed.

Lemma main_can_step {R : Type} (cfg : config) (a : answers) (m : machine R)
    (r : advanced R) :
  m_crashed m = false -> advance a (m_shared m) (m_main m) = Some r ->
  exists m', mstep_fun cfg MainThread a m = Some m'.
Proof. intros Hcr Hr. unfold mstep_fun. rewrite Hcr, Hr. eauto. Qed.

Lemma goroutine_can_step {R : Type} (cfg : config) (a : answers) (m : machine R)
    (k : nat) (g : goroutine) (r : advanced unit) :
  m_crashed m = false -> m_pool m !! k = Some g ->
  advance a (m_shared m) (g_code g) = Some r ->
  exists m', mstep_fun cfg (Spawned k) a m = Some m'.
Proof. intros Hcr Hg Hr. unfold mstep_fun. rewrite Hcr, Hg, Hr. eauto. Qed.

Section RampStepProgress.

Variable cfg : config.
Variable i : Z.
Variable s : slots.
Variable hs : list handle.

Hypothesis tables : numTables cfg <> 0.
Hypothesis step_index : 0 <= i.
Hypothesis live : take (Z.to_nat (i + 1)) s = Some <$> hs.
Hypothesis enough : length hs = Z.to_nat (i + 1).

Lemma unfinished_can_step (m : machine (exit unit * slots)) (sts : list gstate)
    (k : nat) (st : gstate) :
  m_crashed m = false ->
  Forall2 (g_inv cfg i (clock (m_shared m))) sts (m_pool m) ->
  wg (m_shared m) i = i + 1 - tally done_of sts ->
  Z.of_nat (length sts) = i + 1 ->
  sts !! k = Some st -> ~ is_finished st ->
  exists m', mstep_fun cfg (Spawned k) (later (clock (m_shared m))) m = Some m'.
Proof.
  intros Hcr Hpool Hwg Hlen Hk Hst.
  destruct (Forall2_lookup_l _ _ _ _ _ Hpool Hk) as (g & Hg & h & Hfn & Hinv).
  assert (Hstep : exists r, advance (later (clock (m_shared m))) (m_shared m) (g_code g)
                            = Some r).
  { destruct st as [| tr d err | tr r | tr r].
    - destruct Hinv as (_ & _ & p & -> & Hwp).
      destruct p as [[d [err |]] | v | X e kont]; simpl in Hwp.
      + simpl. eauto.
      + simpl. eauto.
      + destruct Hwp.
      + destruct Hwp as [He _].
        destruct (perform_later_working e (m_shared m) He) as (x & sh' & Hperf).
        simpl. rewrite Hperf. eauto.
    - destruct Hinv as (_ & _ & -> & _). simpl. eauto.
    - destruct Hinv as (_ & _ & -> & _). simpl.
      pose proof (tally_done_unfinished _ _ _ Hk Hst) as Hdone.
      unfold wg_add. destruct (wg (m_shared m) i + -1 <? 0) eqn:Hneg; [lia | eauto].
    - by destruct Hst. }
  destruct Hstep as [r Hr]. by apply goroutine_can_step with g r.
Qed.

(** X19: a ramp step cannot deadlock.  In every state the machine can
    reach, in any interleaving, either the main goroutine has finished the
    step or some goroutine can make its next call: while the main
    goroutine waits in [wg.Wait] with a counter that is not zero, a
    goroutine that has not returned can go on, and its [wg.Done] never
    makes the counter negative. *)
Theorem ramp_step_never_deadlocks (sh : shared) (m : machine (exit unit * slots)) :
  wg sh i = 0 -> numErrors sh i = 0 ->
  reachable cfg (step_machine i s sh) m ->
  (exists r, m_main m = Ret r) \/
  exists t m', mstep_fun cfg t (later (clock (m_shared m))) m = Some m'.
Proof.
  intros Hwg Herr Hreach.
  destruct (step_inv_reachable cfg i s hs tables step_index live enough sh m
              Hwg Herr Hreach)
    as (Hcr & ph & sts & Hmain & Hpool & Hfns & Herrs & Htach).
  pose proof (Forall2_length _ _ _ Hpool) as Hsts.
  destruct ph as [| | c | |]; simpl in Hmain.
  - destruct Hmain as (Hcode & _). right. exists MainThread.
    eapply main_can_step; [exact Hcr |]. rewrite Hcode. simpl. reflexivity.
  - destruct Hmain as (Hcode & _ & _ & Hw). right. exists MainThread.
    eapply main_can_step; [exact Hcr |]. rewrite Hcode. simpl.
    unfold wg_add. rewrite Hw.
    destruct (0 + (i + 1) <? 0) eqn:Hneg; [lia | reflexivity].
  - destruct Hmain as (Hcode & Hlen & _ & Hw). right.
    destruct c as [| c].
    + rewrite launching_wait in Hcode.
      destruct (wg (m_shared m) i =? 0) eqn:Hzero.
      * exists MainThread. eapply main_can_step; [exact Hcr |].
        rewrite Hcode. simpl. rewrite Hzero. reflexivity.
      * apply Z.eqb_neq in Hzero.
        pose proof (tally_range done_of sts done_of_range) as Hrange.
        destruct (tally_done_short sts) as (k & st & Hk & Hst); [lia |].
        exists (Spawned k).
        apply (unfinished_can_step m sts k st); auto. lia.
    + destruct (lookup_lt_is_Some_2 hs (length (m_pool m))) as [h Hh]; [lia |].
      rewrite (launching_go i s hs step_index live enough c _ h Hh) in Hcode.
      exists MainThread. eapply main_can_step; [exact Hcr |].
      rewrite Hcode. simpl. reflexivity.
  - destruct Hmain as (Hcode & _). right. exists MainThread.
    eapply main_can_step; [exact Hcr |]. rewrite Hcode. simpl. reflexivity.
  - destruct Hmain as (Hwp & _).
    destruct (m_main m) as [r | v | X e k] eqn:Hcode; simpl in Hwp.
    + left. eauto.
    + destruct Hwp.
    + right. exists MainThread. destruct Hwp as [He _].
      destruct e; try discriminate;
        (eapply main_can_step; [exact Hcr |]); rewrite Hcode; simpl; reflexivity.
Qed.

Lemma g_inv_not_panic (clk : instant) (st : gstate) (g : goroutine) :
  g_inv cfg i clk st g -> forall v, g_code g <> Panic v.
Proof.
  intros (h & _ & H) v. destruct st as [| tr d err | tr r | tr r].
  - destruct H as (_ & _ & p & -> & Hwp).
    destruct p as [[d [err |]] | v' | X e k]; simpl in *; try discriminate.
  - destruct H as (_ & _ & -> & _). discriminate.
  - destruct H as (_ & _ & -> & _). discriminate.
  - destruct H as (_ & _ & -> & _). discriminate.
Qed.

Lemma main_code_not_panic (sh : shared) (m : machine (exit unit * slots)) :
  wg sh i = 0 -> numErrors sh i = 0 ->
  reachable cfg (step_machine i s sh) m -> forall v, m_main m <> Panic v.
Proof.
  intros Hwg Herr Hreach.
  destruct (step_inv_reachable cfg i s hs tables step_index live enough sh m
              Hwg Herr Hreach)
    as (Hcr & ph & sts & Hmain & _).
  intros v. destruct ph as [| | c | |]; simpl in Hmain.
  - destruct Hmain as (-> & _). discriminate.
  - destruct Hmain as (-> & _). discriminate.
  - destruct Hmain as (-> & Hlen & _). destruct c as [| c].
    + rewrite launching_wait. discriminate.
    + destruct (lookup_lt_is_Some_2 hs (length (m_pool m))) as [h Hh]; [lia |].
      rewrite (launching_go i s hs step_index live enough c _ h Hh). discriminate.
  - destruct Hmain as (-> & _). discriminate.
  - destruct Hmain as (Hwp & _). intros Hcode. rewrite Hcode in Hwp. exact Hwp.
Qed.

Lemma wp_returns {R : Type} allowed (Q : trace -> exit R * slots -> Prop)
    (p : prog (exit R * slots)) :
  (forall tr r, Q tr r -> exists a, fst r = Done a) ->
  forall tr, wp allowed Q p tr -> returns p.
Proof.
  intros HQ. induction p as [[[a | v] s'] | v | X e k IH]; simpl; intros tr H; auto.
  - destruct (HQ _ _ H) as [a Ha]. discriminate Ha.
  - destruct H as [_ Hk]. intros x. by apply (IH x (tr ++ [Entry e x])).
Qed.

(** With a connection in each of the slots [0 .. i], the body of the
    iteration returns whatever its calls answer. *)
Lemma step_returns : returns ((running i ;; reporting i)%main s).
Proof.
  assert (Hfit : i + 1 <= Z.of_nat (length s)).
  { apply (f_equal length) in live.
    rewrite length_take, length_fmap in live. lia. }
  apply (wp_returns any_event (fun _ r => fst r = Done tt) _
           ltac:(intros tr r ->; eauto) []).
  apply wp_mbind. eapply wp_mono; [| apply (running_wp i s []); [exact step_index | exact Hfit]].
  intros tr1 r1 (-> & _).
  eapply wp_mono; [| apply reporting_printing_wp]. by intros tr2 r2 (-> & _).
Qed.

Lemma main_returns_reachable (sh : shared) (m : machine (exit unit * slots)) :
  wg sh i = 0 -> numErrors sh i = 0 ->
  reachable cfg (step_machine i s sh) m -> returns (m_main m).
Proof.
  intros Hwg Herr Hreach. unfold reachable in Hreach. revert m Hreach.
  apply (rtc_ind_r (fun m => returns (m_main m))); [apply step_returns |].
  intros m1 m2 Hreach (t & a & Hstep) IH.
  pose proof (main_code_not_panic sh m2 Hwg Herr
                (rtc_r _ _ _ Hreach (ex_intro _ t (ex_intro _ a Hstep)))) as Hnot.
  unfold mstep_fun in Hstep. destruct (m_crashed m1); [discriminate |].
  destruct t as [| k].
  - unfold advance in Hstep. destruct (m_main m1) as [r | v | X e k] eqn:Hcode;
      [discriminate | destruct IH |].
    destruct (perform e (m_shared m1) (a X e)) as [| v | x sh'];
      [discriminate | |]; injection Hstep as <-; simpl in *.
    + by destruct (Hnot v).
    + apply IH.
  - destruct (m_pool m1 !! k) as [g |]; [| discriminate].
    destruct (advance a (m_shared m1) (g_code g)); [| discriminate].
    injection Hstep as <-. exact IH.
Qed.

(** X20: a ramp step does not panic when each of the slots [0 .. i] holds
    a connection.  In every state the machine can reach, in any
    interleaving, the process has not crashed, no goroutine is about to
    panic, and the main goroutine neither is about to panic nor has ended
    the iteration in a panic: no index is out of range, no connection is
    nil, and [wg.Done] never finds the counter at zero. *)
Theorem ramp_step_never_panics (sh : shared) (m : machine (exit unit * slots)) :
  wg sh i = 0 -> numErrors sh i = 0 ->
  reachable cfg (step_machine i s sh) m ->
  m_crashed m = false /\
  (forall v, m_main m <> Panic v) /\
  (forall v s', m_main m <> Ret (Panicked v, s')) /\
  returns (m_main m) /\
  Forall (fun g => forall v, g_code g <> Panic v) (m_pool m).
Proof.
  intros Hwg Herr Hreach.
  pose proof (main_returns_reachable sh m Hwg Herr Hreach) as Hret.
  destruct (step_inv_reachable cfg i s hs tables step_index live enough sh m
              Hwg Herr Hreach)
    as (Hcr & ph & sts & Hmain & Hpool & Hfns & Herrs & Htach).
  split; [exact Hcr |]. split; [by apply main_code_not_panic with sh |].
  split; [intros v s' Hcode; by rewrite Hcode in Hret |]. split; [exact Hret |].
  clear Hmain Hfns Herrs Htach. induction Hpool as [| st g sts pool Hg _ IH];
    constructor; [by apply g_inv_not_panic with (clock (m_shared m)) st | exact IH].
Qed.

(** Without a connection in every slot of the step the main goroutine
    ends the iteration in a panic: it finds the index out of range. *)
Example short_slice_panics :
  exists m,
    run_schedule small [(MainThread, fine); (MainThread, fine); (MainThread, fine)]
      (step_machine 1 [Some 10%nat] fresh) = Some m /\
    m_main m = Ret (Panicked index_out_of_range, [Some 10%nat]) /\
    m_crashed m = false.
Proof. eexists. split; [vm_compute; reflexivity |]. by split. Qed.

Lemma tally_samples_errors (sts : list gstate) :
  0 <= tally errors_of sts /\
  Z.of_nat (length (gathered sts)) + tally errors_of sts <= Z.of_nat (length sts).
Proof.
  induction sts as [| st sts [IH0 IH]]; simpl; [lia |].
  unfold gathered in *. simpl. rewrite length_app.
  destruct st as [| tr d err | tr [d [err |]] | tr [d [err |]]]; simpl; lia.
Qed.

(** X21: the estimator of a ramp step is never given more samples than
    the size it was created with.  In every state the machine can reach
    at most [i + 1] goroutines are started, and once one is started the
    estimator has size [i + 1] and the samples added and the errors
    counted together do not exceed the number of goroutines started;
    [numErrors] has not wrapped around. *)
Theorem ramp_step_stays_within_size (sh : shared) (m : machine (exit unit * slots)) :
  wg sh i = 0 -> numErrors sh i = 0 -> i + 1 < 2 ^ 31 ->
  reachable cfg (step_machine i s sh) m ->
  (length (m_pool m) <= Z.to_nat (i + 1))%nat /\
  (m_pool m <> [] ->
   capacity (tach (m_shared m) i) = i + 1 /\
   0 <= numErrors (m_shared m) i /\
   Z.of_nat (length (samples (tach (m_shared m) i))) + numErrors (m_shared m) i <=
     Z.of_nat (length (m_pool m))).
Proof.
  intros Hwg Herr Hsmall Hreach.
  destruct (step_inv_reachable cfg i s hs tables step_index live enough sh m
              Hwg Herr Hreach)
    as (Hcr & ph & sts & Hmain & Hpool & Hfns & Herrs & Htach).
  pose proof (Forall2_length _ _ _ Hpool) as Hsts.
  assert (Hlen : (length (m_pool m) <= Z.to_nat (i + 1))%nat).
  { destruct ph as [| | c | |]; simpl in Hmain.
    - destruct Hmain as (_ & -> & _). simpl. lia.
    - destruct Hmain as (_ & -> & _). simpl. lia.
    - destruct Hmain as (_ & Hlen & _). lia.
    - destruct Hmain as (_ & Hlen & _). lia.
    - destruct Hmain as (_ & Hlen & _). lia. }
  split; [exact Hlen |]. intros Hne.
  destruct Htach as [-> | [Hcap Hsam]].
  { simpl in Hmain. by destruct Hmain as (_ & Hnil & _). }
  destruct (tally_samples_errors sts) as [H0 Hle].
  rewrite Herrs, wrap32_small by lia.
  rewrite (Permutation_length Hsam). repeat split; auto. lia.
Qed.

End RampStepProgress.

(** ** The length of a ramp step *)

Lemma bounded_mono {R : Type} (G : nat) (p : prog R) :
  forall n n', (n <= n')%nat -> bounded G p n -> bounded G p n'.
Proof.
  induction p as [r | v | X e k IH]; simpl; auto.
  intros [| n] [| n'] Hle H; try done; try lia.
  destruct H as [Hc Hk]. split; [lia |].
  intros x. apply (IH x (n - length (spawned e) * G)%nat); [lia | apply Hk].
Qed.

Lemma bounded_bind {A B : Type} (G : nat) (p : prog A) (f : A -> prog B) (n m : nat) :
  bounded G p n -> (forall a, bounded G (f a) m) -> bounded G (bind p f) (n + m).
Proof.
  intros Hp Hf. revert n Hp.
  induction p as [r | v | X e k IH]; simpl; intros n Hp.
  - apply bounded_mono with m; [lia | apply Hf].
  - exact I.
  - destruct n as [| n]; [done |]. destruct Hp as [Hc Hk]. simpl.
    split; [lia |]. intros x.
    replace (n + m - length (spawned e) * G)%nat
      with (n - length (spawned e) * G + m)%nat by lia.
    apply IH, Hk.
Qed.

Lemma bounded_try {A : Type} (G : nat) (p : prog A) :
  forall n, bounded G p n -> bounded G (try p) n.
Proof.
  induction p as [r | v | X e k IH]; simpl; auto.
  intros [| n]; [done |]. intros [Hc Hk]. split; [exact Hc |].
  intros x. apply IH, Hk.
Qed.

Lemma bounded_finally {A : Type} (G : nat) (p : prog A) (d : prog unit) (n m : nat) :
  bounded G p n -> bounded G d m -> bounded G (finally p d) (n + m).
Proof.
  intros Hp Hd. revert n Hp.
  induction p as [r | v | X e k IH]; simpl; intros n Hp.
  - apply bounded_mono with (m + 0)%nat; [lia |]. by apply bounded_bind.
  - apply bounded_mono with (m + 0)%nat; [lia |]. by apply bounded_bind.
  - destruct n as [| n]; [done |]. destruct Hp as [Hc Hk]. simpl.
    split; [lia |]. intros x.
    replace (n + m - length (spawned e) * G)%nat
      with (n - length (spawned e) * G + m)%nat by lia.
    apply IH, Hk.
Qed.

Lemma bounded_call {X : Type} (G : nat) (e : event X) :
  bounded G (call e) (1 + length (spawned e) * G).
Proof. simpl. split; [lia | done]. Qed.

Lemma bounded_for_loop {S R : Type} (G : nat) (b n : nat) (i : Z)
    (body : Z -> S -> prog (S + R)) (s : S) :
  (forall j s', bounded G (body j s') b) -> bounded G (for_loop n i body s) (n * b).
Proof.
  intros Hbody. revert i s. induction n as [| n IH]; intros i s.
  - by rewrite for_loop_O.
  - rewrite for_loop_S. simpl Nat.mul. apply bounded_bind; [apply Hbody |].
    intros [s' | v]; [apply IH | exact I].
Qed.

Lemma bounded_index {A : Type} (G : nat) (l : list A) (i : Z) (n : nat) :
  bounded G (index l i) n.
Proof. unfold index. destruct (i <? 0); [exact I |]. by destruct (l !! Z.to_nat i). Qed.

Lemma bounded_lift {A : Type} (G : nat) (p : prog A) (s : slots) (n : nat) :
  bounded G p n -> bounded G (lift p s) n.
Proof.
  intros Hp. unfold lift. apply bounded_mono with (n + 0)%nat; [lia |].
  apply bounded_bind; [by apply bounded_try | done].
Qed.

Lemma bounded_mbind {A B : Type} (G : nat) (m : mainM A) (f : A -> mainM B)
    (s : slots) (n k : nat) :
  bounded G (m s) n -> (forall a s', bounded G (f a s') k) ->
  bounded G (mbind m f s) (n + k).
Proof.
  intros Hm Hf. unfold mbind. apply bounded_bind; [exact Hm |].
  intros [[a | v] s']; [apply Hf | exact I].
Qed.

Lemma bounded_main_loop (G : nat) (b n : nat) (i : Z) (body : Z -> mainM unit)
    (s : slots) :
  (forall j s', bounded G (body j s') b) -> bounded G (main_loop n i body s) (n * b).
Proof.
  intros Hbody. revert i s. induction n as [| n IH]; intros i s; simpl.
  - exact I.
  - apply bounded_mbind; [apply Hbody | intros _ s'; apply IH].
Qed.

Lemma bounded_Printf (G : nat) format args (w : stream) (s : slots) :
  bounded G (lift (call (Fprintf w format args)) s) 1.
Proof. apply bounded_lift, (bounded_call G (Fprintf w format args)). Qed.

Section Work.

Variable cfg : config.

Lemma bounded_run (G : nat) (c : conn) (w : Z) : bounded G (run cfg c w) 44.
Proof.
  unfold run. destruct (numTables cfg =? 0); [exact I |].
  apply (bounded_bind G _ _ 1 43); [apply (bounded_call G Now) |]. intros start.
  destruct c as [tx |]; [| exact I]. unfold on_conn.
  apply (bounded_bind G _ _ 1 42); [apply (bounded_call G (BeginTx tx)) |].
  intros [err |]; [exact I |].
  apply (bounded_bind G _ _ 20 22).
  { unfold for_range. change (Z.to_nat (10 - 0)) with 10%nat.
    apply (bounded_for_loop G 2 10). intros j ids.
    apply (bounded_bind G _ _ 1 1); [apply (bounded_call G UuidNewString) |].
    intros name.
    apply (bounded_bind G _ _ 1 0);
      [apply (bounded_call G (InsertReturningId tx _ name)) |].
    by intros [e | id]. }
  intros [ids | v]; [| exact I].
  apply (bounded_bind G _ _ 10 12).
  { unfold for_range. change (Z.to_nat (10 - 0)) with 10%nat.
    apply (bounded_for_loop G 1 10). intros j [].
    apply (bounded_bind G _ _ 0 1); [apply bounded_index |]. intros id.
    apply (bounded_bind G _ _ 1 0); [apply (bounded_call G (SelectById tx _ id)) |].
    by intros [e |]. }
  intros [[] | v]; [| exact I].
  apply (bounded_bind G _ _ 10 2).
  { unfold for_range. change (Z.to_nat (10 - 0)) with 10%nat.
    apply (bounded_for_loop G 1 10). intros j [].
    apply (bounded_bind G _ _ 0 1); [apply bounded_index |]. intros id.
    apply (bounded_bind G _ _ 1 0); [apply (bounded_call G (DeleteById tx _ id)) |].
    by intros [e |]. }
  intros [[] | v]; [| exact I].
  apply (bounded_bind G _ _ 1 1); [apply (bounded_call G (Commit tx)) |].
  intros [err |]; [exact I |].
  apply (bounded_bind G _ _ 1 0); [apply (bounded_call G Now) | done].
Qed.

Lemma bounded_go_body (G : nat) (f : closure) :
  bounded G (go_body cfg f) goroutine_calls.
Proof.
  destruct f as [c i]. unfold go_body, work_loop.
  apply (bounded_finally G _ _ 46 1); [| apply (bounded_call G (WgDone i))].
  apply (bounded_bind G _ _ 44 2); [apply bounded_run |].
  intros [d [err |]]; unfold record.
  - apply (bounded_bind G _ _ 1 1); [apply (bounded_call G (AtomicAddInt32 i 1)) |].
    intros _. apply (bounded_call G (Fprintf Stderr work_loop_error [VErr err])).
  - apply bounded_mono with 1%nat; [lia |]. apply (bounded_call G (TachAddTime i d)).
Qed.

Lemma bounded_ramp_step (i : Z) (s : slots) :
  bounded goroutine_calls ((running i ;; reporting i)%main s)
          (13 + Z.to_nat (i + 1) * 48).
Proof.
  replace (13 + Z.to_nat (i + 1) * 48)%nat
    with ((1 + (1 + (Z.to_nat (i + 1) * 48 + 1))) + 10)%nat by lia.
  apply bounded_mbind.
  - unfold running.
    apply bounded_mbind; [apply bounded_lift, (bounded_call _ (TachNew i (i + 1))) |].
    intros _ s1.
    apply bounded_mbind; [apply bounded_lift, (bounded_call _ (WgAdd i (i + 1))) |].
    intros _ s2. apply bounded_mbind.
    + unfold main_range. rewrite Z.sub_0_r. apply bounded_main_loop.
      intros j s3. unfold launch.
      apply (bounded_mbind _ _ _ _ 0 48).
      * unfold get_conn. apply bounded_lift, bounded_index.
      * intros c s4. apply bounded_lift.
        exact (bounded_call goroutine_calls (Go (WorkLoop c i))).
    + intros _ s3. apply bounded_lift, (bounded_call _ (WgWait i)).
  - intros _ s1. unfold reporting.
    apply (bounded_mbind _ _ _ _ 1 9);
      [apply bounded_lift, (bounded_call _ (TachCalc i)) |].
    intros m s2. unfold print_report.
    apply (bounded_mbind _ _ _ _ 1 8); [apply bounded_Printf |]. intros _ s3.
    apply (bounded_mbind _ _ _ _ 1 7); [apply bounded_Printf |]. intros _ s4.
    apply (bounded_mbind _ _ _ _ 1 6);
      [apply bounded_lift, (bounded_call _ (LoadNumErrors i)) |]. intros n s5.
    apply (bounded_mbind _ _ _ _ 1 5); [apply bounded_Printf |]. intros _ s6.
    apply (bounded_mbind _ _ _ _ 1 4); [apply bounded_Printf |]. intros _ s7.
    apply (bounded_mbind _ _ _ _ 1 3);
      [apply bounded_lift, (bounded_call _ (Println [VMetricsString m])) |].
    intros _ s8.
    apply (bounded_mbind _ _ _ _ 1 2); [apply bounded_Printf |]. intros _ s9.
    apply (bounded_mbind _ _ _ _ 1 1); [apply bounded_Printf |]. intros _ s10.
    apply bounded_Printf.
Qed.

End Work.

Lemma sum_list_app (l k : list nat) : sum_list (l ++ k) = (sum_list l + sum_list k)%nat.
Proof. induction l as [| x l IH]; simpl; [reflexivity | rewrite IH; lia]. Qed.

Lemma sum_list_insert (l : list nat) (k b b' : nat) :
  l !! k = Some b -> (sum_list (<[k := b']> l) + b = sum_list l + b')%nat.
Proof.
  revert k. induction l as [| x l IH]; intros [| k] H; simpl in *; try done.
  - injection H as ->. lia.
  - specialize (IH k H). lia.
Qed.

Lemma advance_budget {R : Type} (G : nat) (a : answers) (sh : shared) (p : prog R)
    (r : advanced R) (b : nat) :
  advance a sh p = Some r -> bounded G p b ->
  a_crashed r = true \/
  (a_crashed r = false /\
   exists b', bounded G (a_code r) b' /\ (b' + length (a_spawned r) * G < b)%nat).
Proof.
  destruct p as [x | v | X e k]; simpl; intros Hr Hb.
  - discriminate.
  - injection Hr as <-. by left.
  - destruct b as [| b]; [done |]. destruct Hb as [Hc Hk].
    destruct (perform e sh (a X e)) as [| v | x sh']; [discriminate | |];
      injection Hr as <-; right; (split; [reflexivity |]); simpl.
    + exists 0%nat. split; [exact I | lia].
    + exists (b - length (spawned e) * G)%nat. split; [apply Hk | lia].
Qed.

Lemma step_budget (cfg : config) {R : Type} (m m' : machine R) (B : nat) :
  mstep cfg m m' -> budget goroutine_calls m B ->
  exists B', budget goroutine_calls m' B' /\ (B' < B)%nat.
Proof.
  intros (t & a & Hstep) [Hcr | (bm & bs & Hm & Hp & HB)];
    unfold mstep_fun in Hstep.
  { rewrite Hcr in Hstep. discriminate. }
  destruct (m_crashed m); [discriminate |].
  assert (Hnew : forall sp : list closure,
            Forall2 (fun g b => bounded goroutine_calls (g_code g) b)
                    (start cfg <$> sp) (replicate (length sp) goroutine_calls)).
  { intros sp. apply Forall2_fmap_l, Forall2_replicate_r; [reflexivity |].
    apply Forall_forall. intros f _. apply bounded_go_body. }
  destruct t as [| k].
  - destruct (advance a (m_shared m) (m_main m)) as [r |] eqn:Ha; [| discriminate].
    injection Hstep as <-.
    destruct (advance_budget _ _ _ _ _ _ Ha Hm) as [Hc | (Hc & b' & Hb' & Hlt)].
    + exists 0%nat. split; [by left | lia].
    + exists (1 + b' + sum_list (bs ++ replicate (length (a_spawned r)) goroutine_calls))%nat.
      split.
      * right. exists b', (bs ++ replicate (length (a_spawned r)) goroutine_calls).
        simpl. split; [exact Hb' |]. split; [| lia].
        apply Forall2_app; [exact Hp | apply Hnew].
      * rewrite sum_list_app, sum_list_replicate. lia.
  - destruct (m_pool m !! k) as [g |] eqn:Hg; [| discriminate].
    destruct (Forall2_lookup_l _ _ _ _ _ Hp Hg) as (b & Hb & Hgb).
    destruct (advance a (m_shared m) (g_code g)) as [r |] eqn:Ha; [| discriminate].
    injection Hstep as <-.
    destruct (advance_budget _ _ _ _ _ _ Ha Hgb) as [Hc | (Hc & b' & Hb' & Hlt)].
    + exists 0%nat. split; [by left | lia].
    + pose proof (sum_list_insert bs k b b' Hb) as Hsum.
      exists (1 + bm + sum_list (<[k := b']> bs ++
                                 replicate (length (a_spawned r)) goroutine_calls))%nat.
      split.
      * right. exists bm, (<[k := b']> bs ++
                           replicate (length (a_spawned r)) goroutine_calls).
        simpl. split; [exact Hm |]. split; [| lia].
        apply Forall2_app; [| apply Hnew].
        apply Forall2_insert; [exact Hp | exact Hb'].
      * rewrite sum_list_app, sum_list_replicate. lia.
Qed.

Lemma nsteps_budget (cfg : config) {R : Type} (n : nat) (m m' : machine R) (B : nat) :
  nsteps (mstep cfg) n m m' -> budget goroutine_calls m B -> (n <= B)%nat.
Proof.
  intros Hsteps. revert B.
  induction Hsteps as [m | n m1 m2 m3 Hstep _ IH]; intros B HB; [lia |].
  destruct (step_budget cfg _ _ _ Hstep HB) as (B' & HB' & Hlt).
  specialize (IH B' HB'). lia.
Qed.

(** X22: a ramp step is finite.  However the goroutines are interleaved
    and whatever the calls answer, the machine makes at most
    [48 * (i + 1) + 14] steps from the start of the measured part of
    iteration [i]: thirteen calls of the main goroutine, one [go]
    statement and at most 47 calls for each of the [i + 1] goroutines, and
    one step if a panic ends the process. *)
Theorem ramp_step_terminates (cfg : config) (i : Z) (s : slots) (sh : shared) (n : nat)
    (m : machine (exit unit * slots)) :
  nsteps (mstep cfg) n (step_machine i s sh) m ->
  (n <= 48 * Z.to_nat (i + 1) + 14)%nat.
Proof.
  intros Hsteps.
  apply (nsteps_budget cfg _ _ _ _ Hsteps).
  right. exists (13 + Z.to_nat (i + 1) * 48)%nat, []. simpl.
  split; [apply bounded_ramp_step |]. split; [constructor | lia].
Qed.

(** ** The further properties at work *)

(** The deferred functions on the connections of the scenario. *)
Lemma close_connections_closes_all_witness :
  exists ext,
    exec healthy nothing_held (close_connections small (Some <$> three_handles)) [] =
      ([] ++ ext, Ended (Done (Done tt, Some <$> three_handles))) /\
    closes ext = three_handles /\
    stderr ext = (fun e => (close_error, [VErr e])) <$> close_failures ext.
Proof.
  apply (close_connections_closes_all small healthy nothing_held three_handles []).
  - reflexivity.
  - intros h _. reflexivity.
  - intros h tr _. reflexivity.
Defined.

(** With a transaction open on the second connection, the deferred
    function closes the first and hangs in the second [Close]. *)
Example close_connections_waits :
  snd (exec healthy nothing_held (close_connections small (Some <$> three_handles))
         [Entry (BeginTx 11%nat) None]) = Hung 11%nat /\
  closes (fst (exec healthy nothing_held (close_connections small (Some <$> three_handles))
                 [Entry (BeginTx 11%nat) None])) = [10%nat].
Proof. by vm_compute. Qed.


Lemma drop_tables_drops_all_witness :
  exists ext,
    interp healthy (drop_tables small (Some <$> three_handles)) [] =
      ([] ++ ext, Done (Done tt, Some <$> three_handles)) /\
    drops ext = zip three_handles (seqZ 0 (numTables small)) /\
    stderr ext = (fun e => (drop_error, [VErr e])) <$> drop_failures ext.
Proof.
  apply (drop_tables_drops_all small healthy three_handles []).
  vm_compute. discriminate.
Defined.

Lemma warmup_covers_every_slot_witness :
  exists ext,
    fst (interp healthy (warmup small (Some <$> three_handles)) []) = [] ++ ext /\
    Some <$> three_handles = Some <$> three_handles /\
    begins ext = three_handles /\ workload_errors ext = [] /\
    tables_used ext =
      flat_map (fun i => replicate 30 (Z.rem i (numTables small)))
               (seqZ 0 (numLoops small)).
Proof.
  apply (warmup_covers_every_slot small healthy three_handles []).
  - reflexivity.
  - vm_compute. reflexivity.
Defined.

(** The second ramp step when the database refuses every connection. *)
Lemma establishing_outcomes_witness :
  exists (x : option error) (ext : trace),
    fst (interp (refusing 5) (establishing 1 three_conns) []) =
      [] ++ Entry (ConnClose 11%nat) x :: ext /\
    closes ext = [] /\
    match x with
    | Some err =>
        ext = [] /\
        snd (interp (refusing 5) (establishing 1 three_conns) []) =
          Done (Panicked err, three_conns)
    | None =>
        exists c e, established ext (c, e) /\
          snd (interp (refusing 5) (establishing 1 three_conns) []) =
            Done (match e with Some err => Panicked err | None => Done tt end,
                  <[Z.to_nat 1 := c]> three_conns)
    end.
Proof.
  apply (establishing_outcomes (refusing 5) 1 three_conns 11%nat []).
  - lia.
  - reflexivity.
Defined.

Example establishing_leaves_nil :
  snd (interp (refusing 5) (establishing 1 three_conns) []) =
    Done (Panicked "Error opening connection: too many clients already", one_nil).
Proof. vm_compute. reflexivity. Qed.

(** The scenario of the spec from end to end, with a healthy database. *)
Lemma main_closes_what_it_acquired_witness :
  closes (fst (interp healthy (main small) [])) =
    acquired (fst (interp healthy (main small) [])) /\
  Z.of_nat (length (acquired (fst (interp healthy (main small) [])))) =
    2 * numLoops small /\
  [Some 103%nat; Some 104%nat; Some 105%nat] =
    Some <$> drop (Z.to_nat (numLoops small))
                  (acquired (fst (interp healthy (main small) []))).
Proof.
  apply (main_closes_what_it_acquired small healthy).
  vm_compute. reflexivity.
Defined.

Lemma main_cleans_up_after_db_close_witness :
  db_closes (fst (interp healthy (main small) [])) = [None] /\
  exists pre dr cl hs,
    fst (interp healthy (main small) []) = pre ++ [Entry DbClose None] ++ dr ++ cl /\
    [Some 103%nat; Some 104%nat; Some 105%nat] = Some <$> hs /\
    db_closes pre = [] /\ drops pre = [] /\
    drops dr = zip hs (seqZ 0 (numTables small)) /\ closes dr = [] /\
    closes cl = hs /\ drops cl = [].
Proof.
  apply (main_cleans_up_after_db_close small healthy).
  vm_compute. reflexivity.
Defined.

Lemma main_returns_only_with_fitting_settings_witness :
  0 <= numLoops small /\ numTables small <= numLoops small /\
  (numTables small = 0 -> numLoops small = 0).
Proof.
  apply (main_returns_only_with_fitting_settings small healthy
           [Some 103%nat; Some 104%nat; Some 105%nat]).
  vm_compute. reflexivity.
Defined.

Lemma main_goroutines_use_replaced_connections_witness :
  gos (fst (interp healthy (main small) [])) =
    started (drop (Z.to_nat (numLoops small))
                  (acquired (fst (interp healthy (main small) []))))
            (Z.to_nat (numLoops small)) /\
  (NoDup (acquired (fst (interp healthy (main small) []))) ->
   forall f, In f (gos (fst (interp healthy (main small) []))) ->
     exists h i, f = WorkLoop (Some h) i /\
                 In h (drop (Z.to_nat (numLoops small))
                            (acquired (fst (interp healthy (main small) [])))) /\
                 ~ In h (begins (fst (interp healthy (main small) [])))).
Proof.
  apply (main_goroutines_use_replaced_connections small healthy
           [Some 103%nat; Some 104%nat; Some 105%nat]).
  vm_compute. reflexivity.
Defined.

(** The healthy database hands out six connections, the warm-up runs on
    the first three. *)
Example connections_of_the_scenario :
  acquired (fst (interp healthy (main small) [])) = [100; 101; 102; 103; 104; 105]%nat /\
  begins (fst (interp healthy (main small) [])) = [100; 101; 102]%nat.
Proof. by vm_compute. Qed.

(** With a pool that hands out the connection closed last, every
    goroutine runs on a connection the warm-up has used. *)
Example goroutines_on_recycled_connections :
  snd (interp recycling (main small) []) =
    Done (Done tt, [Some 100%nat; Some 101%nat; Some 102%nat]) /\
  acquired (fst (interp recycling (main small) [])) = [100; 101; 102; 100; 101; 102]%nat /\
  begins (fst (interp recycling (main small) [])) = [100; 101; 102]%nat /\
  gos (fst (interp recycling (main small) [])) =
    [WorkLoop (Some 100%nat) 0;
     WorkLoop (Some 100%nat) 1; WorkLoop (Some 101%nat) 1;
     WorkLoop (Some 100%nat) 2; WorkLoop (Some 101%nat) 2; WorkLoop (Some 102%nat) 2].
Proof. by vm_compute. Qed.

(** The goroutines of the scenario: one, two and three, on the
    connections 103, 104 and 105 of the benchmark loop. *)
Example goroutines_of_the_scenario :
  gos (fst (interp healthy (main small) [])) =
    [WorkLoop (Some 103%nat) 0;
     WorkLoop (Some 103%nat) 1; WorkLoop (Some 104%nat) 1;
     WorkLoop (Some 103%nat) 2; WorkLoop (Some 104%nat) 2; WorkLoop (Some 105%nat) 2].
Proof. vm_compute. reflexivity. Qed.

(** The scenario with a database that refuses every connection. *)
Lemma main_unconnected_closes_nothing_witness :
  closes (fst (interp (refusing 5) (main small) [])) = [] /\
  creates (fst (interp (refusing 5) (main small) [])) = [] /\
  db_closes (fst (interp (refusing 5) (main small) [])) = [] /\
  exists v s, snd (interp (refusing 5) (main small) []) = Done (Panicked v, s).
Proof.
  apply (main_unconnected_closes_nothing small (refusing 5)).
  vm_compute. reflexivity.
Defined.

(** The scenario with a database that fails the [CREATE TABLE]. *)
Lemma main_create_failure_witness :
  exists err,
    create_failures (fst (interp (failing_at [13%nat] healthy) (main small) [])) = [err] /\
    snd (interp (failing_at [13%nat] healthy) (main small) []) =
      Done (Panicked ("Error creating table: " +:+ err),
            Some <$> acquired (fst (interp (failing_at [13%nat] healthy) (main small) []))) /\
    closes (fst (interp (failing_at [13%nat] healthy) (main small) [])) =
      acquired (fst (interp (failing_at [13%nat] healthy) (main small) [])) /\
    Z.of_nat (length (acquired (fst (interp (failing_at [13%nat] healthy)
                                       (main small) [])))) = numLoops small /\
    drops (fst (interp (failing_at [13%nat] healthy) (main small) [])) = [] /\
    begins (fst (interp (failing_at [13%nat] healthy) (main small) [])) = [] /\
    db_closes (fst (interp (failing_at [13%nat] healthy) (main small) [])) = [].
Proof.
  apply (main_create_failure small (failing_at [13%nat] healthy)).
  vm_compute. discriminate.
Defined.

(** The scenario with a database that fails the first [BeginTx]. *)
Lemma main_warmup_failure_cleans_up_witness :
  exists prefix err,
    In prefix bracket_prefixes /\
    bracket_failures (fst (exec (failing_at [18%nat] healthy) nothing_held (main small) [])) =
      [err] /\
    statement_failures
      (fst (exec (failing_at [18%nat] healthy) nothing_held (main small) [])) = [] /\
    snd (exec (failing_at [18%nat] healthy) nothing_held (main small) []) =
      Ended (Done (Panicked (prefix +:+ err),
                   Some <$> acquired (fst (exec (failing_at [18%nat] healthy) nothing_held
                                             (main small) [])))) /\
    closes (fst (exec (failing_at [18%nat] healthy) nothing_held (main small) [])) =
      acquired (fst (exec (failing_at [18%nat] healthy) nothing_held (main small) [])) /\
    drops (fst (exec (failing_at [18%nat] healthy) nothing_held (main small) [])) =
      zip (acquired (fst (exec (failing_at [18%nat] healthy) nothing_held (main small) [])))
          (seqZ 0 (numTables small)) /\
    gos (fst (exec (failing_at [18%nat] healthy) nothing_held (main small) [])) = [] /\
    db_closes (fst (exec (failing_at [18%nat] healthy) nothing_held (main small) [])) = [].
Proof.
  apply (main_warmup_failure_cleans_up small (failing_at [18%nat] healthy) nothing_held).
  vm_compute. discriminate.
Defined.

(** The same when the first [Commit] fails. *)
Example commit_failure_of_the_scenario :
  snd (exec (failing_at [59%nat] healthy) nothing_held (main small) []) =
    Ended (Done (Panicked "Error committing transaction: connection reset by peer",
                 [Some 100%nat; Some 101%nat; Some 102%nat])) /\
  closes (fst (exec (failing_at [59%nat] healthy) nothing_held (main small) [])) =
    [100; 101; 102]%nat.
Proof. by vm_compute. Qed.

(** The scenario with a database that fails the first [INSERT]. *)
Lemma warmup_statement_failure_hangs_witness :
  exists h err,
    snd (exec (failing_at [20%nat] healthy) nothing_held (main small) []) = Hung h /\
    statement_failures
      (fst (exec (failing_at [20%nat] healthy) nothing_held (main small) [])) = [err] /\
    last (begins (fst (exec (failing_at [20%nat] healthy) nothing_held (main small) []))) =
      Some h /\
    open_txs h (fst (exec (failing_at [20%nat] healthy) nothing_held (main small) [])) =
      1%nat /\
    In h (acquired (fst (exec (failing_at [20%nat] healthy) nothing_held (main small) []))) /\
    ~ In h (closes (fst (exec (failing_at [20%nat] healthy) nothing_held (main small) []))) /\
    closes (fst (exec (failing_at [20%nat] healthy) nothing_held (main small) [])) =
      take (length (closes (fst (exec (failing_at [20%nat] healthy) nothing_held
                                   (main small) []))))
           (acquired (fst (exec (failing_at [20%nat] healthy) nothing_held (main small) []))) /\
    drops (fst (exec (failing_at [20%nat] healthy) nothing_held (main small) [])) =
      zip (acquired (fst (exec (failing_at [20%nat] healthy) nothing_held (main small) [])))
          (seqZ 0 (numTables small)) /\
    gos (fst (exec (failing_at [20%nat] healthy) nothing_held (main small) [])) = [] /\
    db_closes (fst (exec (failing_at [20%nat] healthy) nothing_held (main small) [])) = [].
Proof.
  apply (warmup_statement_failure_hangs small (failing_at [20%nat] healthy) nothing_held).
  vm_compute. discriminate.
Defined.

(** There [main] hangs in the first [Close] of the deferred function, on
    the connection of slot 0; were [Close] to return, [main] would end in
    the panic with all three connections closed. *)
Example statement_failure_of_the_scenario :
  snd (exec (failing_at [20%nat] healthy) nothing_held (main small) []) = Hung 100%nat /\
  closes (fst (exec (failing_at [20%nat] healthy) nothing_held (main small) [])) = [] /\
  snd (interp (failing_at [20%nat] healthy) (main small) []) =
    Done (Panicked "Error inserting row: connection reset by peer",
          [Some 100%nat; Some 101%nat; Some 102%nat]) /\
  closes (fst (interp (failing_at [20%nat] healthy) (main small) [])) = [100; 101; 102]%nat.
Proof. by vm_compute. Qed.

(** A failed [SELECT] of the second call of [run] leaves the connection
    of slot 1 waiting: the connection of slot 0 is closed before. *)
Example select_failure_of_the_scenario :
  snd (exec (failing_at [83%nat] healthy) nothing_held (main small) []) = Hung 101%nat /\
  closes (fst (exec (failing_at [83%nat] healthy) nothing_held (main small) [])) = [100%nat].
Proof. by vm_compute. Qed.

(** The scenario with a healthy database: every [Close] returns. *)
Lemma main_ends_without_open_transaction_witness :
  exec healthy nothing_held (main small) [] =
    (fst (interp healthy (main small) []), Ended (snd (interp healthy (main small) []))).
Proof.
  apply (main_ends_without_open_transaction small healthy nothing_held).
  - vm_compute. reflexivity.
  - intros tr h. reflexivity.
Defined.

(** When the goroutines have left their transactions open, the ramp
    steps still close the connections of the warm-up and [db.Close]
    returns, and [main] hangs in the deferred function, on the first
    connection a goroutine has run on. *)
Example goroutine_transaction_blocks_cleanup :
  snd (exec healthy all_held (main small) []) = Hung 103%nat /\
  closes (fst (exec healthy all_held (main small) [])) = [100; 101; 102]%nat /\
  db_closes (fst (exec healthy all_held (main small) [])) = [None].
Proof. by vm_compute. Qed.



(** There the connection of the third slot stays open. *)
Example reestablish_failure_of_the_scenario :
  acquired (fst (interp (exhausted 4) (main small) [])) = [100; 101; 102; 103]%nat /\
  closes (fst (interp (exhausted 4) (main small) [])) = [100; 101; 103]%nat /\
  snd (interp (exhausted 4) (main small) []) =
    Done (Panicked nil_dereference, [Some 103%nat; None; Some 102%nat]).
Proof. by vm_compute. Qed.


(** There the second connection is closed twice. *)
Example close_failure_of_the_scenario :
  acquired (fst (interp (failing_at [170%nat] healthy) (main small) [])) =
    [100; 101; 102; 103]%nat /\
  closes (fst (interp (failing_at [170%nat] healthy) (main small) [])) =
    [100; 101; 103; 101; 102]%nat /\
  snd (interp (failing_at [170%nat] healthy) (main small) []) =
    Done (Panicked "connection reset by peer", [Some 103%nat; Some 101%nat; Some 102%nat]).
Proof. by vm_compute. Qed.

(** *** The machine after the two goroutines of the second ramp step *)

Lemma run_schedule_nsteps {R : Type} (cfg : config) (sch : list (tid * answers))
    (m m' : machine R) :
  run_schedule cfg sch m = Some m' -> nsteps (mstep cfg) (length sch) m m'.
Proof.
  revert m. induction sch as [| [t a] sch IH]; simpl; intros m H.
  - injection H as ->. constructor.
  - destruct (mstep_fun cfg t a m) as [m1 |] eqn:Hstep; [| discriminate].
    eapply nsteps_l; [exists t, a; exact Hstep | by apply IH].
Qed.

Lemma ramp_step_never_deadlocks_witness :
  (exists r, m_main after_two_goroutines = Ret r) \/
  exists t m',
    mstep_fun small t (later (clock (m_shared after_two_goroutines)))
              after_two_goroutines = Some m'.
Proof.
  apply (ramp_step_never_deadlocks small 1 three_conns [10%nat; 11%nat]) with fresh.
  - vm_compute. discriminate.
  - lia.
  - reflexivity.
  - reflexivity.
  - reflexivity.
  - reflexivity.
  - apply run_schedule_reachable with two_goroutines. vm_compute. reflexivity.
Defined.

Lemma ramp_step_terminates_witness :
  (length two_goroutines <= 48 * Z.to_nat (1 + 1) + 14)%nat.
Proof.
  apply (ramp_step_terminates small 1 three_conns fresh (length two_goroutines)
           after_two_goroutines).
  apply run_schedule_nsteps. vm_compute. reflexivity.
Defined.

Lemma ramp_step_never_panics_witness :
  m_crashed after_two_goroutines = false /\
  (forall v, m_main after_two_goroutines <> Panic v) /\
  (forall v s', m_main after_two_goroutines <> Ret (Panicked v, s')) /\
  returns (m_main after_two_goroutines) /\
  Forall (fun g => forall v, g_code g <> Panic v) (m_pool after_two_goroutines).
Proof.
  apply (ramp_step_never_panics small 1 three_conns [10%nat; 11%nat]) with fresh.
  - vm_compute. discriminate.
  - lia.
  - reflexivity.
  - reflexivity.
  - reflexivity.
  - reflexivity.
  - apply run_schedule_reachable with two_goroutines. vm_compute. reflexivity.
Defined.

Lemma ramp_step_stays_within_size_witness :
  (length (m_pool after_two_goroutines) <= Z.to_nat (1 + 1))%nat /\
  (m_pool after_two_goroutines <> [] ->
   capacity (tach (m_shared after_two_goroutines) 1) = 1 + 1 /\
   0 <= numErrors (m_shared after_two_goroutines) 1 /\
   Z.of_nat (length (samples (tach (m_shared after_two_goroutines) 1))) +
     numErrors (m_shared after_two_goroutines) 1 <=
     Z.of_nat (length (m_pool after_two_goroutines))).
Proof.
  apply (ramp_step_stays_within_size small 1 three_conns [10%nat; 11%nat]) with fresh.
  - vm_compute. discriminate.
  - lia.
  - reflexivity.
  - reflexivity.
  - reflexivity.
  - reflexivity.
  - lia.
  - apply run_schedule_reachable with two_goroutines. vm_compute. reflexivity.
Defined.

(** The backoff before the fifth attempt: four failures, then success. *)
Example backoff_of_four_failures :
  fst (interp (refusing 4) establishConnection []) =
    flat_map backoff_round
      [("too many clients already", [F64bits 0]);
       ("too many clients already", [F64bits 0; F64bits 0]);
       ("too many clients already", [F64bits 0; F64bits 0; F64bits 0]);
       ("too many clients already", [F64bits 0; F64bits 0; F64bits 0; F64bits 0])] ++
    [Entry DbConn (inr 104%nat)].
Proof. vm_compute. reflexivity. Qed.

(** A goroutine on a nil connection calls [wg.Done] and panics. *)
Example goroutine_on_nil :
  interp healthy (work_loop small None 1) [] =
    ([Entry Now 0; Entry (WgDone 1) tt], Panicked nil_dereference).
Proof. vm_compute. reflexivity. Qed.
